(** * SKU stock checker: the concurrent lookup pipeline of [sku_date_checker.py]

    A shallow embedding of the token-bucket rate limiter, the per-task remote
    lookup with its retry loop, the CSV producer, the main-thread aggregator
    and the worker pool, followed by the properties of the design document
    stated against that embedding.

    Conventions.
    - Python floats (tokens, delays, clock readings) are idealised as
      rationals [Q]; every literal of the source is exact in that reading
      except [0.02], taken as [1/50].  The rate limiter is given a second
      time with every float operation rounded ([RateLimiter64]), and the
      delays that [time.sleep] refuses are an oracle of the lookup.
    - A Python exception is a value of [pyexc]; a block that may raise has a
      result of type [outcome].
    - Values read from the environment (clock, HTTP responses, the stop flag
      seen by a thread) are supplied by explicit oracles. *)

From Stdlib Require Import ZArith QArith Qminmax Qround Qpower Qabs Lia Lqa
  Ascii String List.
From stdpp Require Import base strings gmap list pretty.

Open Scope Z_scope.

(** ** Exceptions *)

(** The two handler classes of [_fetch_order_details]:
    [requests.exceptions.RequestException] and every other [Exception]. *)
Inductive pyexc : Type :=
| RequestException
| OtherException.

Inductive outcome (A : Type) : Type :=
| Returned (a : A)
| Raised (e : pyexc).
Arguments Returned {A} a.
Arguments Raised {A} e.

(** ** [class RateLimiter], read in exact arithmetic *)

Module RateLimiter.

Record t : Type := mk {
  capacity : Z;
  tokens : Q;
  fill_rate : Q;
  timestamp : Q
}.

(** [__init__(self, per_minute)], with [now] the reading of
    [time.monotonic()]. *)
Definition init (per_minute : Z) (now : Q) : t :=
  let capacity := Z.max per_minute 1 in
  {| capacity := capacity;
     tokens := inject_Z capacity;
     fill_rate := inject_Z capacity / 60;
     timestamp := now |}.

(** The refill computed under the lock:
    [min(self.capacity, self.tokens + elapsed * self.fill_rate)]. *)
Definition refill (rl : t) (now : Q) : Q :=
  let elapsed := (now - timestamp rl)%Q in
  Qmin (inject_Z (capacity rl)) (tokens rl + elapsed * fill_rate rl)%Q.

(** One pass through the [with self.lock:] block of [acquire]: the new
    state and whether the call returns. *)
Definition acquire_locked (rl : t) (now : Q) : t * bool :=
  let tk := refill rl now in
  if Qle_bool 1 tk
  then ({| capacity := capacity rl;
           tokens := (tk - 1)%Q;
           fill_rate := fill_rate rl;
           timestamp := now |}, true)
  else ({| capacity := capacity rl;
           tokens := tk;
           fill_rate := fill_rate rl;
           timestamp := now |}, false).

(** The argument of [time.sleep] between two passes. *)
Definition poll_sleep : Q := 1 # 50.

(** [acquire(self)]: the [while True] loop, run against the successive
    readings of the monotonic clock.  The result is the final state, the
    unread part of the clock trace and the sleeps performed, oldest first;
    [None] when the trace ends before the call returns. *)
Fixpoint acquire (rl : t) (clock : list Q) : option (t * list Q * list Q) :=
  match clock with
  | [] => None
  | now :: rest =>
      match acquire_locked rl now with
      | (rl', true) => Some (rl', rest, [])
      | (rl', false) =>
          match acquire rl' rest with
          | Some (rl'', rest', sleeps) => Some (rl'', rest', poll_sleep :: sleeps)
          | None => None
          end
      end
  end.

(** The successive states of the bucket when the critical section is
    entered at the clock readings [nows], by whichever threads. *)
Fixpoint sections (rl : t) (nows : list Q) : list t :=
  match nows with
  | [] => []
  | now :: rest =>
      let rl' := fst (acquire_locked rl now) in
      rl' :: sections rl' rest
  end.

(** A clock that never runs backwards, starting from reading [t0]. *)
Fixpoint monotonic_from (t0 : Q) (nows : list Q) : Prop :=
  match nows with
  | [] => True
  | now :: rest => (t0 <= now)%Q /\ monotonic_from now rest
  end.

(** The bucket invariant of the data model. *)
Definition bounded (rl : t) : Prop :=
  (0 <= tokens rl)%Q /\ (tokens rl <= inject_Z (capacity rl))%Q.

End RateLimiter.

(** ** Binary64 rounding *)

Module Binary64.

(** A float is the rational it denotes; [round x] is the float nearest
    to [x], ties to even, as every arithmetic operation of Python
    delivers it: 53 significant bits, gradual underflow down to
    [2^-1074].  There is no largest float here: where Python's result is
    [inf], [round] gives a number of at least [2^1024], which compares
    with every [int] that converts to a float as [inf] does. *)

(** The nearest integer, ties to even. *)
Definition rne (x : Q) : Z :=
  let f := Qfloor x in
  match (x - inject_Z f ?= 1 # 2)%Q with
  | Lt => f
  | Gt => f + 1
  | Eq => if Z.even f then f else f + 1
  end.

(** [floor (log2 x)], for [0 < x]. *)
Definition ilog2 (x : Q) : Z :=
  let k := Z.log2 (Qnum x) - Z.log2 (Z.pos (Qden x)) in
  if Qle_bool (2 ^ k) x then k else k - 1.

(** The exponent of the last place of the float nearest to [x]: 53
    significant bits, and no place below [2^-1074]. *)
Definition ulp_exp (x : Q) : Z := Z.max (-1074) (ilog2 x - 52).

Definition round_pos (x : Q) : Q :=
  let e := ulp_exp x in
  (inject_Z (rne (x / 2 ^ e)) * 2 ^ e)%Q.

(** Round to nearest, ties to even. *)
Definition round (x : Q) : Q :=
  match (x ?= 0)%Q with
  | Eq => 0%Q
  | Gt => round_pos x
  | Lt => (- round_pos (- x))%Q
  end.

(** [float(n)] for an [int]: the nearest float, and [OverflowError] when
    that is beyond the largest one. *)
Definition float_of_int (n : Z) : outcome Q :=
  let x := round (inject_Z n) in
  if Qle_bool (2 ^ 1024) (Qabs x) then Raised OtherException else Returned x.

End Binary64.

(** ** [class RateLimiter], every float operation rounded *)

Module RateLimiter64.
Import Binary64.

(** [tokens], [fill_rate] and [timestamp] hold floats, [capacity] the
    [int] it was given. *)
Record t : Type := mk {
  capacity : Z;
  tokens : Q;
  fill_rate : Q;
  timestamp : Q
}.

(** [__init__(self, per_minute)], with [now] the reading of
    [time.monotonic()]: [float(self.capacity)], which may raise, and
    [self.capacity / 60.0], which converts the [int] in the same way
    before it divides. *)
Definition init (per_minute : Z) (now : Q) : outcome t :=
  let capacity := Z.max per_minute 1 in
  match float_of_int capacity with
  | Returned c =>
      Returned {| capacity := capacity;
                  tokens := c;
                  fill_rate := round (c / 60);
                  timestamp := now |}
  | Raised e => Raised e
  end.

(** [self.tokens + elapsed * self.fill_rate], the second argument of
    [min]. *)
Definition refilled (rl : t) (now : Q) : Q :=
  let elapsed := round (now - timestamp rl) in
  round (tokens rl + round (elapsed * fill_rate rl)).

Definition store (rl : t) (tk : Q) (now : Q) : t :=
  {| capacity := capacity rl; tokens := tk;
     fill_rate := fill_rate rl; timestamp := now |}.

(** One pass through the [with self.lock:] block of [acquire]: the new
    state and whether the call returns.  [min(self.capacity, x)] is its
    first argument, the [int], unless [x < self.capacity]; Python
    compares an [int] with a float exactly, also in [self.tokens >= 1.0].
    [self.tokens -= 1.0] on the [int] converts it first, as the
    constructor did. *)
Definition acquire_locked (rl : t) (now : Q) : outcome (t * bool) :=
  let x := refilled rl now in
  if Qle_bool (inject_Z (capacity rl)) x
  then
    if 1 <=? capacity rl
    then match float_of_int (capacity rl) with
         | Returned c => Returned (store rl (round (c - 1)) now, true)
         | Raised e => Raised e
         end
    else Returned (store rl (inject_Z (capacity rl)) now, false)
  else
    if Qle_bool 1 x
    then Returned (store rl (round (x - 1)) now, true)
    else Returned (store rl x now, false).

(** The successive states of the bucket when the critical section is
    entered at the clock readings [nows], by whichever threads. *)
Fixpoint sections (rl : t) (nows : list Q) : outcome (list t) :=
  match nows with
  | [] => Returned []
  | now :: rest =>
      match acquire_locked rl now with
      | Returned (rl', _) =>
          match sections rl' rest with
          | Returned states => Returned (rl' :: states)
          | Raised e => Raised e
          end
      | Raised e => Raised e
      end
  end.

(** [0 <= tokens <= bound]. *)
Definition within (bound : Q) (rl : t) : Prop :=
  (0 <= tokens rl)%Q /\ (tokens rl <= bound)%Q.

(** The bucket invariant of the data model. *)
Definition bounded (rl : t) : Prop := within (inject_Z (capacity rl)) rl.

(** [float(n) == n]. *)
Definition exact (n : Z) : Prop := (round (inject_Z n) == inject_Z n)%Q.

(** What the constructor establishes and every critical section keeps:
    a capacity of at least 1 that converts to a float, a fill rate that is
    not negative, and [0 <= tokens <= float(capacity)]. *)
Record sane (rl : t) : Prop := mkSane {
  sane_capacity : 1 <= capacity rl;
  sane_float : float_of_int (capacity rl)
               = Returned (round (inject_Z (capacity rl)));
  sane_rate : (0 <= fill_rate rl)%Q;
  sane_tokens : within (round (inject_Z (capacity rl))) rl
}.

End RateLimiter64.

(** ** Decoded JSON payloads *)

(** A value as [resp.json()] returns it.  An object is the association list
    of its (distinct) keys. *)
#[warnings="-register-all"] Inductive json : Type :=
| JNull
| JBool (b : bool)
| JInt (z : Z)
| JFloat (q : Q)
| JStr (s : string)
| JArr (l : list json)
| JObj (m : list (string * json)).

(** Python truthiness, as tested by [if results:]. *)
Definition truthy (j : json) : bool :=
  match j with
  | JNull => false
  | JBool b => b
  | JInt z => negb (z =? 0)
  | JFloat q => negb (Qeq_bool q 0)
  | JStr s => negb (String.eqb s "")
  | JArr l => match l with [] => false | _ => true end
  | JObj m => match m with [] => false | _ => true end
  end.

Fixpoint assoc (k : string) (m : list (string * json)) : option json :=
  match m with
  | [] => None
  | (k', v) :: rest => if String.eqb k k' then Some v else assoc k rest
  end.

(** [j.get(k, default)]: only a dict has the method; anything else raises
    [AttributeError]. *)
Definition dict_get (j : json) (k : string) (default : json) : outcome json :=
  match j with
  | JObj m => Returned (match assoc k m with Some v => v | None => default end)
  | _ => Raised OtherException
  end.

(** [j[0]]: the first element of a non-empty list or string.  A decoded
    object has string keys only, so indexing it by [0] raises [KeyError];
    numbers and booleans are not subscriptable. *)
Definition index0 (j : json) : outcome json :=
  match j with
  | JArr (x :: _) => Returned x
  | JStr (String c _) => Returned (JStr (String c EmptyString))
  | _ => Raised OtherException
  end.

(** [s.replace('Z', '+00:00')]. *)
Fixpoint replace_Z (s : string) : string :=
  match s with
  | EmptyString => EmptyString
  | String c rest =>
      if Ascii.eqb c "Z"%char
      then ("+00:00" ++ replace_Z rest)%string
      else String c (replace_Z rest)
  end.

(** ** The Result record ([base_result]) *)

Definition pydate : Type := Z * Z * Z.

Record Result : Type := mkResult {
  sku : string;
  order_date_obj : option pydate;
  days_since : option Z;
  order_ref : json;
  count : json;
  status_code : string
}.

Definition set_order_date (d : pydate) (days : Z) (r : Result) : Result :=
  {| sku := sku r; order_date_obj := Some d; days_since := Some days;
     order_ref := order_ref r; count := count r;
     status_code := status_code r |}.

Definition set_order_ref (v : json) (r : Result) : Result :=
  {| sku := sku r; order_date_obj := order_date_obj r;
     days_since := days_since r; order_ref := v; count := count r;
     status_code := status_code r |}.

Definition set_count (v : json) (r : Result) : Result :=
  {| sku := sku r; order_date_obj := order_date_obj r;
     days_since := days_since r; order_ref := order_ref r; count := v;
     status_code := status_code r |}.

Definition set_status_code (v : string) (r : Result) : Result :=
  {| sku := sku r; order_date_obj := order_date_obj r;
     days_since := days_since r; order_ref := order_ref r; count := count r;
     status_code := v |}.

(** ** [SkuCheckerApp._fetch_order_details] *)

Module Lookup.

(** What [float(ra)] returns when it returns: a finite number, or one of
    [inf], [-inf] and [nan] (for header texts such as "inf", "nan" or
    "1e999"). *)
Inductive pyfloat : Type :=
| Finite (q : Q)
| NotFinite.

(** What the retry loop reads off a [requests.Response]:
    [resp.status_code], [resp.reason], the [Retry-After] header ([None]
    when absent, [Some None] when [float(ra)] raises [ValueError], else
    the float it returns) and the result of [resp.json()]. *)
Record Response : Type := mkResponse {
  resp_status : Z;
  resp_reason : string;
  resp_retry_after : option (option pyfloat);
  resp_json : outcome json
}.

(** The environment of one call.
    - [prepare]: lines 489-505, reading the configuration widgets and
      building headers, auth, params and the timeout; any of it may raise.
    - [http a]: what the call of [self.http.request] on loop iteration
      [a] returns or raises, and [http_latency a] how long the call takes.
      The session carries a urllib3 [Retry] (lines 126-133) that re-sends
      a request by itself on 429, 500, 502, 503 and 504 for the methods
      urllib3 takes as idempotent (not for POST); [http a] is what comes
      back to the loop once that is over, so one [http a] may stand for
      several requests on the wire.
    - [sleep_accepts secs]: whether [time.sleep] takes an argument above
      4 000 000 seconds: it raises [OverflowError] beyond a limit that
      depends on the interpreter and the platform (about 4.3e6 s or
      9.2e9 s).
    - [stop_set t]: [self.stop_event.is_set()] read at time [t].
    - [iso_parse ts]: [datetime.fromisoformat(ts)]; for an accepted string,
      [dt_obj.date()] and [(datetime.now(dt_obj.tzinfo) - dt_obj).days].
    - [py_repr]: how an f-string renders a payload value that is not a
      string. *)
Record env : Type := mkEnv {
  prepare : outcome unit;
  http : nat -> outcome Response;
  http_latency : nat -> Q;
  stop_set : Q -> bool;
  sleep_accepts : Q -> bool;
  iso_parse : string -> option (pydate * Z);
  py_repr : json -> string
}.

Inductive event : Type :=
| StopCheck (at_time : Q) (is_set : bool)
| Request (attempt : nat) (at_time : Q)
| Sleep (at_time : Q) (secs : Q).

(** The dictionary being filled, the clock and the events so far (oldest
    first). *)
Record progress : Type := mkProgress {
  result : Result;
  clock : Q;
  trace : list event
}.

Inductive flow : Type :=
| Continue
| Break
| Raise (e : pyexc).

Definition base_result (key : string) : Result :=
  {| sku := key; order_date_obj := None; days_since := None;
     order_ref := JStr "N/A"; count := JInt 0; status_code := "N/A" |}.

Definition with_result (r : Result) (st : progress) : progress :=
  {| result := r; clock := clock st; trace := trace st |}.

Definition record (ev : event) (st : progress) : progress :=
  {| result := result st; clock := clock st; trace := trace st ++ [ev] |}.

Definition advance (d : Q) (st : progress) : progress :=
  {| result := result st; clock := (clock st + d)%Q; trace := trace st |}.

(** Up to this many seconds [time.sleep] takes its argument on every
    platform. *)
Definition SLEEP_SAFE : Q := 4000000.

(** Whether [time.sleep(secs)] sleeps: a negative argument raises
    [ValueError], one beyond the platform's limit [OverflowError]. *)
Definition sleepable (e : env) (secs : Q) : bool :=
  Qle_bool 0 secs && (Qle_bool secs SLEEP_SAFE || sleep_accepts e secs).

(** [time.sleep(secs)] followed by [continue]. *)
Definition sleep_continue (e : env) (secs : Q) (st : progress)
    : progress * flow :=
  if sleepable e secs
  then (advance secs (record (Sleep (clock st) secs) st), Continue)
  else (st, Raise OtherException).

(** The same for the float read from the header: [time.sleep] raises
    [ValueError] on [nan] and [-inf] and [OverflowError] on [inf]. *)
Definition sleep_float (e : env) (v : pyfloat) (st : progress)
    : progress * flow :=
  match v with
  | Finite secs => sleep_continue e secs st
  | NotFinite => (st, Raise OtherException)
  end.

(** [1.5 * (attempt + 1)]. *)
Definition linear_backoff (attempt : nat) : Q :=
  ((3 # 2) * inject_Z (Z.of_nat attempt + 1))%Q.

Definition py_str (e : env) (j : json) : string :=
  match j with
  | JStr s => s
  | _ => py_repr e j
  end.

(** The inner [try] of the 200 branch; [None] when its body raises. *)
Definition parse_order_date (e : env) (raw : json) : option (pydate * Z) :=
  match raw with
  | JStr s => iso_parse e (replace_Z s)
  | _ => None
  end.

Definition bind_json (o : outcome json) (r : Result)
    (k : json -> Result * option pyexc) : Result * option pyexc :=
  match o with
  | Returned v => k v
  | Raised x => (r, Some x)
  end.

(** The [if resp.status_code == 200:] branch.  The dictionary keeps what
    was stored in it before an exception leaves the branch. *)
Definition on_ok (e : env) (resp : Response) (r : Result)
    : Result * option pyexc :=
  bind_json (resp_json resp) r (fun data =>
  bind_json (dict_get data "results" (JArr [])) r (fun results =>
  bind_json (dict_get data "count" (JInt 0)) r (fun c =>
  let r1 := set_count c r in
  if truthy results then
    bind_json (index0 results) r1 (fun order =>
    bind_json (dict_get order "order_reference" (JStr "N/A")) r1 (fun oref =>
    let r2 := set_order_ref oref r1 in
    bind_json (dict_get order "order_date" (JStr "")) r2 (fun raw =>
    match parse_order_date e raw with
    | Some (d, days) => (set_order_date d days r2, None)
    | None =>
        (set_order_ref (JStr ("Invalid Date: " ++ py_str e raw)) r2, None)
    end)))
  else (set_order_ref (JStr "No Orders Found") r1, None)))).

(** The body of [for attempt in range(5):]. *)
Definition attempt_body (e : env) (attempt : nat) (st : progress)
    : progress * flow :=
  if stop_set e (clock st)
  then (record (StopCheck (clock st) true) st, Break)
  else
    let st0 :=
      advance (http_latency e attempt)
        (record (Request attempt (clock st))
           (record (StopCheck (clock st) false) st)) in
    match http e attempt with
    | Raised x => (st0, Raise x)
    | Returned resp =>
        let code := resp_status resp in
        let st1 := with_result (set_status_code (pretty code) (result st0)) st0 in
        if code =? 429 then
          match resp_retry_after resp with
          | Some (Some v) => sleep_float e v st1
          | _ => sleep_continue e (linear_backoff attempt) st1
          end
        else if (500 <=? code) && (code <? 600) then
          sleep_continue e (linear_backoff attempt) st1
        else if code =? 200 then
          match on_ok e resp (result st1) with
          | (r, None) => (with_result r st1, Break)
          | (r, Some x) => (with_result r st1, Raise x)
          end
        else
          (with_result
             (set_order_ref (JStr ("API Error: " ++ resp_reason resp))
                (result st1)) st1,
           Break)
    end.

Fixpoint attempts (e : env) (range : list nat) (st : progress)
    : progress * option pyexc :=
  match range with
  | [] => (st, None)
  | a :: rest =>
      match attempt_body e a st with
      | (st', Continue) => attempts e rest st'
      | (st', Break) => (st', None)
      | (st', Raise x) => (st', Some x)
      end
  end.

(** The outer [try] block, entered at time [t0]. *)
Definition fetch_try (e : env) (t0 : Q) (key : string)
    : progress * option pyexc :=
  let st := {| result := base_result key; clock := t0; trace := [] |} in
  match prepare e with
  | Raised x => (st, Some x)
  | Returned _ => attempts e (seq 0 5) st
  end.

(** The two handlers and [return base_result]. *)
Definition handle (st : progress) (raised : option pyexc) : outcome Result :=
  match raised with
  | None => Returned (result st)
  | Some RequestException =>
      Returned (set_status_code "N/A"
                  (set_order_ref (JStr "Request Exception") (result st)))
  | Some OtherException =>
      Returned (set_status_code "N/A"
                  (set_order_ref (JStr "General Exception") (result st)))
  end.

Definition _fetch_order_details (e : env) (t0 : Q) (key : string)
    : outcome Result :=
  let (st, raised) := fetch_try e t0 key in handle st raised.

(** Observations of one call. *)
Definition events (e : env) (t0 : Q) (key : string) : list event :=
  trace (fst (fetch_try e t0 key)).

Definition finished_at (e : env) (t0 : Q) (key : string) : Q :=
  clock (fst (fetch_try e t0 key)).

Fixpoint requests_made (tr : list event) : nat :=
  match tr with
  | [] => 0%nat
  | Request _ _ :: rest => S (requests_made rest)
  | _ :: rest => requests_made rest
  end.

Fixpoint delays (tr : list event) : list Q :=
  match tr with
  | [] => []
  | Sleep _ d :: rest => d :: delays rest
  | _ :: rest => delays rest
  end.

(** *** Vocabulary of the properties, and sample endpoints *)

(** [time.sleep] as an interpreter has it that counts the sleep in
    nanoseconds in a signed 64-bit integer: the product with 1e9, rounded
    to a float, has to stay below 2^63. *)
Definition ns_timer (secs : Q) : bool :=
  negb (Qle_bool (inject_Z (2 ^ 63 - 512)) (secs * 1000000000)).

(** The order reference written by the handler of each exception class. *)
Definition exception_label (x : pyexc) : string :=
  match x with
  | RequestException => "Request Exception"
  | OtherException => "General Exception"
  end.

(** The events of the loop from iteration [a] on, entered at time [t]:
    a stop check before every request and nowhere else; a back-off is one
    sleep, and the next check comes when it has run its full length. *)
Inductive rounds (lat : nat -> Q) : Q -> nat -> list event -> Prop :=
| rounds_none t a : rounds lat t a []
| rounds_stopped t a : rounds lat t a [StopCheck t true]
| rounds_final t a : rounds lat t a [StopCheck t false; Request a t]
| rounds_retry t a d tr :
    (0 <= d)%Q ->
    rounds lat (t + lat a + d)%Q (S a) tr ->
    rounds lat t a
      (StopCheck t false :: Request a t :: Sleep (t + lat a)%Q d :: tr).

(** The three ways one iteration can go, as seen in the trace: the stop
    flag was set; a request was made and the loop ends (break or raise); a
    request was made and the loop sleeps [d] and goes on. *)
Inductive body_case (e : env) (a : nat) (st st' : progress) (fl : flow)
    : Prop :=
| body_stopped :
    trace st' = trace st ++ [StopCheck (clock st) true] ->
    fl = Break -> body_case e a st st' fl
| body_final :
    trace st' = trace st ++ [StopCheck (clock st) false; Request a (clock st)] ->
    fl <> Continue -> body_case e a st st' fl
| body_retry d :
    (0 <= d)%Q ->
    trace st' = trace st ++ [StopCheck (clock st) false; Request a (clock st);
                             Sleep (clock st + http_latency e a)%Q d] ->
    clock st' = (clock st + http_latency e a + d)%Q ->
    fl = Continue -> body_case e a st st' fl.

(** An endpoint that answers 429 with [Retry-After: 60] once; the stop
    event is set one second into the run. *)
Definition slow_down_then_stop : env :=
  {| prepare := Returned tt;
     http := fun _ =>
       Returned {| resp_status := 429; resp_reason := "Too Many Requests";
                   resp_retry_after := Some (Some (Finite 60));
                   resp_json := Raised OtherException |};
     http_latency := fun _ => 0%Q;
     stop_set := fun t => Qle_bool 1 t;
     sleep_accepts := ns_timer;
     iso_parse := fun _ => None;
     py_repr := fun _ => ""%string |}.

(** The delay asked of [time.sleep] after a 429: the [Retry-After] value
    when the header is there and a finite number, else
    [1.5 * (attempt + 1)]. *)
Definition backoff (resp : Response) (attempt : nat) : Q :=
  match resp_retry_after resp with
  | Some (Some (Finite ra)) => ra
  | _ => linear_backoff attempt
  end.

(** The [Retry-After] value, when the header is there and [float] takes
    it. *)
Definition numeric_retry_after (resp : Response) : option pyfloat :=
  match resp_retry_after resp with
  | Some (Some v) => Some v
  | _ => None
  end.

(** The [Retry-After] header of the response, if [float] takes it, is a
    finite number that [time.sleep] accepts. *)
Definition honoured (e : env) (resp : Response) : Prop :=
  match resp_retry_after resp with
  | Some (Some (Finite ra)) => sleepable e ra = true
  | Some (Some NotFinite) => False
  | _ => True
  end.

(** Iteration [a] ends in a back-off and another iteration: the answer is
    a 429 whose delay [time.sleep] accepts, or a 5xx. *)
Definition retries (e : env) (a : nat) : Prop :=
  match http e a with
  | Returned resp =>
      (resp_status resp = 429 /\ honoured e resp) \/
      500 <= resp_status resp < 600
  | Raised _ => False
  end.

(** Nothing but the status code was written to the dictionary so far. *)
Definition untouched (key : string) (r : Result) : Prop :=
  set_status_code "N/A" r = base_result key.

(** Each delay is at most the next one. *)
Fixpoint nondecreasing (l : list Q) : Prop :=
  match l with
  | x :: rest =>
      match rest with
      | y :: _ => (x <= y)%Q /\ nondecreasing rest
      | [] => True
      end
  | [] => True
  end.

(** A payload on which the 200 branch does not raise: an object whose
    ["results"] entry is missing, an empty list, or a list that starts
    with an object. *)
Definition well_formed (j : json) : Prop :=
  match j with
  | JObj m =>
      match assoc "results" m with
      | None | Some (JArr []) | Some (JArr (JObj _ :: _)) => True
      | _ => False
      end
  | _ => False
  end.

(** A 429 response with the [Retry-After] header [ra]. *)
Definition too_many (ra : option (option pyfloat)) : Response :=
  {| resp_status := 429; resp_reason := "Too Many Requests";
     resp_retry_after := ra; resp_json := Raised OtherException |}.

(** A payload with one order, and the 200 response that carries it. *)
Definition one_order : json :=
  JObj [("count", JInt 1);
        ("results",
         JArr [JObj [("order_reference", JStr "PO-1");
                     ("order_date", JStr "2024-01-01T00:00:00Z")]])]%string.

Definition found : Response :=
  {| resp_status := 200; resp_reason := "OK"; resp_retry_after := None;
     resp_json := Returned one_order |}.

(** An endpoint that answers 429 three times, the first time with the
    [Retry-After] header [ra], and then 200 with one order. *)
Definition throttled (ra : option (option pyfloat)) : env :=
  {| prepare := Returned tt;
     http := fun a =>
       match a with
       | O => Returned (too_many ra)
       | S (S (S _)) => Returned found
       | _ => Returned (too_many None)
       end;
     http_latency := fun _ => 0%Q;
     stop_set := fun _ => false;
     sleep_accepts := ns_timer;
     iso_parse := fun _ => Some ((2024, 1, 1), 100);
     py_repr := fun _ => ""%string |}.

(** An endpoint whose 200 response has a body that [resp.json()] rejects
    with exception [x]. *)
Definition garbled (x : pyexc) : env :=
  {| prepare := Returned tt;
     http := fun _ =>
       Returned {| resp_status := 200; resp_reason := "OK";
                   resp_retry_after := None; resp_json := Raised x |};
     http_latency := fun _ => 0%Q;
     stop_set := fun _ => false;
     sleep_accepts := ns_timer;
     iso_parse := fun _ => None;
     py_repr := fun _ => ""%string |}.

(** The same after one 503. *)
Definition garbled_after_503 (x : pyexc) : env :=
  {| prepare := Returned tt;
     http := fun a =>
       match a with
       | O => Returned {| resp_status := 503;
                          resp_reason := "Service Unavailable";
                          resp_retry_after := None;
                          resp_json := Raised OtherException |}
       | S _ => Returned {| resp_status := 200; resp_reason := "OK";
                            resp_retry_after := None; resp_json := Raised x |}
       end;
     http_latency := fun _ => 0%Q;
     stop_set := fun _ => false;
     sleep_accepts := ns_timer;
     iso_parse := fun _ => None;
     py_repr := fun _ => ""%string |}.

(** *** The course of the retry loop *)

(** The delay slept after the response of iteration [a] when that
    response is retried. *)
Definition retry_delay (resp : Response) (a : nat) : Q :=
  if resp_status resp =? 429 then backoff resp a else linear_backoff a.

Definition pause_after (e : env) (a : nat) : Q :=
  match http e a with
  | Returned resp => retry_delay resp a
  | Raised _ => 0%Q
  end.

(** The time at which iteration [b + k] reads the stop flag when the loop
    enters iteration [b] at time [t] and the [k] iterations from [b] on
    are retried. *)
Fixpoint check_time (e : env) (t : Q) (b k : nat) : Q :=
  match k with
  | O => t
  | S k' => check_time e (t + http_latency e b + pause_after e b)%Q (S b) k'
  end.

(** A call entered at [t0] gets to the stop check of iteration [a]:
    set-up succeeds, and every earlier iteration finds the stop flag
    clear and is retried. *)
Definition reaches (e : env) (t0 : Q) (a : nat) : Prop :=
  prepare e = Returned tt /\ (a < 5)%nat /\
  forall a', (a' < a)%nat ->
    stop_set e (check_time e t0 0 a') = false /\ retries e a'.

(** The status code in the dictionary after the [k] iterations from [b]
    on were retried: that of the last response, or the initial one. *)
Definition status_after (e : env) (b k : nat) (s0 : string) : string :=
  match k with
  | O => s0
  | S k' =>
      match http e (b + k') with
      | Returned resp => pretty (resp_status resp)
      | Raised _ => s0
      end
  end.

Definition Qsum (l : list Q) : Q := fold_right Qplus 0%Q l.

(** A response without body or headers of interest. *)
Definition plain (code : Z) (reason : string) : Response :=
  {| resp_status := code; resp_reason := reason; resp_retry_after := None;
     resp_json := Raised OtherException |}.

(** An endpoint that answers iteration [a] with [f a], at once; the stop
    flag is set from time [stop_from] on. *)
Definition answering (f : nat -> outcome Response) (stop_from : option Q)
    : env :=
  {| prepare := Returned tt;
     http := f;
     http_latency := fun _ => 0%Q;
     stop_set := fun t =>
       match stop_from with
       | Some s => Qle_bool s t
       | None => false
       end;
     sleep_accepts := ns_timer;
     iso_parse := fun _ => Some ((2024, 1, 1), 100);
     py_repr := fun _ => ""%string |}.

(** An endpoint that answers 503 to the first request and [next] to the
    later ones. *)
Definition after_503 (next : outcome Response) (stop_from : option Q) : env :=
  answering (fun a => match a with
                      | O => Returned (plain 503 "Service Unavailable")
                      | S _ => next
                      end) stop_from.

Definition unavailable : outcome Response :=
  Returned (plain 503 "Service Unavailable").

(** A 200 response with an empty result list. *)
Definition nothing_found : Response :=
  {| resp_status := 200; resp_reason := "OK"; resp_retry_after := None;
     resp_json := Returned (JObj [("count", JInt 0); ("results", JArr [])]) |}.

End Lookup.

(** ** [SkuCheckerApp._producer_from_csv], run to completion *)

Module Producer.

(** The thread from its first line to its last, as it runs when every
    [task_queue.put] returns.  The queue holds at most 5000 items and a
    [put] on the full queue blocks until a worker takes one: that is in
    [Pipeline.producer_step], where the thread is interleaved with the
    workers and may stay in a [put] for ever. *)

(** A CSV row restricted to [usecols=['sku', 'stock_qty']]; [None] is a
    missing value. *)
Record Row : Type := mkRow {
  row_sku : option string;
  stock_qty : option Z
}.

(** What the chunk iterator yields: a chunk, or [None] when the read
    raises. *)
Definition source : Type := list (option (list Row)).

(** [chunk[chunk['stock_qty'].fillna(0) == 0]['sku'].dropna().astype(str)] *)
Fixpoint zero_stock (chunk : list Row) : list string :=
  match chunk with
  | [] => []
  | row :: rest =>
      if (match stock_qty row with Some q => q | None => 0 end) =? 0
      then match row_sku row with
           | Some k => k :: zero_stock rest
           | None => zero_stock rest
           end
      else zero_stock rest
  end.

(** The thread's view: the [seen] set, the items given to
    [task_queue.put] (oldest first), [self.total_enqueued], and the number
    of times [stop_event.is_set()] was read. *)
Record pstate : Type := mkP {
  seen : gset string;
  puts : list (option string);
  total_enqueued : nat;
  polls : nat
}.

Definition tick (st : pstate) : pstate :=
  {| seen := seen st; puts := puts st;
     total_enqueued := total_enqueued st; polls := S (polls st) |}.

(** [seen.add(sku); self.task_queue.put(sku); self.total_enqueued += 1],
    the [put] returning. *)
Definition enqueue (k : string) (st : pstate) : pstate :=
  {| seen := {[ k ]} ∪ seen st; puts := puts st ++ [Some k];
     total_enqueued := S (total_enqueued st); polls := polls st |}.

(** [for sku in zero:], with [stop n] the n-th reading of the stop flag. *)
Fixpoint skus_loop (stop : nat -> bool) (skus : list string) (st : pstate)
    : pstate :=
  match skus with
  | [] => st
  | k :: rest =>
      if stop (polls st) then tick st
      else
        let st1 := tick st in
        if decide (k ∈ seen st1)
        then skus_loop stop rest st1
        else skus_loop stop rest (enqueue k st1)
  end.

(** [for chunk in pd.read_csv(...):] inside the [try]. *)
Fixpoint chunks_loop (stop : nat -> bool) (src : source) (st : pstate)
    : pstate :=
  match src with
  | [] => st
  | None :: _ => st
  | Some chunk :: rest =>
      if stop (polls st) then tick st
      else chunks_loop stop rest (skus_loop stop (zero_stock chunk) (tick st))
  end.

Record report : Type := mkReport {
  queued : list (option string);
  enqueued : nat;
  to_process : nat
}.

(** The whole thread body: stream, then one sentinel per worker, then
    [self.total_to_process = self.total_enqueued]. *)
Definition _producer_from_csv (stop : nat -> bool) (max_workers : nat)
    (src : source) : report :=
  let st := chunks_loop stop src
              {| seen := ∅; puts := []; total_enqueued := 0; polls := 0 |} in
  {| queued := puts st ++ replicate max_workers None;
     enqueued := total_enqueued st;
     to_process := total_enqueued st |}.

(** The keys that pass the filter, in source order, up to a read error. *)
Fixpoint surviving (src : source) : list string :=
  match src with
  | Some chunk :: rest => zero_stock chunk ++ surviving rest
  | _ => []
  end.

(** One entry per distinct key, at the place of its first occurrence. *)
Fixpoint first_occurrences (l : list string) : list string :=
  match l with
  | [] => []
  | k :: rest => k :: filter (fun k' => k' ≠ k) (first_occurrences rest)
  end.

(** The first occurrences among [keys] of the keys not yet in [seen]. *)
Definition fresh (seen : gset string) (keys : list string) : list string :=
  filter (fun k => k ∉ seen) (first_occurrences keys).

(** *** A sample source *)

(** Two chunks; the keys with zero (or missing) stock are A, B, A and
    then C, B. *)
Definition duplicated_source : source :=
  [Some [mkRow (Some "A") (Some 0); mkRow (Some "X") (Some 7);
         mkRow (Some "B") None; mkRow None (Some 0);
         mkRow (Some "A") (Some 0)];
   Some [mkRow (Some "C") (Some 0); mkRow (Some "B") (Some 0)]]%string.

End Producer.

(** ** The durable store *)

(** The SQLAlchemy session as the aggregator uses it: rows added but not
    yet committed, the committed transactions (oldest first), and a
    schedule of faults: each [commit()] consumes one entry, [true] meaning
    that this commit raises. *)
Record Db : Type := mkDb {
  staged : list Result;
  committed : list (list Result);
  faults : list bool
}.

Definition db_add (row : Result) (d : Db) : Db :=
  {| staged := staged d ++ [row]; committed := committed d;
     faults := faults d |}.

(** [self.db.commit()]: the store after the call and whether it raised. *)
Definition db_commit (d : Db) : Db * bool :=
  match faults d with
  | true :: rest =>
      ({| staged := staged d; committed := committed d; faults := rest |},
       true)
  | _ =>
      ({| staged := []; committed := committed d ++ [staged d];
          faults := tl (faults d) |}, false)
  end.

Definition db_rollback (d : Db) : Db :=
  {| staged := []; committed := committed d; faults := faults d |}.

(** ** The shared application state ([self]) *)

Definition TASK_QUEUE_MAX : nat := 5000.
Definition RESULT_QUEUE_MAX : nat := 5000.
Definition DB_COMMIT_BATCH_SIZE : nat := 500.

(** The two [queue.Queue] objects; [unfinished_tasks] is the counter of
    [task_queue], raised by [put] and lowered by [task_done]. *)
Record Queues : Type := mkQueues {
  task_queue : list (option string);
  unfinished_tasks : nat;
  result_queue : list (option Result)
}.

Record Counters : Type := mkCounters {
  total_to_process : nat;
  total_enqueued : nat;
  total_processed : nat;
  total_ok : nat;
  total_err : nat
}.

Record Store : Type := mkStore {
  db : Db;
  _pending_db_count : nat
}.

(** [pause_event] and [stop_event] hold [true] when the event is set. *)
Record Signals : Type := mkSignals {
  is_processing : bool;
  pause_event : bool;
  stop_event : bool
}.

Record App : Type := mkApp {
  queues : Queues;
  counters : Counters;
  store : Store;
  signals : Signals;
  rate_limiter : option RateLimiter.t;
  max_workers : nat
}.

Definition with_queues (q : Queues) (a : App) : App :=
  {| queues := q; counters := counters a; store := store a;
     signals := signals a; rate_limiter := rate_limiter a;
     max_workers := max_workers a |}.

Definition with_counters (c : Counters) (a : App) : App :=
  {| queues := queues a; counters := c; store := store a;
     signals := signals a; rate_limiter := rate_limiter a;
     max_workers := max_workers a |}.

Definition with_store (s : Store) (a : App) : App :=
  {| queues := queues a; counters := counters a; store := s;
     signals := signals a; rate_limiter := rate_limiter a;
     max_workers := max_workers a |}.

Definition with_signals (g : Signals) (a : App) : App :=
  {| queues := queues a; counters := counters a; store := store a;
     signals := g; rate_limiter := rate_limiter a;
     max_workers := max_workers a |}.

Definition with_rate_limiter (rl : option RateLimiter.t) (a : App) : App :=
  {| queues := queues a; counters := counters a; store := store a;
     signals := signals a; rate_limiter := rl;
     max_workers := max_workers a |}.

(** [q.put(item)] on the task queue, once there is room. *)
Definition task_put (item : option string) (q : Queues) : Queues :=
  {| task_queue := task_queue q ++ [item];
     unfinished_tasks := S (unfinished_tasks q);
     result_queue := result_queue q |}.

Definition task_pop (rest : list (option string)) (q : Queues) : Queues :=
  {| task_queue := rest; unfinished_tasks := unfinished_tasks q;
     result_queue := result_queue q |}.

(** [task_queue.task_done()]; [None] when it raises [ValueError] because
    it was called more often than [put]. *)
Definition task_done (q : Queues) : option Queues :=
  match unfinished_tasks q with
  | O => None
  | S n =>
      Some {| task_queue := task_queue q; unfinished_tasks := n;
              result_queue := result_queue q |}
  end.

Definition with_result_queue (rq : list (option Result)) (q : Queues)
    : Queues :=
  {| task_queue := task_queue q; unfinished_tasks := unfinished_tasks q;
     result_queue := rq |}.

(** ** The aggregator: [_check_queue] and [_finalize_processing] *)

Module Aggregator.

(** The counter updates of one drained item. *)
Definition count_item (item : Result) (c : Counters) : Counters :=
  if String.eqb (status_code item) "200"
  then {| total_to_process := total_to_process c;
          total_enqueued := total_enqueued c;
          total_processed := S (total_processed c);
          total_ok := S (total_ok c);
          total_err := total_err c |}
  else {| total_to_process := total_to_process c;
          total_enqueued := total_enqueued c;
          total_processed := S (total_processed c);
          total_ok := total_ok c;
          total_err := S (total_err c) |}.

(** [self.db.add(db_result); self._pending_db_count += 1] and, further
    down the loop body, the batch commit. *)
Definition store_item (item : Result) (s : Store) : Store :=
  let d := db_add item (db s) in
  let pending := S (_pending_db_count s) in
  if (DB_COMMIT_BATCH_SIZE <=? pending)%nat
  then match db_commit d with
       | (d', false) => {| db := d'; _pending_db_count := 0 |}
       | (d', true) => {| db := db_rollback d'; _pending_db_count := pending |}
       end
  else {| db := d; _pending_db_count := pending |}.

(** The loop [while drained < 200 and not self.result_queue.empty()]. *)
Fixpoint drain (rq : list (option Result)) (drained : nat)
    (c : Counters) (s : Store)
    : list (option Result) * Counters * Store :=
  match rq with
  | [] => ([], c, s)
  | item :: rest =>
      if (drained <? 200)%nat
      then match item with
           | None => drain rest drained c s
           | Some r => drain rest (S drained) (count_item r c) (store_item r s)
           end
      else (rq, c, s)
  end.

Definition _finalize_processing (a : App) : App :=
  let s := store a in
  let s' :=
    match _pending_db_count s with
    | O => s
    | S _ =>
        match db_commit (db s) with
        | (d', false) => {| db := d'; _pending_db_count := 0 |}
        | (d', true) =>
            {| db := db_rollback d';
               _pending_db_count := _pending_db_count s |}
        end
    end in
  with_signals
    {| is_processing := false;
       pause_event := pause_event (signals a);
       stop_event := stop_event (signals a) |}
    (with_store s' a).

(** The condition guarding the call of [_finalize_processing]. *)
Definition finished (a : App) : bool :=
  (total_to_process (counters a) <=? total_processed (counters a))%nat
  && (0 <? total_to_process (counters a))%nat
  && (unfinished_tasks (queues a) =? 0)%nat
  && match result_queue (queues a) with [] => true | _ => false end.

(** One timer callback on the main thread. *)
Definition _check_queue (a : App) : App :=
  match drain (result_queue (queues a)) 0 (counters a) (store a) with
  | (rq, c, s) =>
      let a1 :=
        with_store s
          (with_counters c
             (with_queues (with_result_queue rq (queues a)) a)) in
      if is_processing (signals a1)
      then if finished a1 then _finalize_processing a1 else a1
      else a1
  end.

End Aggregator.

(** ** The threads of one run, as interleaved atomic steps *)

Module Pipeline.

(** Where a worker thread stands in [_worker_consume]. *)
Inductive wpc : Type :=
| WLoop                      (* testing [not self.stop_event.is_set()] *)
| WGet                       (* in [self.task_queue.get()] *)
| WSentinel                  (* got [None]: [task_done()] and [break] *)
| WPause (key : string)      (* in [self.pause_event.wait()] *)
| WAcquire (key : string)    (* in [self.rate_limiter.acquire()] *)
| WFetch (key : string)      (* in [self._fetch_order_details(sku)] *)
| WPut (res : Result)        (* in [self.result_queue.put(res)] *)
| WTaskDone                  (* at the closing [task_done()] *)
| WExit                      (* the loop was left *)
| WCrashed (e : pyexc).      (* an exception left the loop *)

(** Where the producer thread stands in [_producer_from_csv]. *)
Inductive ppc : Type :=
| PChunk (src : Producer.source) (seen : gset string)
| PSkus (skus : list string) (src : Producer.source) (seen : gset string)
| PPut (key : string) (skus : list string) (src : Producer.source)
       (seen : gset string)
| PCount (skus : list string) (src : Producer.source) (seen : gset string)
| PSentinels (remaining : nat)
| PFinish
| PDone.

(** History of queue traffic, kept for stating properties only: what the
    producer thread put on the task queue, what each worker took from it,
    and what each worker put on the result queue. *)
Inductive hevent : Type :=
| Enqueued (item : option string)
| Dequeued (worker : nat) (item : option string)
| Pushed (worker : nat) (res : Result).

Record System : Type := mkSystem {
  app : App;
  producer : ppc;
  workers : list wpc;
  history : list hevent
}.

(** What a worker reads from outside the program during one step: the
    monotonic clock, and the environment of the lookup.  The lookup reads
    the stop flag through [Lookup.stop_set (remote inp)], which is left
    free: the flag may be set by the main thread while the lookup runs. *)
Record winput : Type := mkInput {
  now : Q;
  remote : Lookup.env
}.

Inductive action : Type :=
| Produce
| Work (i : nat) (inp : winput)
| Poll
| Pause
| Resume
| Stop.

(** One atomic step of worker [i]; [None] when the thread is blocked or
    has ended. *)
Definition worker_step (i : nat) (inp : winput) (pc : wpc) (a : App)
    : option (wpc * App * list hevent) :=
  match pc with
  | WLoop =>
      Some (if stop_event (signals a) then WExit else WGet, a, [])
  | WGet =>
      match task_queue (queues a) with
      | [] => None
      | item :: rest =>
          Some (match item with None => WSentinel | Some k => WPause k end,
                with_queues (task_pop rest (queues a)) a,
                [Dequeued i item])
      end
  | WSentinel =>
      match task_done (queues a) with
      | Some q => Some (WExit, with_queues q a, [])
      | None => Some (WCrashed OtherException, a, [])
      end
  | WPause k =>
      if pause_event (signals a) then Some (WAcquire k, a, []) else None
  | WAcquire k =>
      match rate_limiter a with
      | None => Some (WFetch k, a, [])
      | Some rl =>
          match RateLimiter.acquire_locked rl (now inp) with
          | (rl', true) => Some (WFetch k, with_rate_limiter (Some rl') a, [])
          | (rl', false) =>
              Some (WAcquire k, with_rate_limiter (Some rl') a, [])
          end
      end
  | WFetch k =>
      match Lookup._fetch_order_details (remote inp) (now inp) k with
      | Returned res => Some (WPut res, a, [])
      | Raised e => Some (WCrashed e, a, [])
      end
  | WPut res =>
      if (length (result_queue (queues a)) <? RESULT_QUEUE_MAX)%nat
      then Some (WTaskDone,
                 with_queues
                   (with_result_queue
                      (result_queue (queues a) ++ [Some res]) (queues a)) a,
                 [Pushed i res])
      else None
  | WTaskDone =>
      match task_done (queues a) with
      | Some q => Some (WLoop, with_queues q a, [])
      | None => Some (WCrashed OtherException, a, [])
      end
  | WExit => None
  | WCrashed _ => None
  end.

Definition task_queue_full (a : App) : bool :=
  (TASK_QUEUE_MAX <=? length (task_queue (queues a)))%nat.

Definition bump_enqueued (c : Counters) : Counters :=
  {| total_to_process := total_to_process c;
     total_enqueued := S (total_enqueued c);
     total_processed := total_processed c;
     total_ok := total_ok c;
     total_err := total_err c |}.

Definition close_total (c : Counters) : Counters :=
  {| total_to_process := total_enqueued c;
     total_enqueued := total_enqueued c;
     total_processed := total_processed c;
     total_ok := total_ok c;
     total_err := total_err c |}.

(** One atomic step of the producer. *)
Definition producer_step (pc : ppc) (a : App)
    : option (ppc * App * list hevent) :=
  match pc with
  | PChunk src seen =>
      match src with
      | Some chunk :: rest =>
          if stop_event (signals a)
          then Some (PSentinels (max_workers a), a, [])
          else Some (PSkus (Producer.zero_stock chunk) rest seen, a, [])
      | _ => Some (PSentinels (max_workers a), a, [])
      end
  | PSkus skus src seen =>
      match skus with
      | [] => Some (PChunk src seen, a, [])
      | k :: rest =>
          if stop_event (signals a) then Some (PChunk src seen, a, [])
          else if decide (k ∈ seen) then Some (PSkus rest src seen, a, [])
          else Some (PPut k rest src ({[ k ]} ∪ seen), a, [])
      end
  | PPut k skus src seen =>
      if task_queue_full a then None
      else Some (PCount skus src seen,
                 with_queues (task_put (Some k) (queues a)) a,
                 [Enqueued (Some k)])
  | PCount skus src seen =>
      Some (PSkus skus src seen,
            with_counters (bump_enqueued (counters a)) a, [])
  | PSentinels remaining =>
      match remaining with
      | O => Some (PFinish, a, [])
      | S n =>
          if task_queue_full a then None
          else Some (PSentinels n,
                     with_queues (task_put None (queues a)) a,
                     [Enqueued None])
      end
  | PFinish => Some (PDone, with_counters (close_total (counters a)) a, [])
  | PDone => None
  end.

Definition set_pause (b : bool) (a : App) : App :=
  with_signals
    {| is_processing := is_processing (signals a);
       pause_event := b;
       stop_event := stop_event (signals a) |} a.

(** The loop of [_stop_processing]: [put_nowait(None)] until done or
    [queue.Full], which the handler swallows. *)
Fixpoint feed_sentinels (n : nat) (a : App) : App :=
  match n with
  | O => a
  | S m =>
      if task_queue_full a then a
      else feed_sentinels m (with_queues (task_put None (queues a)) a)
  end.

Definition _stop_processing (a : App) : App :=
  feed_sentinels (max_workers a)
    (with_signals
       {| is_processing := is_processing (signals a);
          pause_event := pause_event (signals a);
          stop_event := true |} a).

Definition step (act : action) (s : System) : option System :=
  match act with
  | Produce =>
      match producer_step (producer s) (app s) with
      | Some (pc, a, evs) =>
          Some {| app := a; producer := pc; workers := workers s;
                  history := history s ++ evs |}
      | None => None
      end
  | Work i inp =>
      match workers s !! i with
      | Some pc =>
          match worker_step i inp pc (app s) with
          | Some (pc', a, evs) =>
              Some {| app := a; producer := producer s;
                      workers := <[ i := pc' ]> (workers s);
                      history := history s ++ evs |}
          | None => None
          end
      | None => None
      end
  | Poll =>
      Some {| app := Aggregator._check_queue (app s);
              producer := producer s; workers := workers s;
              history := history s |}
  | Pause =>
      Some {| app := set_pause false (app s); producer := producer s;
              workers := workers s; history := history s |}
  | Resume =>
      Some {| app := set_pause true (app s); producer := producer s;
              workers := workers s; history := history s |}
  | Stop =>
      Some {| app := _stop_processing (app s); producer := producer s;
              workers := workers s; history := history s |}
  end.

(** A schedule; a step that is not enabled leaves the state as it is. *)
Fixpoint run (acts : list action) (s : System) : System :=
  match acts with
  | [] => s
  | act :: rest =>
      match step act s with
      | Some s' => run rest s'
      | None => run rest s
      end
  end.

(** The settings read by [_start_processing]. *)
Record Settings : Type := mkSettings {
  requests_per_minute : Z;
  rate_limit_enabled : bool;
  cfg_max_workers : Z
}.

(** The state built by [__init__]: empty queues, gate open. *)
Definition fresh (faults : list bool) : App :=
  {| queues := {| task_queue := []; unfinished_tasks := 0;
                  result_queue := [] |};
     counters := {| total_to_process := 0; total_enqueued := 0;
                    total_processed := 0; total_ok := 0; total_err := 0 |};
     store := {| db := {| staged := []; committed := [];
                          faults := faults |};
                 _pending_db_count := 0 |};
     signals := {| is_processing := false; pause_event := true;
                   stop_event := false |};
     rate_limiter := None;
     max_workers := 0 |}.

(** [_start_processing]: flags and counters reset, limiter and thread
    count taken from the settings, producer and workers started. *)
Definition _start_processing (cfg : Settings) (t0 : Q)
    (src : Producer.source) (a : App) : System :=
  let n := Z.to_nat (Z.max 1 (cfg_max_workers cfg)) in
  {| app :=
       {| queues := queues a;
          counters := {| total_to_process := 0; total_enqueued := 0;
                         total_processed := 0; total_ok := 0;
                         total_err := 0 |};
          store := {| db := db (store a); _pending_db_count := 0 |};
          signals := {| is_processing := true; pause_event := true;
                        stop_event := false |};
          rate_limiter :=
            if rate_limit_enabled cfg
            then Some (RateLimiter.init (requests_per_minute cfg) t0)
            else None;
          max_workers := n |};
     producer := PChunk src ∅;
     workers := replicate n WLoop;
     history := [] |}.

Definition boot (cfg : Settings) (t0 : Q) (src : Producer.source)
    (faults : list bool) : System :=
  _start_processing cfg t0 src (fresh faults).

(** *** Vocabulary of the properties, and sample runs *)

Local Open Scope nat_scope.

(** A worker holds a Task from the moment it dequeues it until it has
    pushed the Result. *)
Definition holding (pc : wpc) : nat :=
  match pc with
  | WPause _ | WAcquire _ | WFetch _ | WPut _ => 1
  | _ => 0
  end.

(** A worker owes a [task_done()] from its [get()] on. *)
Definition owing (pc : wpc) : nat :=
  match pc with
  | WSentinel | WPause _ | WAcquire _ | WFetch _ | WPut _ | WTaskDone => 1
  | _ => 0
  end.

(** The producer has put a Task and not yet counted it. *)
Definition lag (pc : ppc) : nat :=
  match pc with
  | PCount _ _ _ => 1
  | _ => 0
  end.

(** The sum of [f] over the workers. *)
Fixpoint total (f : wpc -> nat) (ws : list wpc) : nat :=
  match ws with
  | [] => 0
  | pc :: rest => f pc + total f rest
  end.

(** The number of entries of a queue that are not [None]. *)
Fixpoint somes {A : Type} (l : list (option A)) : nat :=
  match l with
  | [] => 0
  | Some _ :: rest => S (somes rest)
  | None :: rest => somes rest
  end.

(** The thread was ended by an exception. *)
Definition crashed (pc : wpc) : bool :=
  match pc with
  | WCrashed _ => true
  | _ => false
  end.

(** The accounting that every step of every thread keeps:
    - [conserved]: each Task the producer has put is in the task queue, in
      the hands of a worker, in the result queue, or counted as processed;
    - [accounted]: [unfinished_tasks] is the length of the task queue plus
      the number of workers that owe a [task_done()];
    - [closed]: [total_to_process] is zero until the producer ends, and
      [total_enqueued] from then on;
    - [balanced]: processed = ok + err;
    - [alive]: no worker thread was ended by an exception. *)
Record sound (s : System) : Prop := mkSound {
  conserved :
    total_enqueued (counters (app s)) + lag (producer s) =
    somes (task_queue (queues (app s))) + total holding (workers s)
    + somes (result_queue (queues (app s)))
    + total_processed (counters (app s));
  accounted :
    unfinished_tasks (queues (app s)) =
    length (task_queue (queues (app s))) + total owing (workers s);
  closed :
    match producer s with
    | PDone => total_to_process (counters (app s))
               = total_enqueued (counters (app s))
    | _ => total_to_process (counters (app s)) = 0
    end;
  balanced :
    total_processed (counters (app s)) =
    total_ok (counters (app s)) + total_err (counters (app s));
  alive : forall (i : nat) (pc : wpc),
    workers s !! i = Some pc -> crashed pc = false
}.

(** processed = ok + err. *)
Definition balance (c : Counters) : Prop :=
  total_processed c = total_ok c + total_err c.





(** Sample runs: one worker, one zero-stock key, a remote service that
    answers as [Lookup.throttled None], a clock standing at 0. *)
Definition calm : winput :=
  {| now := 0%Q; remote := Lookup.throttled None |}.

Definition solo : Settings :=
  {| requests_per_minute := 150; rate_limit_enabled := true;
     cfg_max_workers := 1 |}.

Definition one_key : Producer.source :=
  [Some [Producer.mkRow (Some "A"%string) (Some 0%Z)]].

Definition booted : System := boot solo 0 one_key [].

(** The producer has queued A; the worker has fetched it and pushed the
    Result. *)
Definition pushed_once : list action :=
  replicate 3 Produce ++ replicate 6 (Work 0 calm).



(** The run of [booted] to the end, with one timer callback while the
    worker still owes its [task_done()]. *)
Definition drained : list action :=
  replicate 9 Produce ++ replicate 6 (Work 0 calm) ++ [Poll]
  ++ replicate 4 (Work 0 calm).


(** The items the producer thread has put on the task queue, oldest
    first. *)
Fixpoint enqueued_items (h : list hevent) : list (option string) :=
  match h with
  | [] => []
  | Enqueued item :: rest => item :: enqueued_items rest
  | _ :: rest => enqueued_items rest
  end.

(** What the producer thread, standing at [pc], still has to put if the
    stop flag stays clear; [n] is the number of workers. *)
Definition to_come (n : nat) (pc : ppc) : list (option string) :=
  match pc with
  | PChunk src seen =>
      map Some (Producer.fresh seen (Producer.surviving src)) ++ replicate n None
  | PSkus skus src seen | PCount skus src seen =>
      map Some (Producer.fresh seen (skus ++ Producer.surviving src))
      ++ replicate n None
  | PPut k skus src seen =>
      Some k :: map Some (Producer.fresh seen (skus ++ Producer.surviving src))
      ++ replicate n None
  | PSentinels m => replicate m None
  | PFinish | PDone => []
  end.

(** No stop was requested, and what was put plus what is to come is
    [expected]. *)
Definition on_course (expected : list (option string)) (s : System) : Prop :=
  stop_event (signals (app s)) = false /\
  enqueued_items (history s) ++ to_come (max_workers (app s)) (producer s)
  = expected.

(** *** Vocabulary of the further properties *)

(** The items the workers have taken from the task queue, oldest
    first. *)
Fixpoint dequeued_items (h : list hevent) : list (option string) :=
  match h with
  | [] => []
  | Dequeued _ item :: rest => item :: dequeued_items rest
  | _ :: rest => dequeued_items rest
  end.

(** The Tasks among the items of a queue: sentinels dropped. *)
Fixpoint keys (l : list (option string)) : list string :=
  match l with
  | [] => []
  | Some k :: rest => k :: keys rest
  | None :: rest => keys rest
  end.

(** A worker blocked in, or about to call, [task_queue.get()]. *)
Definition waiting (pc : wpc) : nat :=
  match pc with
  | WGet => 1
  | _ => 0
  end.

(** A worker that has not taken a sentinel and has not ended. *)
Definition seeking (pc : wpc) : nat :=
  match pc with
  | WSentinel | WExit | WCrashed _ => 0
  | _ => 1
  end.

(** The number of sentinels in a queue. *)
Fixpoint nones {A : Type} (l : list (option A)) : nat :=
  match l with
  | [] => 0
  | None :: rest => S (nones rest)
  | Some _ :: rest => nones rest
  end.

(** The sentinels the producer thread has still to put. *)
Definition sentinels_to_come (n : nat) (pc : ppc) : nat :=
  match pc with
  | PSentinels m => m
  | PFinish | PDone => 0
  | _ => n
  end.

(** Sentinels outnumber the workers that can take them: before a stop
    request there is one sentinel, queued or to come, for every worker
    still looking for one; from a stop request on, the task queue and the
    sentinels to come hold more items than there are workers left to call
    [get()]. *)
Record surplus (s : System) : Prop := mkSurplus {
  staffed : max_workers (app s) = length (workers s);
  few : 0 < length (workers s) < TASK_QUEUE_MAX;
  spare :
    if stop_event (signals (app s))
    then total waiting (workers s)
         < length (task_queue (queues (app s)))
           + sentinels_to_come (max_workers (app s)) (producer s)
    else total seeking (workers s)
         <= nones (task_queue (queues (app s)))
            + sentinels_to_come (max_workers (app s)) (producer s)
}.

(** The rows of the store, committed or staged, oldest first. *)
Definition all_rows (d : Db) : list Result :=
  concat (committed d) ++ staged d.

(** The Results the workers have put on the result queue, oldest
    first. *)
Fixpoint pushed_items (h : list hevent) : list Result :=
  match h with
  | [] => []
  | Pushed _ res :: rest => res :: pushed_items rest
  | _ :: rest => pushed_items rest
  end.

(** The Results among the items of the result queue. *)
Fixpoint queued_results (l : list (option Result)) : list Result :=
  match l with
  | [] => []
  | Some r :: rest => r :: queued_results rest
  | None :: rest => queued_results rest
  end.

(** The store of a run whose commits never fail: the rows followed by
    the Results still queued are the Results pushed, every row is
    counted, and the pending counter is the number of staged rows and is
    below the batch size. *)
Record stored (s : System) : Prop := mkStored {
  reliable : faults (db (store (app s))) = [];
  kept : all_rows (db (store (app s)))
         ++ queued_results (result_queue (queues (app s)))
         = pushed_items (history s);
  counted : length (all_rows (db (store (app s))))
            = total_processed (counters (app s));
  pending : _pending_db_count (store (app s))
            = length (staged (db (store (app s))));
  batched : _pending_db_count (store (app s)) < DB_COMMIT_BATCH_SIZE
}.

(** The Tasks dequeued so far, followed by those still queued, are the
    Tasks enqueued so far. *)
Definition in_order (s : System) : Prop :=
  keys (dequeued_items (history s)) ++ keys (task_queue (queues (app s)))
  = keys (enqueued_items (history s)).

(** A run of [solo] over [one_key] stopped right at the start. *)
Definition stopped_early : System := run [Stop] booted.


(** The Results with status code ["200"], and the others, among the
    items of the result queue. *)
Fixpoint oks (l : list (option Result)) : nat :=
  match l with
  | [] => 0
  | Some r :: rest =>
      (if String.eqb (status_code r) "200" then 1 else 0) + oks rest
  | None :: rest => oks rest
  end.

Fixpoint errs (l : list (option Result)) : nat :=
  match l with
  | [] => 0
  | Some r :: rest =>
      (if String.eqb (status_code r) "200" then 0 else 1) + errs rest
  | None :: rest => errs rest
  end.

(** The rows and the queued Results are among the Results pushed, in
    push order, and no more rows than counted. *)
Definition traced (s : System) : Prop :=
  all_rows (db (store (app s))) ++ queued_results (result_queue (queues (app s)))
  `sublist_of` pushed_items (history s) /\
  length (all_rows (db (store (app s))))
  <= total_processed (counters (app s)).

(** *** What the producer thread has put *)

(** The key the producer has found new and is about to put. *)
Definition pending_put (pc : ppc) : list string :=
  match pc with
  | PPut k _ _ _ => [k]
  | _ => []
  end.

(** The producer is still in its loop over the chunks. *)
Definition streaming (pc : ppc) : bool :=
  match pc with
  | PChunk _ _ | PSkus _ _ _ | PPut _ _ _ _ | PCount _ _ _ => true
  | _ => false
  end.

(** What the producer thread has put so far, against the list [expected]
    of the keys an undisturbed run puts, for [n] workers: keys first, then
    sentinels, one per worker less those to come; the keys counted, but
    for the one put last; without a stop request the keys put and those
    to come are [expected], and after one the keys put, with the one
    about to be put, are an initial segment of it. *)
Record streamed (expected : list string) (n : nat) (s : System) : Prop :=
  mkStreamed {
  staffing : max_workers (app s) = n;
  shape : exists k : nat,
    enqueued_items (history s)
    = map Some (keys (enqueued_items (history s))) ++ replicate k None /\
    (streaming (producer s) = true -> k = 0) /\
    k + sentinels_to_come n (producer s) = n;
  tally : total_enqueued (counters (app s)) + lag (producer s)
          = length (keys (enqueued_items (history s)));
  course :
    if stop_event (signals (app s))
    then (keys (enqueued_items (history s)) ++ pending_put (producer s))
         `prefix_of` expected
    else keys (enqueued_items (history s))
         ++ keys (to_come n (producer s)) = expected
}.

(** *** A producer that waits for ever *)

(** The producer is inside a [task_queue.put]. *)
Definition in_put (pc : ppc) : bool :=
  match pc with
  | PPut _ _ _ _ | PSentinels (S _) => true
  | _ => false
  end.

(** The worker's thread has ended. *)
Definition gone (pc : wpc) : bool :=
  match pc with
  | WExit | WCrashed _ => true
  | _ => false
  end.

(** The producer waits in a [put] on the full task queue and no worker
    is left to take an item from it. *)
Definition blocked (s : System) : bool :=
  in_put (producer s) && task_queue_full (app s) && forallb gone (workers s).

(** A file of one chunk with [n] zero-stock rows, keys ["0"], ["1"], ... *)
Definition many_keys (n : nat) : Producer.source :=
  [Some (map (fun i => Producer.mkRow (Some (pretty i)) (Some 0%Z))
           (seq 0 n))].

(** The producer fills the task queue before the worker takes anything
    and goes into the next [put]; then the user stops the run and the
    worker, finding the flag set, leaves. *)
Definition fill_then_stop : list action :=
  replicate (1 + 3 * TASK_QUEUE_MAX + 1) Produce ++ [Stop; Work 0 calm].

End Pipeline.

(** ** What the window shows: the tree view and the key dropdown *)

Module Display.

Local Open Scope nat_scope.

Definition TREEVIEW_MAX_ROWS_DISPLAY : nat := 5000.

(** A [SkuResult] object as the tree view reads it; [processed_at] is
    [None] until the row has been flushed to the database. *)
Record SkuResult (datetime : Type) : Type := mkSkuResult {
  r_sku : string;
  last_order_date : option pydate;
  r_days_since : option Z;
  order_reference : json;
  result_count : json;
  response_code : string;
  processed_at : option datetime
}.

Arguments r_sku {datetime}.
Arguments last_order_date {datetime}.
Arguments r_days_since {datetime}.
Arguments order_reference {datetime}.
Arguments result_count {datetime}.
Arguments response_code {datetime}.
Arguments processed_at {datetime}.

(** One cell of the [values] tuple. *)
Inductive cell : Type :=
| CText (s : string)
| CInt (z : Z)
| CJson (j : json).

Section Treeview.

Context {datetime : Type}.

(** [strftime("%Y-%m-%d")] and [strftime("%Y-%m-%d %H:%M:%S")]. *)
Variable fmt_date : pydate -> string.
Variable fmt_datetime : datetime -> string.

Definition values (r : SkuResult datetime) : list cell :=
  [CText (r_sku r);
   CText (match last_order_date r with
          | Some d => fmt_date d
          | None => "N/A"
          end);
   match r_days_since r with
   | Some n => CInt n
   | None => CText "N/A"
   end;
   CJson (order_reference r);
   CJson (result_count r);
   CText (response_code r);
   CText (match processed_at r with
          | Some t => fmt_datetime t
          | None => "N/A"
          end)].

(** The children of the tree, top row first. *)
Definition _insert_result_into_treeview (r : SkuResult datetime)
    (tree : list (list cell)) : list (list cell) :=
  let tree1 :=
    if TREEVIEW_MAX_ROWS_DISPLAY <=? length tree then tl tree else tree in
  tree1 ++ [values r].

(** The loop of [_flush_treeview_batch]. *)
Fixpoint _flush_treeview_batch (batch : list (SkuResult datetime))
    (tree : list (list cell)) : list (list cell) :=
  match batch with
  | [] => tree
  | r :: rest =>
      _flush_treeview_batch rest (_insert_result_into_treeview r tree)
  end.

End Treeview.

(** [nrows=20000] *)
Definition SAMPLE_ROWS : nat := 20 * 1000.

(** [_load_csv]: the values given to the key dropdown, from the rows of
    the file ([None] when reading it raises). *)
Definition dropdown_values (file : option (list Producer.Row))
    : list string :=
  match file with
  | Some rows =>
      take 500
        (Producer.first_occurrences
           (Producer.zero_stock (take SAMPLE_ROWS rows)))
  | None => []
  end.

(** A row that has never been flushed. *)
Definition unflushed : SkuResult unit :=
  {| r_sku := "A"; last_order_date := None; r_days_since := None;
     order_reference := JStr "N/A"; result_count := JInt 0;
     response_code := "N/A"; processed_at := None |}.

End Display.

(** * Properties *)

(** ** Rate limiter *)

Module RateLimiterFacts.
Import RateLimiter.

Lemma init_capacity (per_minute : Z) (t0 : Q) :
  1 <= capacity (init per_minute t0).
Proof. unfold init; simpl; lia. Qed.

Lemma inject_Z_le_1 (z : Z) : 1 <= z -> (1 <= inject_Z z)%Q.
Proof. intros H. change 1%Q with (inject_Z 1). now rewrite <- Zle_Qle. Qed.

Lemma init_fill_rate (per_minute : Z) (t0 : Q) :
  (0 <= fill_rate (init per_minute t0))%Q.
Proof.
  unfold init; simpl.
  apply Qle_shift_div_l; [reflexivity|].
  rewrite Qmult_0_l.
  apply Qle_trans with 1%Q; [discriminate | apply inject_Z_le_1; lia].
Qed.

Lemma init_bounded (per_minute : Z) (t0 : Q) : bounded (init per_minute t0).
Proof.
  split; simpl; [|apply Qle_refl].
  apply Qle_trans with 1%Q; [discriminate | apply inject_Z_le_1; lia].
Qed.

Lemma refill_le_capacity (rl : t) (now : Q) :
  (refill rl now <= inject_Z (capacity rl))%Q.
Proof. apply Q.le_min_l. Qed.

Lemma refill_nonneg (rl : t) (now : Q) :
  1 <= capacity rl -> (0 <= fill_rate rl)%Q -> (0 <= tokens rl)%Q ->
  (timestamp rl <= now)%Q -> (0 <= refill rl now)%Q.
Proof.
  intros Hc Hf Ht Hn. unfold refill. apply Q.min_glb.
  - apply Qle_trans with 1%Q; [discriminate | now apply inject_Z_le_1].
  - assert (0 <= (now - timestamp rl) * fill_rate rl)%Q.
    { apply Qmult_le_0_compat; [|exact Hf].
      unfold Qminus. rewrite <- Qle_minus_iff. exact Hn. }
    rewrite <- (Qplus_0_r 0). now apply Qplus_le_compat.
Qed.

(** What one critical section keeps: capacity and fill rate are never
    written, the time stamp becomes the reading, the bounds hold. *)
Lemma acquire_locked_keeps (rl : t) (now : Q) :
  1 <= capacity rl -> (0 <= fill_rate rl)%Q -> bounded rl ->
  (timestamp rl <= now)%Q ->
  let rl' := fst (acquire_locked rl now) in
  capacity rl' = capacity rl /\ fill_rate rl' = fill_rate rl /\
  timestamp rl' = now /\ bounded rl'.
Proof.
  intros Hc Hf [Hlo Hhi] Hn. unfold acquire_locked.
  pose proof (refill_le_capacity rl now) as Hle.
  pose proof (refill_nonneg rl now Hc Hf Hlo Hn) as Hge.
  destruct (Qle_bool 1 (refill rl now)) eqn:E; simpl;
    repeat split; simpl; auto.
  - apply Qle_bool_iff in E. unfold Qminus. rewrite <- Qle_minus_iff. exact E.
  - apply Qle_trans with (refill rl now); [|exact Hle].
    rewrite <- (Qplus_0_r (refill rl now)) at 2.
    unfold Qminus. apply Qplus_le_compat; [apply Qle_refl | discriminate].
Qed.

Lemma sections_bounded (nows : list Q) : forall rl : t,
  1 <= capacity rl -> (0 <= fill_rate rl)%Q -> bounded rl ->
  monotonic_from (timestamp rl) nows ->
  Forall bounded (sections rl nows).
Proof.
  induction nows as [|now rest IH]; intros rl Hc Hf Hb Hm; simpl.
  - constructor.
  - destruct Hm as [Hn Hm].
    destruct (acquire_locked_keeps rl now Hc Hf Hb Hn) as (Ec & Ef & Et & Hb').
    constructor; [exact Hb'|].
    apply IH; rewrite ?Ec, ?Ef, ?Et; auto.
Qed.

(** A call of [acquire] that returns is a run of critical sections: one
    per clock reading it used, one more than it slept, ending in the state
    it returns. *)
Lemma acquire_sections (clock : list Q) :
  forall (rl rl' : t) (rest sleeps : list Q),
  acquire rl clock = Some (rl', rest, sleeps) ->
  exists used,
    clock = used ++ rest /\
    last (sections rl used) = Some rl' /\
    length used = S (length sleeps).
Proof.
  induction clock as [|now clock IH]; intros rl rl' rest sleeps H;
    simpl in H; [discriminate|].
  destruct (acquire_locked rl now) as [rl1 [|]] eqn:E.
  - injection H as <- <- <-. exists [now]. simpl. rewrite E. auto.
  - destruct (acquire rl1 clock) as [[[rl2 rest2] sl2]|] eqn:E2;
      [|discriminate].
    injection H as <- <- <-.
    destruct (IH _ _ _ _ E2) as (used & -> & Hl & Hn).
    exists (now :: used). simpl. rewrite E. simpl.
    split; [reflexivity|]. split; [|now rewrite Hn].
    destruct (sections rl1 used) as [|x l]; [discriminate | exact Hl].
Qed.

(** Read in exact arithmetic the bucket never leaves [0, capacity],
    whatever [per_minute] is: what [RateLimiter64] shows beyond that
    comes from rounding alone. *)
Lemma exact_reading_within_capacity (per_minute : Z) (t0 : Q)
    (nows : list Q) :
  monotonic_from t0 nows ->
  1 <= capacity (init per_minute t0) /\
  bounded (init per_minute t0) /\
  Forall bounded (sections (init per_minute t0) nows).
Proof.
  intros Hm. split; [apply init_capacity|]. split; [apply init_bounded|].
  apply sections_bounded; auto using init_capacity, init_fill_rate, init_bounded.
Qed.




End RateLimiterFacts.

(** ** Binary64 rounding *)

Module Binary64Facts.
Import Binary64.

(** Turn the outcome of a comparison into the order it decides. *)
Ltac compared :=
  repeat match goal with
  | H : (_ ?= _)%Q = Eq |- _ => apply Qeq_alt in H
  | H : (_ ?= _)%Q = Lt |- _ => apply Qlt_alt in H
  | H : (_ ?= _)%Q = Gt |- _ => apply Qgt_alt in H
  end.

Lemma Qfloor_frac (x : Q) :
  (0 <= x - inject_Z (Qfloor x) < 1)%Q.
Proof.
  pose proof (Qfloor_le x) as H1. pose proof (Qlt_floor x) as H2.
  rewrite inject_Z_plus in H2. change (inject_Z 1) with 1%Q in H2.
  set (f := inject_Z (Qfloor x)) in *. clearbody f. lra.
Qed.

Lemma rne_bounds (x : Q) :
  Qfloor x <= rne x <= Qfloor x + 1.
Proof.
  unfold rne. destruct (_ ?= _)%Q; [destruct (Z.even _)| |]; lia.
Qed.

Lemma rne_inject_Z (z : Z) : rne (inject_Z z) = z.
Proof.
  unfold rne. rewrite Qfloor_Z.
  assert (E : (inject_Z z - inject_Z z ?= 1 # 2)%Q = Lt).
  { rewrite <- Qlt_alt. lra. }
  now rewrite E.
Qed.

Lemma rne_comp (x y : Q) : (x == y)%Q -> rne x = rne y.
Proof.
  intros E. unfold rne. rewrite (Qfloor_comp _ _ E).
  assert (E' : (x - inject_Z (Qfloor y) == y - inject_Z (Qfloor y))%Q)
    by now rewrite E.
  now rewrite (Qcompare_comp _ _ E' (1 # 2) (1 # 2) (Qeq_refl _)).
Qed.

Lemma rne_monotone (x y : Q) : (x <= y)%Q -> rne x <= rne y.
Proof.
  intros H. pose proof (Qfloor_resp_le _ _ H) as Hf.
  destruct (Z.eq_dec (Qfloor x) (Qfloor y)) as [E|N].
  - unfold rne. rewrite E.
    destruct (x - inject_Z (Qfloor y) ?= 1 # 2)%Q eqn:Cx;
      destruct (y - inject_Z (Qfloor y) ?= 1 # 2)%Q eqn:Cy;
      try destruct (Z.even (Qfloor y)); try lia; exfalso;
      compared;
      set (f := inject_Z (Qfloor y)) in *; clearbody f; lra.
  - pose proof (rne_bounds x). pose proof (rne_bounds y). lia.
Qed.

Lemma rne_nonneg (x : Q) : (0 <= x)%Q -> 0 <= rne x.
Proof.
  intros H. rewrite <- (rne_inject_Z 0). now apply rne_monotone.
Qed.

(** *** Powers of two *)

Lemma pow2_pos (e : Z) : (0 < 2 ^ e)%Q.
Proof. now apply Qpower_0_lt. Qed.

Lemma pow2_lt (n m : Z) : n < m -> (2 ^ n < 2 ^ m)%Q.
Proof. intros H. now apply Qpower_lt_compat_l. Qed.

Lemma pow2_le (n m : Z) : n <= m -> (2 ^ n <= 2 ^ m)%Q.
Proof. intros H. now apply Qpower_le_compat_l. Qed.

Lemma pow2_lt_inv (n m : Z) : (2 ^ n < 2 ^ m)%Q -> n < m.
Proof. intros H. now apply (Qpower_lt_compat_l_inv 2). Qed.

Lemma pow2_add (n m : Z) : (2 ^ (n + m) == 2 ^ n * 2 ^ m)%Q.
Proof. now apply Qpower_plus. Qed.

Lemma pow2_Z (n : Z) : 0 <= n -> (inject_Z (2 ^ n) == 2 ^ n)%Q.
Proof. intros H. now rewrite Zpower_Qpower. Qed.

Lemma Qmult_lt_cancel (x y z : Q) : (0 < z -> x * z < y * z -> x < y)%Q.
Proof. intros Hz H. now apply (Qmult_lt_r x y z Hz). Qed.

Lemma Qmult_le_cancel (x y z : Q) : (0 < z -> x * z <= y * z -> x <= y)%Q.
Proof. intros Hz H. now apply (Qmult_le_r x y z Hz). Qed.

(** *** The integer logarithm *)

Lemma ilog2_spec (x : Q) :
  (0 < x)%Q -> (2 ^ ilog2 x <= x)%Q /\ (x < 2 ^ (ilog2 x + 1))%Q.
Proof.
  intros Hx. destruct x as [n d].
  assert (Hn : 0 < n).
  { unfold Qlt in Hx. simpl in Hx. lia. }
  unfold ilog2. cbn [Qnum Qden].
  set (a := Z.log2 n). set (b := Z.log2 (Z.pos d)). set (k := a - b).
  destruct (Z.log2_spec n Hn) as [Ha1 Ha2]. fold a in Ha1, Ha2.
  destruct (Z.log2_spec (Z.pos d) eq_refl) as [Hb1 Hb2]. fold b in Hb1, Hb2.
  pose proof (Z.log2_nonneg n) as Ha0. fold a in Ha0.
  pose proof (Z.log2_nonneg (Z.pos d)) as Hb0. fold b in Hb0.
  rewrite Zle_Qle, pow2_Z in Ha1, Hb1 by lia.
  rewrite Zlt_Qlt, pow2_Z in Ha2, Hb2 by lia.
  assert (Hx' : ((n # d) * inject_Z (Z.pos d) == inject_Z n)%Q).
  { rewrite (Qmake_Qdiv n d). field. discriminate. }
  assert (Hd : (0 < inject_Z (Z.pos d))%Q) by reflexivity.
  assert (Hup : (2 ^ (k + 1) * 2 ^ b == 2 ^ Z.succ a)%Q).
  { rewrite <- pow2_add. replace (k + 1 + b) with (Z.succ a) by lia.
    reflexivity. }
  assert (Hlo : (2 ^ (k - 1) * 2 ^ Z.succ b == 2 ^ a)%Q).
  { rewrite <- pow2_add. replace (k - 1 + Z.succ b) with a by lia.
    reflexivity. }
  destruct (Qle_bool (2 ^ k) (n # d)) eqn:E.
  - apply Qle_bool_iff in E. split; [exact E|].
    apply (Qmult_lt_cancel _ _ (inject_Z (Z.pos d)) Hd).
    rewrite Hx'. eapply Qlt_le_trans; [exact Ha2|]. rewrite <- Hup.
    apply Qmult_le_l; [apply pow2_pos | exact Hb1].
  - assert (E' : (n # d < 2 ^ k)%Q).
    { apply Qnot_le_lt. intros H. apply Qle_bool_iff in H. congruence. }
    replace (k - 1 + 1) with k by lia. split; [|exact E'].
    apply (Qmult_le_cancel _ _ (inject_Z (Z.pos d)) Hd).
    rewrite Hx'. eapply Qle_trans; [|exact Ha1]. rewrite <- Hlo.
    apply Qmult_le_l; [apply pow2_pos | apply Qlt_le_weak, Hb2].
Qed.

Lemma ilog2_unique (x : Q) (k : Z) :
  (2 ^ k <= x)%Q -> (x < 2 ^ (k + 1))%Q -> ilog2 x = k.
Proof.
  intros H1 H2.
  assert (Hx : (0 < x)%Q) by (eapply Qlt_le_trans; [apply pow2_pos | exact H1]).
  destruct (ilog2_spec x Hx) as [S1 S2].
  assert (ilog2 x < k + 1) by (apply pow2_lt_inv; lra).
  assert (k < ilog2 x + 1) by (apply pow2_lt_inv; lra).
  lia.
Qed.

Lemma ilog2_comp (x y : Q) : (0 < x)%Q -> (x == y)%Q -> ilog2 x = ilog2 y.
Proof.
  intros Hx E. destruct (ilog2_spec x Hx) as [S1 S2]. symmetry.
  apply ilog2_unique; now rewrite <- E.
Qed.

Lemma ilog2_monotone (x y : Q) :
  (0 < x)%Q -> (x <= y)%Q -> ilog2 x <= ilog2 y.
Proof.
  intros Hx H.
  destruct (ilog2_spec x Hx) as [S1 _].
  destruct (ilog2_spec y) as [_ S2]; [lra|].
  assert (ilog2 x < ilog2 y + 1) by (apply pow2_lt_inv; lra).
  lia.
Qed.

(** *** Rounding a positive number *)

Lemma ulp_exp_comp (x y : Q) :
  (0 < x)%Q -> (x == y)%Q -> ulp_exp x = ulp_exp y.
Proof. intros Hx E. unfold ulp_exp. now rewrite (ilog2_comp x y Hx E). Qed.

Lemma ulp_exp_monotone (x y : Q) :
  (0 < x)%Q -> (x <= y)%Q -> ulp_exp x <= ulp_exp y.
Proof.
  intros Hx H. unfold ulp_exp. pose proof (ilog2_monotone x y Hx H). lia.
Qed.

Lemma round_pos_comp (x y : Q) :
  (0 < x)%Q -> (x == y)%Q -> (round_pos x == round_pos y)%Q.
Proof.
  intros Hx E. unfold round_pos. rewrite (ulp_exp_comp x y Hx E).
  rewrite (rne_comp (x / 2 ^ ulp_exp y) (y / 2 ^ ulp_exp y)); [reflexivity|].
  now rewrite E.
Qed.

(** The scaled number has at most 53 bits before the point, and exactly
    53 outside the subnormal range. *)
Lemma scaled_le (x : Q) :
  (0 < x)%Q -> (x / 2 ^ ulp_exp x <= inject_Z (2 ^ 53))%Q.
Proof.
  intros Hx. destruct (ilog2_spec x Hx) as [_ S2].
  apply Qle_shift_div_r; [apply pow2_pos|].
  rewrite pow2_Z by lia. rewrite <- pow2_add.
  apply Qlt_le_weak. eapply Qlt_le_trans; [exact S2|].
  apply pow2_le. unfold ulp_exp. lia.
Qed.

Lemma scaled_ge (x : Q) :
  (0 < x)%Q -> -1074 < ulp_exp x ->
  (inject_Z (2 ^ 52) <= x / 2 ^ ulp_exp x)%Q.
Proof.
  intros Hx He. destruct (ilog2_spec x Hx) as [S1 _].
  apply Qle_shift_div_l; [apply pow2_pos|].
  rewrite pow2_Z by lia. rewrite <- pow2_add.
  eapply Qle_trans; [|exact S1].
  apply pow2_le. unfold ulp_exp in *. lia.
Qed.

Lemma scaled_pos (x : Q) : (0 < x)%Q -> (0 <= x / 2 ^ ulp_exp x)%Q.
Proof.
  intros Hx. apply Qle_shift_div_l; [apply pow2_pos|]. lra.
Qed.

Lemma round_pos_nonneg (x : Q) : (0 < x)%Q -> (0 <= round_pos x)%Q.
Proof.
  intros Hx. unfold round_pos. apply Qmult_le_0_compat.
  - change 0%Q with (inject_Z 0). rewrite <- Zle_Qle.
    apply rne_nonneg, scaled_pos, Hx.
  - apply Qlt_le_weak, pow2_pos.
Qed.

Lemma round_pos_le (x : Q) :
  (0 < x)%Q -> (round_pos x <= 2 ^ (ulp_exp x + 53))%Q.
Proof.
  intros Hx. unfold round_pos.
  rewrite (Z.add_comm (ulp_exp x) 53), pow2_add.
  apply Qmult_le_compat_r; [|apply Qlt_le_weak, pow2_pos].
  rewrite <- (pow2_Z 53) by lia. rewrite <- Zle_Qle.
  rewrite <- (rne_inject_Z (2 ^ 53)). apply rne_monotone, scaled_le, Hx.
Qed.

Lemma round_pos_ge (x : Q) :
  (0 < x)%Q -> -1074 < ulp_exp x ->
  (2 ^ (ulp_exp x + 52) <= round_pos x)%Q.
Proof.
  intros Hx He. unfold round_pos.
  rewrite (Z.add_comm (ulp_exp x) 52), pow2_add.
  apply Qmult_le_compat_r; [|apply Qlt_le_weak, pow2_pos].
  rewrite <- (pow2_Z 52) by lia. rewrite <- Zle_Qle.
  rewrite <- (rne_inject_Z (2 ^ 52)). now apply rne_monotone, scaled_ge.
Qed.

Lemma round_pos_monotone (x y : Q) :
  (0 < x)%Q -> (x <= y)%Q -> (round_pos x <= round_pos y)%Q.
Proof.
  intros Hx H. assert (Hy : (0 < y)%Q) by lra.
  pose proof (ulp_exp_monotone x y Hx H) as He.
  destruct (Z.eq_dec (ulp_exp x) (ulp_exp y)) as [E|N].
  - unfold round_pos. rewrite E.
    apply Qmult_le_compat_r; [|apply Qlt_le_weak, pow2_pos].
    rewrite <- Zle_Qle. apply rne_monotone.
    apply Qmult_le_compat_r; [exact H|].
    apply Qlt_le_weak, Qinv_lt_0_compat, pow2_pos.
  - eapply Qle_trans; [apply round_pos_le, Hx|].
    eapply Qle_trans; [|apply round_pos_ge; [exact Hy|]].
    + apply pow2_le. lia.
    + unfold ulp_exp in *. lia.
Qed.

(** A number with at most 53 significant bits and no bit below
    [2^-1074] is a float. *)
Lemma round_pos_exact (m e : Z) :
  0 < m < 2 ^ 53 -> -1074 <= e ->
  (round_pos (inject_Z m * 2 ^ e) == inject_Z m * 2 ^ e)%Q.
Proof.
  intros [Hm1 Hm2] He.
  set (v := (inject_Z m * 2 ^ e)%Q).
  assert (Hv : (0 < v)%Q).
  { apply Qmult_lt_0_compat; [|apply pow2_pos].
    change 0%Q with (inject_Z 0). now rewrite <- Zlt_Qlt. }
  assert (Hlt : (v < 2 ^ (e + 53))%Q).
  { unfold v. rewrite (Z.add_comm e 53), pow2_add.
    apply Qmult_lt_compat_r; [apply pow2_pos|].
    rewrite <- (pow2_Z 53) by lia. now rewrite <- Zlt_Qlt. }
  destruct (ilog2_spec v Hv) as [S1 _].
  assert (Hl : ilog2 v < e + 53) by (apply pow2_lt_inv; lra).
  unfold round_pos.
  assert (Hu : ulp_exp v <= e) by (unfold ulp_exp; lia).
  set (u := ulp_exp v) in *.
  assert (Hs : (v / 2 ^ u == inject_Z (m * 2 ^ (e - u)))%Q).
  { unfold v. rewrite inject_Z_mult, pow2_Z by lia.
    replace e with ((e - u) + u) at 1 by lia. rewrite pow2_add.
    field. apply Qnot_eq_sym, Qlt_not_eq, pow2_pos. }
  rewrite (rne_comp _ _ Hs), rne_inject_Z, <- Hs.
  field. apply Qnot_eq_sym, Qlt_not_eq, pow2_pos.
Qed.

Lemma round_pos_power (e : Z) :
  -1074 <= e -> (round_pos (2 ^ e) == 2 ^ e)%Q.
Proof.
  intros He.
  assert (E : (2 ^ e == inject_Z 1 * 2 ^ e)%Q)
    by (change (inject_Z 1) with 1%Q; ring).
  rewrite (round_pos_comp _ _ (pow2_pos e) E).
  rewrite (round_pos_exact 1 e) by lia. symmetry. exact E.
Qed.

Lemma round_pos_idempotent (x : Q) :
  (0 < x)%Q -> (0 < round_pos x)%Q ->
  (round_pos (round_pos x) == round_pos x)%Q.
Proof.
  intros Hx Hr.
  pose proof (scaled_le x Hx) as Hs. apply rne_monotone in Hs.
  rewrite rne_inject_Z in Hs.
  assert (He : -1074 <= ulp_exp x) by (unfold ulp_exp; lia).
  assert (Hm : 0 < rne (x / 2 ^ ulp_exp x)).
  { destruct (Z_lt_le_dec 0 (rne (x / 2 ^ ulp_exp x))) as [H|H]; [exact H|].
    exfalso. unfold round_pos in Hr.
    rewrite Zle_Qle in H. change (inject_Z 0) with 0%Q in H.
    pose proof (pow2_pos (ulp_exp x)) as Hp.
    set (p := (2 ^ ulp_exp x)%Q) in *.
    set (m := inject_Z (rne (x / p))) in *. clearbody m p. nra. }
  destruct (Z.eq_dec (rne (x / 2 ^ ulp_exp x)) (2 ^ 53)) as [E|N].
  - assert (E' : (round_pos x == 2 ^ (ulp_exp x + 53))%Q).
    { unfold round_pos. rewrite E, pow2_Z by lia.
      now rewrite (Z.add_comm (ulp_exp x) 53), pow2_add. }
    rewrite (round_pos_comp _ _ Hr E'), E'. apply round_pos_power. lia.
  - unfold round_pos at 2 3. apply round_pos_exact; lia.
Qed.

(** *** Rounding *)

Lemma round_zero (x : Q) : (x == 0)%Q -> round x = 0%Q.
Proof.
  intros E. unfold round. destruct (Qcompare_spec x 0); [reflexivity|lra|lra].
Qed.

Lemma round_positive (x : Q) : (0 < x)%Q -> round x = round_pos x.
Proof.
  intros H. unfold round. destruct (Qcompare_spec x 0); [lra|lra|reflexivity].
Qed.

Lemma round_negative (x : Q) :
  (x < 0)%Q -> round x = (- round_pos (- x))%Q.
Proof.
  intros H. unfold round. destruct (Qcompare_spec x 0); [lra|reflexivity|lra].
Qed.

Lemma Qsign_cases (x : Q) : (x < 0 \/ x == 0 \/ 0 < x)%Q.
Proof.
  destruct (Q_dec x 0) as [[H|H]|H]; auto.
Qed.

#[global] Instance round_comp : Proper (Qeq ==> Qeq) round.
Proof.
  intros x y E. destruct (Qsign_cases x) as [H|[H|H]].
  - rewrite (round_negative x H), (round_negative y) by now rewrite <- E.
    apply Qopp_comp, round_pos_comp; [lra | now rewrite E].
  - rewrite (round_zero x H), (round_zero y) by now rewrite <- E.
    reflexivity.
  - rewrite (round_positive x H), (round_positive y) by now rewrite <- E.
    now apply round_pos_comp.
Qed.

Lemma round_nonneg (x : Q) : (0 <= x)%Q -> (0 <= round x)%Q.
Proof.
  intros H. destruct (Qsign_cases x) as [H'|[H'|H']]; [lra| |].
  - rewrite (round_zero x H'). apply Qle_refl.
  - rewrite (round_positive x H'). now apply round_pos_nonneg.
Qed.

Lemma round_nonpos (x : Q) : (x <= 0)%Q -> (round x <= 0)%Q.
Proof.
  intros H. destruct (Qsign_cases x) as [H'|[H'|H']]; [| |lra].
  - rewrite (round_negative x H').
    assert (0 <= round_pos (- x))%Q by (apply round_pos_nonneg; lra). lra.
  - rewrite (round_zero x H'). apply Qle_refl.
Qed.

(** Rounding keeps the order. *)
Lemma round_monotone (x y : Q) : (x <= y)%Q -> (round x <= round y)%Q.
Proof.
  intros H. destruct (Qsign_cases x) as [Hx|[Hx|Hx]].
  - destruct (Qsign_cases y) as [Hy|[Hy|Hy]].
    + rewrite (round_negative x Hx), (round_negative y Hy).
      apply Qopp_le_compat, round_pos_monotone; lra.
    + eapply Qle_trans; [apply round_nonpos | apply round_nonneg]; lra.
    + eapply Qle_trans; [apply round_nonpos | apply round_nonneg]; lra.
  - rewrite (round_zero x Hx). apply round_nonneg. lra.
  - rewrite (round_positive x Hx), (round_positive y) by lra.
    now apply round_pos_monotone.
Qed.

(** A float rounds to itself. *)
Lemma round_idempotent (x : Q) : (round (round x) == round x)%Q.
Proof.
  destruct (Qsign_cases x) as [Hx|[Hx|Hx]].
  - rewrite (round_negative x Hx).
    assert (Hp : (0 < - x)%Q) by lra.
    pose proof (round_pos_nonneg _ Hp) as H0.
    destruct (Qsign_cases (round_pos (- x))) as [H|[H|H]]; [lra| |].
    + rewrite round_zero by (rewrite H; reflexivity). rewrite H. reflexivity.
    + rewrite round_negative by lra.
      apply Qopp_comp.
      rewrite (round_pos_comp (- - round_pos (- x)) (round_pos (- x)));
        [now apply round_pos_idempotent | lra | ring].
  - rewrite (round_zero x Hx). reflexivity.
  - rewrite (round_positive x Hx).
    pose proof (round_pos_nonneg _ Hx) as H0.
    destruct (Qsign_cases (round_pos x)) as [H|[H|H]]; [lra| |].
    + rewrite round_zero by exact H. now rewrite H.
    + rewrite round_positive by exact H. now apply round_pos_idempotent.
Qed.

(** The integers up to [2^53] are floats. *)
Lemma round_small_int (z : Z) :
  0 <= z <= 2 ^ 53 -> (round (inject_Z z) == inject_Z z)%Q.
Proof.
  intros [H0 H1].
  destruct (Z.eq_dec z 0) as [->|N0]; [reflexivity|].
  assert (Hz : (0 < inject_Z z)%Q).
  { change 0%Q with (inject_Z 0). rewrite <- Zlt_Qlt. lia. }
  rewrite (round_positive _ Hz).
  destruct (Z.eq_dec z (2 ^ 53)) as [->|N1].
  - assert (E : (inject_Z (2 ^ 53) == 2 ^ 53)%Q) by (apply pow2_Z; lia).
    rewrite (round_pos_comp _ _ Hz E), E. apply round_pos_power. lia.
  - assert (E : (inject_Z z == inject_Z z * 2 ^ 0)%Q)
      by (change (2 ^ 0)%Q with 1%Q; ring).
    rewrite (round_pos_comp _ _ Hz E).
    rewrite (round_pos_exact z 0) by lia. symmetry. exact E.
Qed.

End Binary64Facts.

(** ** Rate limiter, every float operation rounded *)

Module RateLimiter64Facts.
Import Binary64 Binary64Facts RateLimiter64.

Lemma round_one : (round 1 == 1)%Q.
Proof. apply (round_small_int 1). lia. Qed.

Lemma float_of_int_returns (n : Z) (c : Q) :
  float_of_int n = Returned c -> c = round (inject_Z n).
Proof.
  unfold float_of_int. destruct (Qle_bool _ _); [discriminate|].
  now intros [= <-].
Qed.

Lemma float_of_small_int (n : Z) :
  0 <= n <= 2 ^ 53 -> float_of_int n = Returned (round (inject_Z n)).
Proof.
  intros H. unfold float_of_int.
  destruct (Qle_bool _ _) eqn:E; [|reflexivity].
  exfalso. apply Qle_bool_iff in E.
  rewrite (round_small_int n H) in E.
  rewrite Qabs_pos in E
    by (change 0%Q with (inject_Z 0); rewrite <- Zle_Qle; lia).
  assert (H' : (inject_Z n <= 2 ^ 53)%Q).
  { rewrite <- (pow2_Z 53) by lia. rewrite <- Zle_Qle. lia. }
  pose proof (pow2_lt 53 1024 eq_refl). lra.
Qed.

Lemma init_sane (per_minute : Z) (now : Q) (rl : t) :
  init per_minute now = Returned rl ->
  capacity rl = Z.max per_minute 1 /\ timestamp rl = now /\
  tokens rl = round (inject_Z (capacity rl)) /\ sane rl.
Proof.
  unfold init.
  destruct (float_of_int (Z.max per_minute 1)) as [c|e] eqn:E;
    [|discriminate].
  intros [= <-]. cbn [capacity timestamp tokens].
  pose proof (float_of_int_returns _ _ E) as ->.
  assert (H1 : (1 <= round (inject_Z (Z.max per_minute 1)))%Q).
  { rewrite <- round_one. apply round_monotone.
    change 1%Q with (inject_Z 1). rewrite <- Zle_Qle. lia. }
  repeat split; cbn [capacity fill_rate tokens]; auto; try lia; try lra.
  apply round_nonneg. apply Qle_shift_div_l; [reflexivity|]. lra.
Qed.

Lemma refilled_nonneg (rl : t) (now : Q) :
  (0 <= fill_rate rl)%Q -> (0 <= tokens rl)%Q -> (timestamp rl <= now)%Q ->
  (0 <= refilled rl now)%Q.
Proof.
  intros Hf Ht Hn. unfold refilled.
  assert (He : (0 <= round (now - timestamp rl))%Q)
    by (apply round_nonneg; lra).
  assert (Hp : (0 <= round (round (now - timestamp rl) * fill_rate rl))%Q)
    by now apply round_nonneg, Qmult_le_0_compat.
  apply round_nonneg. lra.
Qed.

Lemma refilled_float (rl : t) (now : Q) :
  (round (refilled rl now) == refilled rl now)%Q.
Proof. apply round_idempotent. Qed.

(** What one critical section keeps: it does not raise, capacity and
    fill rate are never written, the time stamp becomes the reading, the
    bounds hold. *)
Lemma acquire_locked_sane (rl : t) (now : Q) :
  sane rl -> (timestamp rl <= now)%Q ->
  exists (rl' : t) (ok : bool),
    acquire_locked rl now = Returned (rl', ok) /\
    capacity rl' = capacity rl /\ timestamp rl' = now /\ sane rl'.
Proof.
  intros [Hc Hfl Hr [Hlo Hhi]] Hn. unfold acquire_locked.
  pose proof (refilled_nonneg rl now Hr Hlo Hn) as Hx0.
  pose proof (refilled_float rl now) as Hxf.
  set (x := refilled rl now) in *. clearbody x.
  set (c := round (inject_Z (capacity rl))) in *.
  assert (Hc1 : (1 <= c)%Q).
  { unfold c. rewrite <- round_one. apply round_monotone.
    change 1%Q with (inject_Z 1). now rewrite <- Zle_Qle. }
  destruct (Qle_bool (inject_Z (capacity rl)) x) eqn:E.
  - apply Z.leb_le in Hc. rewrite Hc, Hfl. apply Z.leb_le in Hc.
    eexists _, _. split; [reflexivity|].
    repeat split; cbn [store capacity fill_rate tokens timestamp]; auto.
    + apply round_nonneg. lra.
    + fold c. assert (E' : (round c == c)%Q) by apply round_idempotent.
      rewrite <- E' at 2. apply round_monotone. lra.
  - assert (Hlt : (x < inject_Z (capacity rl))%Q).
    { apply Qnot_le_lt. intros H. apply Qle_bool_iff in H. congruence. }
    assert (Hxc : (x <= c)%Q).
    { rewrite <- Hxf. apply round_monotone. lra. }
    destruct (Qle_bool 1 x) eqn:E1.
    + apply Qle_bool_iff in E1.
      eexists _, _. split; [reflexivity|].
      repeat split; cbn [store capacity fill_rate tokens timestamp]; auto.
      * apply round_nonneg. lra.
      * fold c. eapply Qle_trans; [|exact Hxc].
        rewrite <- Hxf at 2. apply round_monotone. lra.
    + eexists _, _. split; [reflexivity|].
      repeat split; cbn [store capacity fill_rate tokens timestamp]; auto.
Qed.

Lemma sections_sane (nows : list Q) : forall rl : t,
  sane rl -> RateLimiter.monotonic_from (timestamp rl) nows ->
  exists states : list t,
    sections rl nows = Returned states /\
    length states = length nows /\
    Forall (fun rl' => capacity rl' = capacity rl /\ sane rl') states.
Proof.
  induction nows as [|now rest IH]; intros rl Hs Hm; cbn [sections].
  - exists []. auto.
  - destruct Hm as [Hn Hm].
    destruct (acquire_locked_sane rl now Hs Hn) as (rl' & ok & E & Ec & Et & Hs').
    rewrite E. rewrite <- Et in Hm.
    destruct (IH rl' Hs' Hm) as (states & E2 & El & Hall).
    rewrite E2. exists (rl' :: states).
    split; [reflexivity|]. split; [simpl; now rewrite El|].
    constructor; [auto|].
    eapply Forall_impl; [exact Hall|]. cbv beta.
    intros r [H1 H2]. split; [congruence | exact H2].
Qed.

(** C9, as the code has it.  When the constructor returns, the capacity
    is the argument clamped to at least 1, and along any sequence of
    critical sections of [acquire], entered by any threads at readings
    of a clock that never runs backwards, no section raises and the
    bucket satisfies [0 <= tokens <= float(capacity)] initially and
    after every section.  That is [0 <= tokens <= capacity] when
    [float(capacity) == capacity], as it is for every capacity up to
    [2^53], for which the constructor returns. *)
Theorem tokens_within_capacity (per_minute : Z) (t0 : Q) :
  (forall rl : t, init per_minute t0 = Returned rl ->
     capacity rl = Z.max per_minute 1 /\ 1 <= capacity rl /\
     forall nows : list Q, RateLimiter.monotonic_from t0 nows ->
     exists states : list t,
       sections rl nows = Returned states /\
       length states = length nows /\
       Forall (within (round (inject_Z (capacity rl)))) (rl :: states) /\
       (exact (capacity rl) -> Forall bounded (rl :: states))) /\
  (Z.max per_minute 1 <= 2 ^ 53 ->
   exists rl : t, init per_minute t0 = Returned rl /\ exact (capacity rl)).
Proof.
  split.
  - intros rl E.
    destruct (init_sane _ _ _ E) as (Ec & Et & _ & Hs).
    split; [exact Ec|]. split; [apply Hs|].
    intros nows Hm. rewrite <- Et in Hm.
    destruct (sections_sane nows rl Hs Hm) as (states & E2 & El & Hall).
    exists states. split; [exact E2|]. split; [exact El|].
    assert (Hw : Forall (within (round (inject_Z (capacity rl))))
                   (rl :: states)).
    { constructor; [apply Hs|].
      eapply Forall_impl; [exact Hall|]. cbv beta.
      intros r [H1 H2]. rewrite <- H1. apply H2. }
    split; [exact Hw|].
    intros Hex.
    assert (Hcap : Forall (fun r => capacity r = capacity rl) (rl :: states)).
    { constructor; [reflexivity|].
      eapply Forall_impl; [exact Hall|]. cbv beta. tauto. }
    rewrite Forall_forall in *. intros r Hr.
    destruct (Hw r Hr) as [H1 H2]. unfold bounded, within.
    rewrite (Hcap r Hr). unfold exact in Hex. rewrite <- Hex. auto.
  - intros Hsmall.
    assert (Hr : 0 <= Z.max per_minute 1 <= 2 ^ 53) by lia.
    unfold init. rewrite (float_of_small_int _ Hr).
    eexists. split; [reflexivity|]. cbn [capacity].
    apply round_small_int, Hr.
Qed.

Lemma tokens_within_capacity_witness :
  exists (rl : t) (states : list t),
    init (-3) 0 = Returned rl /\
    sections rl [0%Q; 1 # 2; 30%Q] = Returned states /\
    Forall bounded (rl :: states).
Proof.
  assert (Hsmall : Z.max (-3) 1 <= 2 ^ 53) by (vm_compute; discriminate).
  assert (Hm : RateLimiter.monotonic_from 0 [0%Q; 1 # 2; 30%Q]).
  { simpl. repeat split; discriminate. }
  destruct (proj2 (tokens_within_capacity (-3) 0) Hsmall) as (rl & E & Hex).
  destruct (proj1 (tokens_within_capacity (-3) 0) rl E) as (_ & _ & H).
  destruct (H _ Hm) as (states & E2 & _ & _ & Hb).
  exists rl, states. auto.
Defined.

(** C9 as stated fails: [float(capacity)] is the float nearest to the
    capacity, and above [2^53] that may be a larger number.  For
    [per_minute = 2^53 + 3] the constructor leaves
    [tokens = 9007199254740996.0], one more than the capacity, and so
    does every call of [acquire] that finds the bucket full. *)
Lemma float_of_capacity_exceeds_capacity :
  exists (rl : t) (states : list t),
    init (2 ^ 53 + 3) 0 = Returned rl /\
    capacity rl = 9007199254740995 /\
    (tokens rl == 9007199254740996)%Q /\
    ~ bounded rl /\
    sections rl [0%Q; 1 # 50] = Returned states /\
    Forall (fun r => capacity r = 9007199254740995 /\
                     (tokens r == 9007199254740996)%Q) states.
Proof.
  eexists _, _. split; [vm_compute; reflexivity|].
  split; [reflexivity|]. split; [reflexivity|].
  split; [intros [_ H]; vm_compute in H; apply H; reflexivity|].
  split; [vm_compute; reflexivity|].
  repeat constructor.
Qed.

End RateLimiter64Facts.

(** ** The remote lookup *)

Module LookupFacts.
Import Lookup.

(** *** The lookup returns a record for its key *)

Lemma on_ok_sku (e : env) (resp : Response) (r : Result) :
  sku (fst (on_ok e resp r)) = sku r.
Proof.
  unfold on_ok, bind_json.
  repeat (match goal with
          | |- context [match ?x with _ => _ end] => destruct x
          end; simpl; try reflexivity).
Qed.

Lemma sleep_continue_result (e : env) (secs : Q) (st : progress) :
  result (fst (sleep_continue e secs st)) = result st.
Proof. unfold sleep_continue. destruct (sleepable e secs); reflexivity. Qed.

Lemma sleep_float_result (e : env) (v : pyfloat) (st : progress) :
  result (fst (sleep_float e v st)) = result st.
Proof. destruct v; [apply sleep_continue_result | reflexivity]. Qed.

Lemma attempt_body_sku (e : env) (a : nat) (st : progress) :
  sku (result (fst (attempt_body e a st))) = sku (result st).
Proof.
  unfold attempt_body.
  destruct (stop_set e (clock st)); [reflexivity|].
  destruct (http e a) as [resp|x]; [|reflexivity].
  destruct (resp_status resp =? 429).
  { destruct (resp_retry_after resp) as [[v|]|];
      rewrite ?sleep_float_result, ?sleep_continue_result; reflexivity. }
  destruct ((500 <=? resp_status resp) && (resp_status resp <? 600)).
  { rewrite sleep_continue_result; reflexivity. }
  destruct (resp_status resp =? 200); [|reflexivity].
  match goal with |- context [on_ok e resp ?r] =>
    pose proof (on_ok_sku e resp r) as H; destruct (on_ok e resp r) as [r' [x|]]
  end; simpl in *; exact H.
Qed.

Lemma attempts_sku (e : env) (range : list nat) : forall st : progress,
  sku (result (fst (attempts e range st))) = sku (result st).
Proof.
  induction range as [|a rest IH]; intros st; simpl; [reflexivity|].
  pose proof (attempt_body_sku e a st) as H.
  destruct (attempt_body e a st) as [st' [| |x]]; simpl in *; auto.
  rewrite IH. exact H.
Qed.

Lemma fetch_try_sku (e : env) (t0 : Q) (key : string) :
  sku (result (fst (fetch_try e t0 key))) = key.
Proof.
  unfold fetch_try. destruct (prepare e); [|reflexivity].
  rewrite attempts_sku. reflexivity.
Qed.

Lemma fetch_returns (e : env) (t0 : Q) (key : string) :
  exists r : Result,
    _fetch_order_details e t0 key = Returned r /\ sku r = key.
Proof.
  unfold _fetch_order_details.
  pose proof (fetch_try_sku e t0 key) as H.
  destruct (fetch_try e t0 key) as [st [[|]|]]; simpl in *;
    eexists; split; try reflexivity; exact H.
Qed.

(** An exception in the [try] block, whatever raised it, ends in a record
    whose status code is ["N/A"]. *)
Lemma handle_raised (st : progress) (x : pyexc) :
  handle st (Some x) =
  Returned (set_status_code "N/A"
              (set_order_ref (JStr (exception_label x)) (result st))).
Proof. destruct x; reflexivity. Qed.

(** *** Shape of the event trace *)

Lemma sleep_continue_case (e : env) (a : nat) (st st1 : progress) (d : Q) :
  trace st1 = trace st ++ [StopCheck (clock st) false; Request a (clock st)] ->
  clock st1 = (clock st + http_latency e a)%Q ->
  body_case e a st (fst (sleep_continue e d st1))
    (snd (sleep_continue e d st1)).
Proof.
  intros Htr Hck. unfold sleep_continue, sleepable.
  destruct (Qle_bool 0 d) eqn:E; simpl.
  - destruct (Qle_bool d SLEEP_SAFE || sleep_accepts e d); simpl.
    + apply body_retry with d; simpl.
      * now apply Qle_bool_iff.
      * rewrite Htr, Hck, <- app_assoc. reflexivity.
      * rewrite Hck. reflexivity.
      * reflexivity.
    + apply body_final; [exact Htr | discriminate].
  - apply body_final; [exact Htr | discriminate].
Qed.

Lemma sleep_float_case (e : env) (a : nat) (st st1 : progress) (v : pyfloat) :
  trace st1 = trace st ++ [StopCheck (clock st) false; Request a (clock st)] ->
  clock st1 = (clock st + http_latency e a)%Q ->
  body_case e a st (fst (sleep_float e v st1)) (snd (sleep_float e v st1)).
Proof.
  intros Htr Hck. destruct v as [d|]; simpl.
  - now apply sleep_continue_case.
  - apply body_final; [exact Htr | discriminate].
Qed.

Lemma attempt_body_case (e : env) (a : nat) (st : progress) :
  body_case e a st (fst (attempt_body e a st)) (snd (attempt_body e a st)).
Proof.
  unfold attempt_body.
  destruct (stop_set e (clock st)); simpl.
  { now apply body_stopped. }
  set (st0 := advance _ _).
  assert (Htr : trace st0 =
                trace st ++ [StopCheck (clock st) false; Request a (clock st)]).
  { unfold st0; simpl. rewrite <- app_assoc. reflexivity. }
  assert (Hck : clock st0 = (clock st + http_latency e a)%Q) by reflexivity.
  destruct (http e a) as [resp|x]; simpl.
  { destruct (resp_status resp =? 429).
    { destruct (resp_retry_after resp) as [[v|]|];
        [now apply sleep_float_case | now apply sleep_continue_case
        | now apply sleep_continue_case]. }
    destruct ((500 <=? resp_status resp) && (resp_status resp <? 600)).
    { now apply sleep_continue_case. }
    destruct (resp_status resp =? 200).
    - destruct (on_ok e resp _) as [r [x|]]; simpl;
        (apply body_final; [exact Htr | discriminate]).
    - apply body_final; [exact Htr | discriminate]. }
  apply body_final; [exact Htr | discriminate].
Qed.

Lemma attempts_rounds (e : env) (n : nat) : forall (a : nat) (st : progress),
  exists tr,
    trace (fst (attempts e (seq a n) st)) = trace st ++ tr /\
    rounds (http_latency e) (clock st) a tr.
Proof.
  induction n as [|n IH]; intros a st; simpl.
  - exists []. rewrite app_nil_r. split; [reflexivity | constructor].
  - pose proof (attempt_body_case e a st) as H.
    destruct (attempt_body e a st) as [st' fl]; simpl in H.
    destruct H as [Htr Hfl | Htr Hfl | d Hd Htr Hck Hfl]; subst.
    + exists [StopCheck (clock st) true]. split; [exact Htr | constructor].
    + exists [StopCheck (clock st) false; Request a (clock st)].
      split; [|constructor].
      destruct fl; simpl; try exact Htr. congruence.
    + destruct (IH (S a) st') as (tr & E & R).
      eexists. split.
      * rewrite E, Htr, <- app_assoc. reflexivity.
      * simpl. apply rounds_retry; [exact Hd|]. rewrite <- Hck. exact R.
Qed.

(** C8, as the code has it.  In the retry loop of one task the stop flag
    is read before each request and nowhere else: a back-off is a single
    [time.sleep] of the whole delay, and the next reading of the flag
    happens when that sleep has run its full length. *)
Theorem stop_flag_read_only_before_requests (e : env) (t0 : Q) (key : string) :
  rounds (http_latency e) t0 0 (events e t0 key).
Proof.
  unfold events, fetch_try.
  destruct (prepare e); simpl; [|constructor].
  destruct (attempts_rounds e 5 0
              {| result := base_result key; clock := t0; trace := [] |})
    as (tr & E & R).
  simpl in E. simpl. rewrite E. exact R.
Qed.

(** C8 as stated fails: a stop requested during the back-off is seen only
    when the 60 s sleep is over; no reading of the flag falls inside it. *)
Lemma stop_during_backoff_waits_full_sleep :
  stop_set slow_down_then_stop 1 = true /\
  events slow_down_then_stop 0 "SKU-1" =
    [StopCheck 0 false; Request 0 0; Sleep (0 + 0) 60;
     StopCheck (0 + 0 + 60) true] /\
  (finished_at slow_down_then_stop 0 "SKU-1" == 60)%Q.
Proof. repeat split; vm_compute; reflexivity. Qed.

(** *** Retrying on 429 *)

Lemma requests_made_app (tr1 tr2 : list event) :
  requests_made (tr1 ++ tr2) = (requests_made tr1 + requests_made tr2)%nat.
Proof.
  induction tr1 as [|[ | | ] tr1 IH]; simpl; auto.
Qed.

Lemma delays_app (tr1 tr2 : list event) :
  delays (tr1 ++ tr2) = delays tr1 ++ delays tr2.
Proof.
  induction tr1 as [|[ | | ] tr1 IH]; simpl; auto. now rewrite IH.
Qed.

Lemma attempts_budget (e : env) (range : list nat) : forall st : progress,
  (requests_made (trace (fst (attempts e range st)))
   <= requests_made (trace st) + length range)%nat.
Proof.
  induction range as [|a rest IH]; intros st; simpl; [lia|].
  pose proof (attempt_body_case e a st) as H.
  destruct (attempt_body e a st) as [st' fl]; simpl in H.
  assert (Hone : (requests_made (trace st') <= S (requests_made (trace st)))%nat).
  { destruct H as [Htr _ | Htr _ | d _ Htr _ _];
      rewrite Htr, requests_made_app; simpl; lia. }
  destruct fl; simpl; try lia.
  specialize (IH st'). lia.
Qed.

Lemma on_ok_well_formed (e : env) (resp : Response) (r : Result) (j : json) :
  resp_json resp = Returned j -> well_formed j ->
  snd (on_ok e resp r) = None /\
  status_code (fst (on_ok e resp r)) = status_code r.
Proof.
  intros Hj Hwf. unfold on_ok. rewrite Hj. simpl.
  destruct j as [| | | | | |m]; try contradiction. simpl in *.
  destruct (assoc "results" m) as [[| | | | |[|[| | | | | |o] l]|]|];
    try contradiction; simpl; auto.
  destruct (parse_order_date e _) as [[d days]|]; simpl; auto.
Qed.

Lemma linear_backoff_nonneg (a : nat) : (0 <= linear_backoff a)%Q.
Proof.
  unfold linear_backoff. apply Qmult_le_0_compat; [discriminate|].
  change 0%Q with (inject_Z 0). rewrite <- Zle_Qle. lia.
Qed.

(** The back-offs of the five iterations are within what [time.sleep]
    takes everywhere. *)
Lemma linear_sleepable (e : env) (a : nat) :
  (a < 5)%nat -> sleepable e (linear_backoff a) = true.
Proof.
  intros Ha. do 5 (destruct a as [|a]; [reflexivity|]). lia.
Qed.

Lemma sleep_linear (e : env) (a : nat) (st : progress) :
  (a < 5)%nat ->
  sleep_continue e (linear_backoff a) st =
  (advance (linear_backoff a)
     (record (Sleep (clock st) (linear_backoff a)) st), Continue).
Proof.
  intros Ha. unfold sleep_continue. now rewrite linear_sleepable.
Qed.

(** What the 429 branch does with a header that is honoured. *)
Lemma sleep_honoured (e : env) (a : nat) (resp : Response) (st : progress) :
  (a < 5)%nat -> honoured e resp ->
  match resp_retry_after resp with
  | Some (Some v) => sleep_float e v st
  | _ => sleep_continue e (linear_backoff a) st
  end =
  (advance (backoff resp a)
     (record (Sleep (clock st) (backoff resp a)) st), Continue).
Proof.
  intros Ha Hh. unfold honoured in Hh. unfold backoff.
  destruct (resp_retry_after resp) as [[[ra|]|]|];
    [|contradiction| |]; try (now apply sleep_linear).
  cbn [sleep_float]. unfold sleep_continue. now rewrite Hh.
Qed.

Lemma attempt_retry (e : env) (a : nat) (st : progress) (resp : Response) :
  (a < 5)%nat -> stop_set e (clock st) = false ->
  http e a = Returned resp -> resp_status resp = 429 ->
  honoured e resp ->
  exists st',
    attempt_body e a st = (st', Continue) /\
    trace st' = trace st ++ [StopCheck (clock st) false; Request a (clock st);
                             Sleep (clock st + http_latency e a)%Q
                                   (backoff resp a)].
Proof.
  intros Ha Hs Hh Hc Hd. unfold attempt_body. rewrite Hs, Hh, Hc.
  cbn [Z.eqb Pos.eqb]. rewrite (sleep_honoured e a resp _ Ha Hd).
  eexists. split; [reflexivity|]. simpl. rewrite <- !app_assoc. reflexivity.
Qed.

Lemma attempt_ok (e : env) (a : nat) (st : progress) (resp : Response)
    (j : json) :
  stop_set e (clock st) = false ->
  http e a = Returned resp -> resp_status resp = 200 ->
  resp_json resp = Returned j -> well_formed j ->
  exists st',
    attempt_body e a st = (st', Break) /\
    trace st' = trace st ++ [StopCheck (clock st) false; Request a (clock st)] /\
    status_code (result st') = "200"%string.
Proof.
  intros Hs Hh Hc Hj Hwf. unfold attempt_body. rewrite Hs, Hh, Hc. simpl.
  match goal with |- context [on_ok e resp ?r] =>
    destruct (on_ok_well_formed e resp r j Hj Hwf) as [E1 E2];
    destruct (on_ok e resp r) as [r' x]
  end.
  simpl in *. subst x. eexists. split; [reflexivity|]. simpl.
  split; [rewrite <- app_assoc; reflexivity | exact E2].
Qed.

Lemma linear_backoff_steps :
  nondecreasing [linear_backoff 0; linear_backoff 1; linear_backoff 2].
Proof. simpl. split; [|split]; [discriminate | discriminate | exact I]. Qed.

(** C4, as the code has it.  No call makes more than 5 requests.  The
    responses are those the session hands to the loop, after the retries
    the mounted urllib3 [Retry] makes by itself (for an idempotent method
    the loop never sees a 429; it does for POST).  When the loop is handed
    429 three times and then 200 with a payload the 200 branch accepts,
    the stop flag staying clear and every [Retry-After] that [float]
    takes being a finite number that [time.sleep] accepts, the loop makes
    exactly 4 requests and ends in one record with status ["200"]; the
    three delays are, each, the [Retry-After] value when the response
    carries a numeric one and otherwise [1.5 * (attempt + 1)]; with no
    numeric [Retry-After] they are 1.5, 3.0, 4.5 and hence
    non-decreasing.  A 429 whose [Retry-After] [time.sleep] rejects
    (negative, too large, or not finite) ends the task at once: no sleep,
    no further request, and the record of the handler, ["General
    Exception"] with status ["N/A"]. *)
Theorem three_429_then_200 (e : env) (t0 : Q) (key : string) :
  (requests_made (events e t0 key) <= 5)%nat /\
  (forall (r0 r1 r2 r3 : Response) (payload : json),
    prepare e = Returned tt ->
    (forall t, stop_set e t = false) ->
    map (http e) [0; 1; 2; 3]%nat = map Returned [r0; r1; r2; r3] ->
    map resp_status [r0; r1; r2; r3] = [429; 429; 429; 200] ->
    resp_json r3 = Returned payload -> well_formed payload ->
    Forall (honoured e) [r0; r1; r2] ->
    requests_made (events e t0 key) = 4%nat /\
    delays (events e t0 key) = [backoff r0 0; backoff r1 1; backoff r2 2] /\
    (exists r, _fetch_order_details e t0 key = Returned r /\
               sku r = key /\ status_code r = "200"%string) /\
    (map numeric_retry_after [r0; r1; r2] = [None; None; None] ->
     nondecreasing (delays (events e t0 key)))) /\
  (forall r0 : Response,
    prepare e = Returned tt -> stop_set e t0 = false ->
    http e 0%nat = Returned r0 -> resp_status r0 = 429 ->
    ~ honoured e r0 ->
    _fetch_order_details e t0 key =
      Returned {| sku := key; order_date_obj := None; days_since := None;
                  order_ref := JStr "General Exception"; count := JInt 0;
                  status_code := "N/A" |} /\
    requests_made (events e t0 key) = 1%nat /\
    delays (events e t0 key) = []).
Proof.
  split.
  { unfold events, fetch_try. destruct (prepare e); [|simpl; lia].
    eapply Nat.le_trans; [apply attempts_budget | simpl; lia]. }
  split.
  - intros r0 r1 r2 r3 payload Hp Hs Hh Hc Hj Hwf Hd.
    injection Hh as H0 H1 H2 H3. injection Hc as C0 C1 C2 C3.
    inversion Hd as [|? ? D0 Hd1]; subst. inversion Hd1 as [|? ? D1 Hd2]; subst.
    inversion Hd2 as [|? ? D2 _]; subst.
    pose proof (fetch_try_sku e t0 key) as Hsku.
    unfold events, _fetch_order_details. unfold fetch_try in *. rewrite Hp in *.
    cbn [seq attempts] in *.
    set (st0 := {| result := base_result key; clock := t0; trace := [] |}) in *.
    destruct (attempt_retry e 0 st0 r0 ltac:(lia) (Hs _) H0 C0 D0)
      as (st1 & E1 & T1).
    rewrite E1 in *.
    destruct (attempt_retry e 1 st1 r1 ltac:(lia) (Hs _) H1 C1 D1)
      as (st2 & E2 & T2).
    rewrite E2 in *.
    destruct (attempt_retry e 2 st2 r2 ltac:(lia) (Hs _) H2 C2 D2)
      as (st3 & E3 & T3).
    rewrite E3 in *.
    destruct (attempt_ok e 3 st3 r3 payload (Hs _) H3 C3 Hj Hwf)
      as (st4 & E4 & T4 & S4).
    rewrite E4 in *. simpl in *.
    assert (Hdel : delays (trace st4)
                   = [backoff r0 0; backoff r1 1; backoff r2 2]).
    { rewrite T4, T3, T2, T1. reflexivity. }
    split; [rewrite T4, T3, T2, T1; reflexivity|].
    split; [exact Hdel|].
    split; [exists (result st4); auto|].
    intros Hn. rewrite Hdel. injection Hn as N0 N1 N2.
    unfold numeric_retry_after in *. unfold backoff.
    destruct (resp_retry_after r0) as [[?|]|]; try discriminate;
    destruct (resp_retry_after r1) as [[?|]|]; try discriminate;
    destruct (resp_retry_after r2) as [[?|]|]; try discriminate;
    apply linear_backoff_steps.
  - intros r0 Hp Hs H0 C0 Hno.
    assert (E : match resp_retry_after r0 with
                | Some (Some v) =>
                    forall st, sleep_float e v st = (st, Raise OtherException)
                | _ => False
                end).
    { unfold honoured in Hno.
      destruct (resp_retry_after r0) as [[[ra|]|]|];
        try (apply Hno; exact I).
      - intros st. cbn [sleep_float]. unfold sleep_continue.
        destruct (sleepable e ra); [now elim Hno | reflexivity].
      - intros st. reflexivity. }
    unfold _fetch_order_details, events, fetch_try. rewrite Hp.
    cbn [seq attempts]. unfold attempt_body. cbn [clock].
    rewrite Hs, H0, C0. cbn [Z.eqb Pos.eqb].
    destruct (resp_retry_after r0) as [[v|]|]; try contradiction.
    rewrite E. cbn. repeat split; reflexivity.
Qed.

Lemma three_429_then_200_witness :
  requests_made (events (throttled None) 0 "SKU-1") = 4%nat /\
  nondecreasing (delays (events (throttled None) 0 "SKU-1")).
Proof.
  assert (Hd : Forall (honoured (throttled None))
                 [too_many None; too_many None; too_many None]).
  { repeat constructor. }
  destruct (proj1 (proj2 (three_429_then_200 (throttled None) 0 "SKU-1"))
              (too_many None) (too_many None) (too_many None) found one_order
              eq_refl (fun _ => eq_refl) eq_refl eq_refl eq_refl I Hd)
    as (H1 & _ & _ & H4).
  split; [exact H1 | apply H4; reflexivity].
Defined.

(** C4 as stated fails: a server that asks for 10 s on the first 429 and
    gives no hint afterwards is obeyed, so the delays are 10, 3.0, 4.5,
    which is not non-decreasing (4 requests and an ok record all the
    same). *)
Lemma retry_after_breaks_monotone_delays :
  let e := throttled (Some (Some (Finite 10))) in
  requests_made (events e 0 "SKU-1") = 4%nat /\
  _fetch_order_details e 0 "SKU-1" =
    Returned {| sku := "SKU-1"; order_date_obj := Some (2024, 1, 1);
                days_since := Some 100; order_ref := JStr "PO-1";
                count := JInt 1; status_code := "200" |} /\
  delays (events e 0 "SKU-1") = [10%Q; linear_backoff 1; linear_backoff 2] /\
  ~ nondecreasing (delays (events e 0 "SKU-1")).
Proof.
  cbv zeta.
  split; [vm_compute; reflexivity|].
  split; [vm_compute; reflexivity|].
  split; [vm_compute; reflexivity|].
  assert (E : delays (events (throttled (Some (Some (Finite 10)))) 0 "SKU-1")
              = [10%Q; 6 # 2; 9 # 2]) by (vm_compute; reflexivity).
  rewrite E. intros [H _]. revert H. vm_compute. intros H. apply H.
  reflexivity.
Qed.

(** A [Retry-After] of 10000000000 s is more than [time.sleep] takes:
    the call ends after one request, without a sleep, in the
    [General Exception] record. *)
Lemma retry_after_beyond_the_timer :
  let e := throttled (Some (Some (Finite 10000000000))) in
  ~ honoured e (too_many (Some (Some (Finite 10000000000)))) /\
  requests_made (events e 0 "SKU-1") = 1%nat /\
  delays (events e 0 "SKU-1") = [] /\
  _fetch_order_details e 0 "SKU-1" =
    Returned {| sku := "SKU-1"; order_date_obj := None; days_since := None;
                order_ref := JStr "General Exception"; count := JInt 0;
                status_code := "N/A" |}.
Proof.
  cbv zeta. split; [vm_compute; discriminate|].
  repeat split; vm_compute; reflexivity.
Qed.

(** *** Payloads that fail to parse *)

Lemma attempt_retries (e : env) (a : nat) (st : progress) :
  (a < 5)%nat -> stop_set e (clock st) = false -> retries e a ->
  exists st' code,
    attempt_body e a st = (st', Continue) /\
    result st' = set_status_code code (result st).
Proof.
  intros Ha Hs Hr. unfold retries in Hr. unfold attempt_body. rewrite Hs.
  destruct (http e a) as [resp|x]; [|contradiction].
  destruct Hr as [[Hc Hd]|Hc].
  - rewrite Hc. cbn [Z.eqb Pos.eqb].
    rewrite (sleep_honoured e a resp _ Ha Hd).
    eexists; eexists; split; reflexivity.
  - assert (E1 : (resp_status resp =? 429) = false) by (apply Z.eqb_neq; lia).
    assert (E2 : (500 <=? resp_status resp) && (resp_status resp <? 600) = true).
    { apply andb_true_intro. split; [apply Z.leb_le | apply Z.ltb_lt]; lia. }
    rewrite E1, E2, (sleep_linear e a _ Ha).
    eexists; eexists; split; reflexivity.
Qed.

Lemma untouched_status (key code : string) (r : Result) :
  untouched key r -> untouched key (set_status_code code r).
Proof. unfold untouched. destruct r; simpl. auto. Qed.

Lemma attempts_skip_retries (e : env) (key : string) (n k : nat) :
  (forall t, stop_set e t = false) ->
  forall (b : nat) (st : progress),
  (b + k <= 5)%nat ->
  (forall a, (b <= a < b + k)%nat -> retries e a) ->
  untouched key (result st) ->
  exists st',
    attempts e (seq b (k + n)) st = attempts e (seq (b + k) n) st' /\
    untouched key (result st').
Proof.
  intros Hs. induction k as [|k IH]; intros b st Hb Hr Hu.
  - exists st. rewrite Nat.add_0_r. auto.
  - destruct (attempt_retries e b st ltac:(lia) (Hs _)) as (st1 & code & E & R).
    { apply Hr. lia. }
    destruct (IH (S b) st1) as (st' & E' & U').
    { lia. }
    { intros a Ha. apply Hr. lia. }
    { rewrite R. now apply untouched_status. }
    exists st'. split; [|exact U'].
    cbn [Nat.add seq attempts]. rewrite E.
    rewrite E'. now rewrite Nat.add_succ_r.
Qed.

(** C7, as the code has it.  Take a 2xx response that the loop reaches,
    at once or after retries, with the stop flag clear.
    - Status 200, and [resp.json()] raises: the handler overwrites the
      status code; the record has status ["N/A"], the label of the
      exception class as order reference, and null fields.  The same two
      fields are overwritten when a later step of the 200 branch raises,
      on a payload that decodes but is not of the expected shape.
    - Status 200, the payload decodes and only the order date of the
      first result fails to parse: the record keeps status ["200"], has
      null date fields and an ["Invalid Date: ..."] order reference.
    - Any other 2xx status: the body is never read, so no parse can fail;
      the record keeps the status received, has null fields and the order
      reference ["API Error: <reason>"]. *)
Theorem parse_failure_records (e : env) (t0 : Q) (key : string)
    (a : nat) (resp : Response) :
  prepare e = Returned tt -> (forall t, stop_set e t = false) ->
  (a < 5)%nat -> (forall a', (a' < a)%nat -> retries e a') ->
  http e a = Returned resp -> 200 <= resp_status resp < 300 ->
  (resp_status resp = 200 ->
   forall x : pyexc, resp_json resp = Raised x ->
     _fetch_order_details e t0 key =
     Returned {| sku := key; order_date_obj := None; days_since := None;
                 order_ref := JStr (exception_label x); count := JInt 0;
                 status_code := "N/A" |}) /\
  (resp_status resp = 200 ->
   forall (r : Result) (x : pyexc),
     on_ok e resp (set_status_code "200" (base_result key)) = (r, Some x) ->
     _fetch_order_details e t0 key =
     Returned (set_status_code "N/A"
                 (set_order_ref (JStr (exception_label x)) r))) /\
  (resp_status resp = 200 ->
   forall (m o : list (string * json)) (rest : list json),
     resp_json resp = Returned (JObj m) ->
     assoc "results" m = Some (JArr (JObj o :: rest)) ->
     let raw := match assoc "order_date" o with
                | Some v => v
                | None => JStr ""
                end in
     parse_order_date e raw = None ->
     _fetch_order_details e t0 key =
     Returned {| sku := key; order_date_obj := None; days_since := None;
                 order_ref := JStr ("Invalid Date: " ++ py_str e raw);
                 count := match assoc "count" m with
                          | Some c => c
                          | None => JInt 0
                          end;
                 status_code := "200" |}) /\
  (resp_status resp <> 200 ->
     _fetch_order_details e t0 key =
     Returned {| sku := key; order_date_obj := None; days_since := None;
                 order_ref := JStr ("API Error: " ++ resp_reason resp);
                 count := JInt 0;
                 status_code := pretty (resp_status resp) |}).
Proof.
  intros Hp Hs Ha Hr Hh H2xx.
  destruct (attempts_skip_retries e key (5 - a) a Hs 0
              {| result := base_result key; clock := t0; trace := [] |})
    as (st' & E & U).
  { lia. }
  { intros a' Ha'. apply Hr. lia. }
  { reflexivity. }
  replace (a + (5 - a))%nat with 5%nat in E by lia.
  destruct (5 - a)%nat as [|more] eqn:Em; [lia|].
  unfold untouched in U. destruct (result st') as [k d ds oref c sc] eqn:Er.
  simpl in U. injection U as -> -> -> -> ->.
  split; [|split; [|split]].
  - intros Hc x Hj.
    unfold _fetch_order_details, fetch_try. rewrite Hp, E.
    cbn [Nat.add seq attempts]. unfold attempt_body.
    rewrite Hs, Hh, Hc. cbn. unfold on_ok. rewrite Hj. cbn.
    rewrite Er. destruct x; reflexivity.
  - intros Hc r x Hok.
    unfold _fetch_order_details, fetch_try. rewrite Hp, E.
    cbn [Nat.add seq attempts]. unfold attempt_body.
    rewrite Hs, Hh, Hc.
    cbn [Z.eqb Pos.eqb Z.leb Z.ltb Z.compare Pos.compare Pos.compare_cont
         andb result with_result advance record].
    rewrite Er.
    match goal with
    | |- context [on_ok e resp ?r0] =>
        change r0 with (set_status_code "200" (base_result key))
    end.
    rewrite Hok. cbn [fst handle result with_result].
    destruct x; reflexivity.
  - intros Hc m o rest Hj Hres raw Hd.
    unfold _fetch_order_details, fetch_try. rewrite Hp, E.
    cbn [Nat.add seq attempts]. unfold attempt_body.
    rewrite Hs, Hh, Hc. cbn. unfold on_ok. rewrite Hj. cbn.
    rewrite Hres. cbn. fold raw. rewrite Hd. cbn. rewrite Er. reflexivity.
  - intros Hc.
    unfold _fetch_order_details, fetch_try. rewrite Hp, E.
    cbn [Nat.add seq attempts]. unfold attempt_body.
    rewrite Hs, Hh.
    assert (E1 : (resp_status resp =? 429) = false) by (apply Z.eqb_neq; lia).
    assert (E2 : (500 <=? resp_status resp) && (resp_status resp <? 600)
                 = false).
    { apply andb_false_iff. left. apply Z.leb_gt. lia. }
    assert (E3 : (resp_status resp =? 200) = false) by (now apply Z.eqb_neq).
    rewrite E1, E2, E3.
    cbn [fst handle result trace with_result advance record].
    rewrite Er. reflexivity.
Qed.

Lemma parse_failure_records_witness :
  _fetch_order_details (garbled_after_503 RequestException) 0 "SKU-1" =
  Returned {| sku := "SKU-1"; order_date_obj := None; days_since := None;
              order_ref := JStr "Request Exception"; count := JInt 0;
              status_code := "N/A" |}.
Proof.
  assert (Ha : (1 < 5)%nat) by lia.
  assert (Hr : forall a', (a' < 1)%nat ->
                 retries (garbled_after_503 RequestException) a').
  { intros [|a'] H; [right; simpl; lia | lia]. }
  assert (H2xx : 200 <= 200 < 300) by lia.
  exact (proj1 (parse_failure_records (garbled_after_503 RequestException)
                  0 "SKU-1" 1 _ eq_refl (fun _ => eq_refl) Ha Hr
                  eq_refl H2xx)
           eq_refl RequestException eq_refl).
Defined.

(** C7 as stated fails: a 200 response whose body does not decode ends in
    a record that has lost the status code and is labelled as an
    exception. *)
Lemma undecodable_body_loses_status :
  (exists r, _fetch_order_details (garbled RequestException) 0 "SKU-1"
             = Returned r /\
             status_code r <> "200"%string /\
             status_code r = "N/A"%string /\
             order_ref r = JStr "Request Exception") /\
  (exists r, _fetch_order_details (garbled OtherException) 0 "SKU-1"
             = Returned r /\
             status_code r <> "200"%string /\
             status_code r = "N/A"%string /\
             order_ref r = JStr "General Exception").
Proof.
  split; eexists; (split; [vm_compute; reflexivity|]);
    repeat split; try reflexivity; discriminate.
Qed.

(** *** The record of each way the loop can end *)

Lemma retry_step (e : env) (a : nat) (st : progress) (resp : Response) :
  (a < 5)%nat ->
  stop_set e (clock st) = false -> http e a = Returned resp ->
  retries e a ->
  attempt_body e a st =
  ({| result := set_status_code (pretty (resp_status resp)) (result st);
      clock := (clock st + http_latency e a + retry_delay resp a)%Q;
      trace := trace st ++ [StopCheck (clock st) false;
                            Request a (clock st);
                            Sleep (clock st + http_latency e a)%Q
                                  (retry_delay resp a)] |},
   Continue).
Proof.
  intros Ha Hs Hh Hr. unfold retries in Hr. rewrite Hh in Hr.
  unfold attempt_body, retry_delay. rewrite Hs, Hh.
  destruct Hr as [[Hc Hd]|Hc].
  - rewrite Hc. cbn [Z.eqb Pos.eqb].
    rewrite (sleep_honoured e a resp _ Ha Hd).
    unfold advance, record, with_result; cbn [result clock trace];
      rewrite <- ?app_assoc; reflexivity.
  - assert (E1 : (resp_status resp =? 429) = false) by (apply Z.eqb_neq; lia).
    assert (E2 : (500 <=? resp_status resp) && (resp_status resp <? 600) = true).
    { apply andb_true_intro. split; [apply Z.leb_le | apply Z.ltb_lt]; lia. }
    rewrite E1, E2, (sleep_linear e a _ Ha).
    unfold advance, record, with_result.
    cbn [result clock trace]. rewrite <- ?app_assoc. reflexivity.
Qed.

(** The state in which the loop reaches iteration [b + k] when the [k]
    iterations from [b] on are all retried. *)
Lemma attempts_through_retries (e : env) (key : string) (n k : nat) :
  forall (b : nat) (st : progress),
  (b + k <= 5)%nat ->
  (forall j, (j < k)%nat ->
     stop_set e (check_time e (clock st) b j) = false /\ retries e (b + j)) ->
  untouched key (result st) ->
  exists st',
    attempts e (seq b (k + n)) st = attempts e (seq (b + k) n) st' /\
    untouched key (result st') /\
    requests_made (trace st') = (requests_made (trace st) + k)%nat /\
    length (delays (trace st')) = (length (delays (trace st)) + k)%nat /\
    status_code (result st') = status_after e b k (status_code (result st)) /\
    clock st' = check_time e (clock st) b k.
Proof.
  induction k as [|k IH]; intros b st Hbk Hr Hu.
  - exists st. rewrite !Nat.add_0_r. repeat split; auto.
  - destruct (Hr 0%nat ltac:(lia)) as [Hs Hb]. cbn [check_time] in Hs.
    rewrite Nat.add_0_r in Hb.
    pose proof Hb as Hb'. unfold retries in Hb'.
    destruct (http e b) as [resp|x] eqn:Hh; [|contradiction].
    pose proof (retry_step e b st resp ltac:(lia) Hs Hh Hb) as E.
    set (st1 := {| result := set_status_code (pretty (resp_status resp))
                               (result st);
                   clock := (clock st + http_latency e b
                             + retry_delay resp b)%Q;
                   trace := trace st ++ [StopCheck (clock st) false;
                                         Request b (clock st);
                                         Sleep (clock st + http_latency e b)%Q
                                               (retry_delay resp b)] |}) in *.
    assert (Hpause : pause_after e b = retry_delay resp b).
    { unfold pause_after. now rewrite Hh. }
    destruct (IH (S b) st1) as (st' & E' & U' & R' & D' & S' & C').
    { lia. }
    { intros j Hj. specialize (Hr (S j) ltac:(lia)).
      cbn [check_time] in Hr. rewrite Hpause in Hr.
      rewrite Nat.add_succ_r in Hr. exact Hr. }
    { now apply untouched_status. }
    exists st'. split; [|split; [exact U'|split; [|split; [|split]]]].
    + cbn [Nat.add seq attempts]. rewrite E, E'. now rewrite Nat.add_succ_r.
    + rewrite R'. unfold st1. cbn [trace]. rewrite requests_made_app.
      simpl. lia.
    + rewrite D'. unfold st1. cbn [trace]. rewrite delays_app, length_app.
      simpl. lia.
    + rewrite S'. destruct k as [|k]; cbn [status_after].
      * rewrite Nat.add_0_r, Hh. reflexivity.
      * rewrite Nat.add_succ_r. cbn [Nat.add].
        destruct (Hr (S k) ltac:(lia)) as [_ Hlast].
        rewrite Nat.add_succ_r in Hlast.
        unfold retries in Hlast.
        destruct (http e (S (b + k))); [reflexivity | contradiction].
    + rewrite C'. cbn [check_time]. now rewrite Hpause.
Qed.

Lemma reaches_state (e : env) (t0 : Q) (key : string) (a : nat) :
  reaches e t0 a ->
  exists (st : progress) (more : nat),
    fetch_try e t0 key =
      match attempt_body e a st with
      | (st', Continue) => attempts e (seq (S a) more) st'
      | (st', Break) => (st', None)
      | (st', Raise x) => (st', Some x)
      end /\
    untouched key (result st) /\
    requests_made (trace st) = a /\ length (delays (trace st)) = a /\
    status_code (result st) = status_after e 0 a "N/A" /\
    clock st = check_time e t0 0 a.
Proof.
  intros (Hp & Ha & Hr).
  destruct (attempts_through_retries e key (5 - a) a 0
              {| result := base_result key; clock := t0; trace := [] |})
    as (st & E & U & R & D & S & C).
  { lia. }
  { intros a' Ha'. apply Hr. lia. }
  { reflexivity. }
  replace (a + (5 - a))%nat with 5%nat in E by lia.
  destruct (5 - a)%nat as [|more] eqn:Em; [lia|].
  exists st, more. unfold fetch_try. rewrite Hp, E.
  repeat split; auto.
Qed.

Lemma untouched_record (key : string) (r : Result) :
  untouched key r ->
  r = {| sku := key; order_date_obj := None; days_since := None;
         order_ref := JStr "N/A"; count := JInt 0;
         status_code := status_code r |}.
Proof.
  unfold untouched. destruct r as [k d ds oref c sc]. simpl.
  intros H. injection H as -> -> -> -> ->. reflexivity.
Qed.

Lemma answering_reaches (f : nat -> outcome Response) (t0 : Q) (a : nat) :
  (a < 5)%nat ->
  (forall a', (a' < a)%nat -> retries (answering f None) a') ->
  reaches (answering f None) t0 a.
Proof. intros Ha Hr. split; [reflexivity|]. split; [exact Ha|]. auto. Qed.

(** X3.  A status that is neither 200 nor retried (not 429, not 5xx) ends
    the task at once: the record carries the status code and the order
    reference ["API Error: <reason>"], nothing else is filled in, and no
    request or sleep follows. *)
Theorem permanent_error_is_not_retried (e : env) (t0 : Q) (key : string)
    (a : nat) (resp : Response) :
  reaches e t0 a -> stop_set e (check_time e t0 0 a) = false ->
  http e a = Returned resp ->
  resp_status resp <> 200 -> resp_status resp <> 429 ->
  ~ (500 <= resp_status resp < 600) ->
  _fetch_order_details e t0 key =
    Returned {| sku := key; order_date_obj := None; days_since := None;
                order_ref := JStr ("API Error: " ++ resp_reason resp);
                count := JInt 0;
                status_code := pretty (resp_status resp) |} /\
  requests_made (events e t0 key) = S a /\
  length (delays (events e t0 key)) = a.
Proof.
  intros Hreach Hs Hh H200 H429 H5xx.
  destruct (reaches_state e t0 key a Hreach)
    as (st & more & E & U & R & D & _ & C).
  unfold _fetch_order_details, events. rewrite E.
  unfold attempt_body. rewrite C, Hs, Hh.
  apply Z.eqb_neq in H200, H429. rewrite H200, H429.
  assert (E5 : (500 <=? resp_status resp) && (resp_status resp <? 600) = false).
  { apply andb_false_iff.
    destruct (Z.leb_spec 500 (resp_status resp)); [right|left; reflexivity].
    apply Z.ltb_ge. lia. }
  rewrite E5. cbn [fst handle result trace with_result advance record].
  rewrite (untouched_record key (result st) U). cbn.
  rewrite !requests_made_app, !delays_app, !length_app, R, D. cbn.
  repeat split; lia.
Qed.

Lemma permanent_error_is_not_retried_witness :
  _fetch_order_details
    (after_503 (Returned (plain 404 "Not Found")) None) 0 "K" =
  Returned {| sku := "K"; order_date_obj := None; days_since := None;
              order_ref := JStr "API Error: Not Found"; count := JInt 0;
              status_code := "404" |}.
Proof.
  assert (H : reaches (after_503 (Returned (plain 404 "Not Found")) None) 0 1).
  { apply answering_reaches; [lia|]. intros [|a'] Ha'; [|lia].
    right. simpl. lia. }
  assert (H200 : resp_status (plain 404 "Not Found") <> 200) by discriminate.
  assert (H429 : resp_status (plain 404 "Not Found") <> 429) by discriminate.
  assert (H5xx : ~ (500 <= resp_status (plain 404 "Not Found") < 600)).
  { intros [Hx _]. apply Hx. reflexivity. }
  exact (proj1 (permanent_error_is_not_retried
                  (after_503 (Returned (plain 404 "Not Found")) None) 0 "K" 1
                  (plain 404 "Not Found") H eq_refl eq_refl H200 H429 H5xx)).
Defined.


(** X4.  When all five iterations are retried the loop runs out: five
    requests, five sleeps (the last one after the fifth response, before
    the call returns), and a record that only carries the fifth status. *)
Theorem exhausted_retries_record (e : env) (t0 : Q) (key : string)
    (last : Response) :
  prepare e = Returned tt ->
  (forall a, (a < 5)%nat ->
     stop_set e (check_time e t0 0 a) = false /\ retries e a) ->
  http e 4 = Returned last ->
  _fetch_order_details e t0 key =
    Returned {| sku := key; order_date_obj := None; days_since := None;
                order_ref := JStr "N/A"; count := JInt 0;
                status_code := pretty (resp_status last) |} /\
  requests_made (events e t0 key) = 5%nat /\
  length (delays (events e t0 key)) = 5%nat /\
  finished_at e t0 key = check_time e t0 0 5.
Proof.
  intros Hp Hr Hl.
  destruct (attempts_through_retries e key 0 5 0
              {| result := base_result key; clock := t0; trace := [] |})
    as (st & E & U & R & D & S & C).
  { lia. }
  { intros a Ha. apply Hr. lia. }
  { reflexivity. }
  unfold _fetch_order_details, events, finished_at, fetch_try. rewrite Hp.
  change (seq 0 5) with (seq 0 (5 + 0)). rewrite E.
  cbn [seq attempts fst handle].
  rewrite (untouched_record key (result st) U), S.
  cbn [status_after Nat.add]. rewrite Hl.
  repeat split; assumption.
Qed.

Lemma exhausted_retries_record_witness :
  _fetch_order_details (after_503 unavailable None) 0 "K" =
  Returned {| sku := "K"; order_date_obj := None; days_since := None;
              order_ref := JStr "N/A"; count := JInt 0;
              status_code := "503" |} /\
  requests_made (events (after_503 unavailable None) 0 "K") = 5%nat.
Proof.
  assert (H : forall a, (a < 5)%nat ->
     stop_set (after_503 unavailable None)
       (check_time (after_503 unavailable None) 0 0 a) = false /\
     retries (after_503 unavailable None) a).
  { intros a _. split; [reflexivity|]. destruct a; right; simpl; lia. }
  pose proof (exhausted_retries_record (after_503 unavailable None) 0 "K"
                (plain 503 "Service Unavailable") eq_refl H eq_refl) as P.
  exact (conj (proj1 P) (proj1 (proj2 P))).
Defined.

(** X5.  If the stop flag is found set at the check of iteration [a], the
    call ends there without a further request: the record has order
    reference ["N/A"] and the status of the last retried response, or
    ["N/A"] when there was none. *)
Theorem cancelled_between_attempts (e : env) (t0 : Q) (key : string)
    (a : nat) :
  reaches e t0 a -> stop_set e (check_time e t0 0 a) = true ->
  _fetch_order_details e t0 key =
    Returned {| sku := key; order_date_obj := None; days_since := None;
                order_ref := JStr "N/A"; count := JInt 0;
                status_code := status_after e 0 a "N/A" |} /\
  requests_made (events e t0 key) = a /\
  finished_at e t0 key = check_time e t0 0 a.
Proof.
  intros Hreach Hs.
  destruct (reaches_state e t0 key a Hreach)
    as (st & more & E & U & R & D & S & C).
  unfold _fetch_order_details, events, finished_at. rewrite E.
  unfold attempt_body. rewrite C, Hs.
  cbn [fst handle result trace clock record].
  rewrite (untouched_record key (result st) U), S.
  rewrite requests_made_app, R. cbn. rewrite C.
  repeat split; lia.
Qed.

Lemma cancelled_between_attempts_witness :
  _fetch_order_details (after_503 unavailable (Some 1%Q)) 0 "K" =
  Returned {| sku := "K"; order_date_obj := None; days_since := None;
              order_ref := JStr "N/A"; count := JInt 0;
              status_code := "503" |} /\
  requests_made (events (after_503 unavailable (Some 1%Q)) 0 "K") = 1%nat.
Proof.
  assert (H : reaches (after_503 unavailable (Some 1%Q)) 0 1).
  { split; [reflexivity|]. split; [lia|]. intros [|a'] Ha'; [|lia].
    split; [reflexivity|]. right. simpl. lia. }
  assert (Hs : stop_set (after_503 unavailable (Some 1%Q))
                 (check_time (after_503 unavailable (Some 1%Q)) 0 0 1) = true)
    by (vm_compute; reflexivity).
  pose proof (cancelled_between_attempts (after_503 unavailable (Some 1%Q))
                0 "K" 1 H Hs) as P.
  exact (conj (proj1 P) (proj1 (proj2 P))).
Defined.

(** X6.  An exception raised by the request itself (a timeout, a refused
    connection) at iteration [a], after any number of retried responses,
    is not retried: the status recorded for the earlier responses is
    overwritten by ["N/A"], the order reference names the handler, and no
    sleep follows. *)
Theorem transport_exception_record (e : env) (t0 : Q) (key : string)
    (a : nat) (x : pyexc) :
  reaches e t0 a -> stop_set e (check_time e t0 0 a) = false ->
  http e a = Raised x ->
  _fetch_order_details e t0 key =
    Returned {| sku := key; order_date_obj := None; days_since := None;
                order_ref := JStr (exception_label x); count := JInt 0;
                status_code := "N/A" |} /\
  requests_made (events e t0 key) = S a /\
  length (delays (events e t0 key)) = a.
Proof.
  intros Hreach Hs Hh.
  destruct (reaches_state e t0 key a Hreach)
    as (st & more & E & U & R & D & _ & C).
  unfold _fetch_order_details, events. rewrite E.
  unfold attempt_body. rewrite C, Hs, Hh.
  cbn [fst trace advance record]. rewrite handle_raised.
  cbn [result advance record].
  rewrite (untouched_record key (result st) U). cbn.
  rewrite !requests_made_app, !delays_app, !length_app, R, D. cbn.
  repeat split; lia.
Qed.

Lemma transport_exception_record_witness :
  _fetch_order_details (after_503 (Raised RequestException) None) 0 "K" =
  Returned {| sku := "K"; order_date_obj := None; days_since := None;
              order_ref := JStr "Request Exception"; count := JInt 0;
              status_code := "N/A" |}.
Proof.
  assert (H : reaches (after_503 (Raised RequestException) None) 0 1).
  { apply answering_reaches; [lia|]. intros [|a'] Ha'; [|lia].
    right. simpl. lia. }
  exact (proj1 (transport_exception_record
                  (after_503 (Raised RequestException) None) 0 "K" 1
                  RequestException H eq_refl eq_refl)).
Defined.

(** X7.  A 200 response whose payload is an object with a first result
    that is an object with a parsable order date gives the complete
    record: date and age from that first result only, its order
    reference (["N/A"] when the key is missing), the payload's count (0
    when missing) and status ["200"]. *)
Theorem order_found_record (e : env) (t0 : Q) (key : string) (a : nat)
    (resp : Response) (m o : list (string * json)) (rest : list json)
    (d : pydate) (days : Z) :
  reaches e t0 a -> stop_set e (check_time e t0 0 a) = false ->
  http e a = Returned resp -> resp_status resp = 200 ->
  resp_json resp = Returned (JObj m) ->
  assoc "results" m = Some (JArr (JObj o :: rest)) ->
  parse_order_date e (match assoc "order_date" o with
                      | Some v => v
                      | None => JStr ""
                      end) = Some (d, days) ->
  _fetch_order_details e t0 key =
    Returned {| sku := key; order_date_obj := Some d; days_since := Some days;
                order_ref := match assoc "order_reference" o with
                             | Some v => v
                             | None => JStr "N/A"
                             end;
                count := match assoc "count" m with
                         | Some c => c
                         | None => JInt 0
                         end;
                status_code := "200" |} /\
  requests_made (events e t0 key) = S a.
Proof.
  intros Hreach Hs Hh Hc Hj Hres Hd.
  destruct (reaches_state e t0 key a Hreach)
    as (st & more & E & U & R & D & _ & C).
  unfold _fetch_order_details, events. rewrite E.
  unfold attempt_body. rewrite C, Hs, Hh, Hc.
  cbn [Z.eqb Pos.eqb Z.leb Z.ltb Z.compare Pos.compare Pos.compare_cont andb].
  unfold on_ok. rewrite Hj. cbn [bind_json dict_get]. rewrite Hres.
  cbn [truthy bind_json index0 dict_get]. rewrite Hd.
  cbn [fst handle result trace with_result advance record].
  rewrite (untouched_record key (result st) U). cbn.
  rewrite !requests_made_app, R. cbn.
  split; [reflexivity | lia].
Qed.

Lemma order_found_record_witness :
  _fetch_order_details (throttled None) 0 "K" =
  Returned {| sku := "K"; order_date_obj := Some (2024, 1, 1);
              days_since := Some 100; order_ref := JStr "PO-1";
              count := JInt 1; status_code := "200" |}.
Proof.
  assert (H : reaches (throttled None) 0 3).
  { split; [reflexivity|]. split; [lia|].
    intros a' Ha'. destruct a' as [|[|[|a']]]; [| | |lia];
      (split; [reflexivity|]); left;
      (split; [reflexivity | exact I]). }
  exact (proj1 (order_found_record (throttled None) 0 "K" 3 found _ _ _
                  (2024, 1, 1) 100 H eq_refl eq_refl eq_refl eq_refl
                  eq_refl eq_refl)).
Defined.

(** X8.  A 200 response whose payload is an object with a missing, empty
    or otherwise falsy ["results"] entry is recorded as
    ["No Orders Found"] with status ["200"], the payload's count and no
    date. *)
Theorem no_orders_found_record (e : env) (t0 : Q) (key : string) (a : nat)
    (resp : Response) (m : list (string * json)) :
  reaches e t0 a -> stop_set e (check_time e t0 0 a) = false ->
  http e a = Returned resp -> resp_status resp = 200 ->
  resp_json resp = Returned (JObj m) ->
  truthy (match assoc "results" m with
          | Some v => v
          | None => JArr []
          end) = false ->
  _fetch_order_details e t0 key =
    Returned {| sku := key; order_date_obj := None; days_since := None;
                order_ref := JStr "No Orders Found";
                count := match assoc "count" m with
                         | Some c => c
                         | None => JInt 0
                         end;
                status_code := "200" |} /\
  requests_made (events e t0 key) = S a.
Proof.
  intros Hreach Hs Hh Hc Hj Hres.
  destruct (reaches_state e t0 key a Hreach)
    as (st & more & E & U & R & D & _ & C).
  unfold _fetch_order_details, events. rewrite E.
  unfold attempt_body. rewrite C, Hs, Hh, Hc.
  cbn [Z.eqb Pos.eqb Z.leb Z.ltb Z.compare Pos.compare Pos.compare_cont andb].
  unfold on_ok. rewrite Hj. cbn [bind_json dict_get]. rewrite Hres.
  cbn [fst handle result trace with_result advance record].
  rewrite (untouched_record key (result st) U). cbn.
  rewrite !requests_made_app, R. cbn.
  split; [reflexivity | lia].
Qed.

Lemma no_orders_found_record_witness :
  _fetch_order_details (after_503 (Returned nothing_found) None) 0 "K" =
  Returned {| sku := "K"; order_date_obj := None; days_since := None;
              order_ref := JStr "No Orders Found"; count := JInt 0;
              status_code := "200" |}.
Proof.
  assert (H : reaches (after_503 (Returned nothing_found) None) 0 1).
  { apply answering_reaches; [lia|]. intros [|a'] Ha'; [|lia].
    right. simpl. lia. }
  exact (proj1 (no_orders_found_record
                  (after_503 (Returned nothing_found) None) 0 "K" 1
                  nothing_found
                  [("count", JInt 0); ("results", JArr [])]%string H
                  eq_refl eq_refl eq_refl eq_refl eq_refl)).
Defined.


Lemma Qsum_cons (x : Q) (l : list Q) : Qsum (x :: l) = (x + Qsum l)%Q.
Proof. reflexivity. Qed.

Lemma Qsum_app (l1 l2 : list Q) : (Qsum (l1 ++ l2) == Qsum l1 + Qsum l2)%Q.
Proof.
  unfold Qsum. induction l1 as [|x l1 IH]; cbn [app fold_right].
  - lra.
  - rewrite IH. lra.
Qed.

Ltac tally :=
  cbn [fst trace clock record advance with_result];
  rewrite ?delays_app; cbn [delays]; rewrite ?Qsum_app;
  unfold Qsum; cbn [fold_right];
  (split; [lra | intros; lra]).

Lemma attempt_body_budget (e : env) (a : nat) (st : progress) :
  (forall resp, http e a = Returned resp -> resp_status resp = 429 ->
     numeric_retry_after resp = None) ->
  (Qsum (delays (trace (fst (attempt_body e a st))))
   <= Qsum (delays (trace st)) + linear_backoff a)%Q /\
  ((0 <= http_latency e a)%Q ->
   (clock (fst (attempt_body e a st))
    <= clock st + (http_latency e a + linear_backoff a))%Q).
Proof.
  intros Hra. pose proof (linear_backoff_nonneg a) as Hlb.
  unfold attempt_body.
  destruct (stop_set e (clock st)); [tally|].
  destruct (http e a) as [resp|x] eqn:Hh; [|tally].
  assert (Hsleep : forall r,
    (Qsum (delays (trace (fst (sleep_continue e (linear_backoff a)
       (with_result r
          (advance (http_latency e a)
             (record (Request a (clock st))
                (record (StopCheck (clock st) false) st))))))))
     <= Qsum (delays (trace st)) + linear_backoff a)%Q /\
    ((0 <= http_latency e a)%Q ->
     (clock (fst (sleep_continue e (linear_backoff a)
       (with_result r
          (advance (http_latency e a)
             (record (Request a (clock st))
                (record (StopCheck (clock st) false) st))))))
      <= clock st + (http_latency e a + linear_backoff a))%Q)).
  { intros r. unfold sleep_continue.
    destruct (sleepable e (linear_backoff a)); tally. }
  destruct (resp_status resp =? 429) eqn:E429.
  { apply Z.eqb_eq in E429. specialize (Hra resp eq_refl E429).
    unfold numeric_retry_after in Hra.
    destruct (resp_retry_after resp) as [[v|]|]; [discriminate| |];
      apply Hsleep. }
  destruct ((500 <=? resp_status resp) && (resp_status resp <? 600)).
  { apply Hsleep. }
  destruct (resp_status resp =? 200); [|tally].
  match goal with |- context [on_ok e resp ?r] =>
    destruct (on_ok e resp r) as [r' [x|]]
  end; tally.
Qed.

Lemma attempts_budget_time (e : env) (range : list nat) :
  (forall a resp, http e a = Returned resp -> resp_status resp = 429 ->
     numeric_retry_after resp = None) ->
  forall st : progress,
  (Qsum (delays (trace (fst (attempts e range st))))
   <= Qsum (delays (trace st)) + Qsum (map linear_backoff range))%Q /\
  ((forall a, (0 <= http_latency e a)%Q) ->
   (clock (fst (attempts e range st))
    <= clock st + (Qsum (map (http_latency e) range)
                   + Qsum (map linear_backoff range)))%Q).
Proof.
  intros Hra. induction range as [|a rest IH]; intros st.
  - cbn [attempts fst map]. unfold Qsum. cbn [fold_right].
    split; [lra | intros; lra].
  - cbn [attempts map].
    destruct (attempt_body_budget e a st (Hra a)) as [B1 B2].
    assert (Hrest : (0 <= Qsum (map linear_backoff rest))%Q).
    { clear. induction rest as [|b rest IH];
        [unfold Qsum; cbn [map fold_right]; lra|].
      pose proof (linear_backoff_nonneg b). unfold Qsum in *.
      cbn [map fold_right]. lra. }
    assert (Hlat : (forall a, (0 <= http_latency e a)%Q) ->
                   (0 <= Qsum (map (http_latency e) rest))%Q).
    { intros Hl. clear - Hl. induction rest as [|b rest IH];
        [unfold Qsum; cbn [map fold_right]; lra|].
      pose proof (Hl b). unfold Qsum in *. cbn [map fold_right]. lra. }
    rewrite !Qsum_cons.
    destruct (attempt_body e a st) as [st' [| |x]]; cbn [fst] in *.
    + destruct (IH st') as [I1 I2]. split; [lra|].
      intros Hl. specialize (I2 Hl). specialize (B2 (Hl a)). lra.
    + split; [lra|]. intros Hl. specialize (B2 (Hl a)).
      specialize (Hlat Hl). lra.
    + split; [lra|]. intros Hl. specialize (B2 (Hl a)).
      specialize (Hlat Hl). lra.
Qed.

(** X9.  When no 429 response carries a numeric [Retry-After], one call
    sleeps at most 1.5 + 3 + 4.5 + 6 + 7.5 = 22.5 seconds in all, and ends
    no later than that plus the time of its five requests. *)
Theorem backoff_budget (e : env) (t0 : Q) (key : string) :
  (forall a resp, http e a = Returned resp -> resp_status resp = 429 ->
     numeric_retry_after resp = None) ->
  (Qsum (delays (events e t0 key)) <= 45 # 2)%Q /\
  ((forall a, (0 <= http_latency e a)%Q) ->
   (finished_at e t0 key
    <= t0 + Qsum (map (http_latency e) (seq 0 5)) + (45 # 2))%Q).
Proof.
  intros Hra. unfold events, finished_at, fetch_try.
  destruct (prepare e).
  - destruct (attempts_budget_time e (seq 0 5) Hra
                {| result := base_result key; clock := t0; trace := [] |})
      as [B1 B2].
    cbn [trace clock delays] in B1, B2.
    assert (E : (Qsum (map linear_backoff (seq 0 5)) == 45 # 2)%Q)
      by (vm_compute; reflexivity).
    rewrite E in B1, B2. change (Qsum []) with 0%Q in B1.
    split; [lra|]. intros Hl. specialize (B2 Hl). lra.
  - cbn [fst trace clock delays]. change (Qsum []) with 0%Q.
    split; [lra|]. intros Hl.
    assert (0 <= Qsum (map (http_latency e) (seq 0 5)))%Q.
    { generalize (seq 0 5). intros l. induction l as [|b l IH];
        [unfold Qsum; cbn [map fold_right]; lra|].
      pose proof (Hl b). unfold Qsum in *. cbn [map fold_right]. lra. }
    lra.
Qed.

Lemma backoff_budget_witness :
  (Qsum (delays (events (after_503 unavailable None) 0 "K")) <= 45 # 2)%Q /\
  (finished_at (after_503 unavailable None) 0 "K"
   <= 0 + Qsum (map (http_latency (after_503 unavailable None)) (seq 0 5))
      + (45 # 2))%Q.
Proof.
  assert (H : forall a resp,
    http (after_503 unavailable None) a = Returned resp ->
    resp_status resp = 429 -> numeric_retry_after resp = None).
  { intros [|a] resp Hh; injection Hh as <-; discriminate. }
  assert (Hl : forall a, (0 <= http_latency (after_503 unavailable None) a)%Q).
  { intros a. apply Qle_refl. }
  exact (conj (proj1 (backoff_budget (after_503 unavailable None) 0 "K" H))
              (proj2 (backoff_budget (after_503 unavailable None) 0 "K" H) Hl)).
Defined.

End LookupFacts.

(** ** The producer *)

Module ProducerFacts.
Import Producer.

Lemma filter_all {A : Type} (P : A -> Prop) `{forall x, Decision (P x)}
    (l : list A) :
  (forall x, x ∈ l -> P x) -> filter P l = l.
Proof.
  induction l as [|x l IH]; intros Hall; [reflexivity|].
  rewrite filter_cons_True by (apply Hall; left).
  f_equal. apply IH. intros y Hy. apply Hall. now right.
Qed.

Lemma first_occurrences_elem (l : list string) (k : string) :
  k ∈ first_occurrences l <-> k ∈ l.
Proof.
  induction l as [|k' l IH]; simpl; [reflexivity|].
  rewrite !elem_of_cons, list_elem_of_filter, IH.
  destruct (decide (k = k')); intuition.
Qed.

Lemma first_occurrences_NoDup (l : list string) : NoDup (first_occurrences l).
Proof.
  induction l as [|k l IH]; simpl; constructor.
  - rewrite list_elem_of_filter. intros [H _]. now apply H.
  - now apply NoDup_filter.
Qed.

Lemma first_occurrences_app (l1 l2 : list string) :
  first_occurrences (l1 ++ l2) =
  first_occurrences l1 ++ filter (fun k => k ∉ l1) (first_occurrences l2).
Proof.
  induction l1 as [|k l1 IH]; simpl.
  - symmetry. apply filter_all. intros k _. apply not_elem_of_nil.
  - f_equal. rewrite IH, filter_app. f_equal.
    rewrite list_filter_filter. apply list_filter_iff.
    intros k'. rewrite not_elem_of_cons. tauto.
Qed.

Lemma skus_loop_puts (stop : nat -> bool) (skus : list string) :
  (forall n, stop n = false) -> forall st : pstate,
  let fresh := filter (fun k => k ∉ seen st) (first_occurrences skus) in
  let st' := skus_loop stop skus st in
  puts st' = puts st ++ map Some fresh /\
  total_enqueued st' = (total_enqueued st + length fresh)%nat /\
  (forall x, x ∈ seen st' <-> x ∈ skus \/ x ∈ seen st).
Proof.
  intros never.
  induction skus as [|k rest IH]; intros st; simpl.
  - rewrite app_nil_r, Nat.add_0_r. repeat split; auto.
    intros [H|H]; [now apply elem_of_nil in H | exact H].
  - rewrite never. simpl.
    destruct (decide (k ∈ seen st)) as [Hin|Hout].
    + destruct (IH (tick st)) as (E1 & E2 & E3). simpl in *.
      rewrite filter_cons_False by tauto.
      rewrite list_filter_filter.
      rewrite (list_filter_iff _ (fun k' => k' ∉ seen st)).
      * rewrite E1, E2. repeat split; intros H.
        -- apply E3 in H. rewrite elem_of_cons. tauto.
        -- apply E3. rewrite elem_of_cons in H.
           destruct H as [[->|H]|H]; auto.
      * intros k'. split; [tauto|]. intros H. split; [exact H|]. congruence.
    + destruct (IH (enqueue k (tick st))) as (E1 & E2 & E3). simpl in *.
      rewrite filter_cons_True by exact Hout.
      rewrite list_filter_filter.
      rewrite (list_filter_iff _ (fun k' => k' ∉ {[k]} ∪ seen st)).
      * rewrite E1, E2, <- app_assoc. simpl. repeat split; [lia| |]; intros H.
        -- apply E3 in H. rewrite elem_of_union, elem_of_singleton in H.
           rewrite elem_of_cons. tauto.
        -- apply E3. rewrite elem_of_union, elem_of_singleton.
           rewrite elem_of_cons in H. tauto.
      * intros k'. rewrite elem_of_union, elem_of_singleton. tauto.
Qed.

Lemma chunks_loop_puts (stop : nat -> bool) (src : source) :
  (forall n, stop n = false) -> forall st : pstate,
  let fresh := filter (fun k => k ∉ seen st)
                 (first_occurrences (surviving src)) in
  let st' := chunks_loop stop src st in
  puts st' = puts st ++ map Some fresh /\
  total_enqueued st' = (total_enqueued st + length fresh)%nat.
Proof.
  intros never.
  induction src as [|[chunk|] rest IH]; intros st; simpl;
    try (rewrite app_nil_r, Nat.add_0_r; split; reflexivity).
  rewrite never.
  destruct (skus_loop_puts stop (zero_stock chunk) never (tick st))
    as (E1 & E2 & E3).
  destruct (IH (skus_loop stop (zero_stock chunk) (tick st))) as (F1 & F2).
  simpl in *. rewrite F1, F2, E1, E2.
  rewrite first_occurrences_app, filter_app, map_app, length_app.
  rewrite list_filter_filter.
  rewrite (list_filter_iff
             (fun k => k ∉ seen (skus_loop stop (zero_stock chunk) (tick st)))
             (fun k => (k ∉ seen st) /\ (k ∉ zero_stock chunk))).
  - rewrite <- app_assoc. split; [reflexivity | lia].
  - intros k. rewrite E3. tauto.
Qed.

(** C3.  With the stop flag clear, the items handed to the task queue are
    one Task per distinct surviving key, at the place of its first
    occurrence, followed by one sentinel per worker; [total_enqueued]
    counts those Tasks.  The list of first occurrences has no duplicates
    and the same members as the surviving keys.  For the surviving keys
    A, B, A, C, B this is the three Tasks A, B, C. *)
Theorem one_task_per_distinct_key (stop : nat -> bool) (max_workers : nat)
    (src : source) :
  (forall n, stop n = false) ->
  let r := _producer_from_csv stop max_workers src in
  let tasks := first_occurrences (surviving src) in
  queued r = map Some tasks ++ replicate max_workers None /\
  enqueued r = length tasks /\
  NoDup tasks /\
  (forall k : string, k ∈ tasks <-> k ∈ surviving src) /\
  (surviving src = ["A"; "B"; "A"; "C"; "B"]%string ->
   queued r = [Some "A"; Some "B"; Some "C"]%string
              ++ replicate max_workers None).
Proof.
  intros never r tasks.
  destruct (chunks_loop_puts stop src never
              {| seen := ∅; puts := []; total_enqueued := 0; polls := 0 |})
    as (E1 & E2).
  simpl in E1, E2.
  rewrite filter_all in E1, E2 by (intros k _; apply not_elem_of_empty).
  fold tasks in E1, E2.
  assert (Hq : queued r = map Some tasks ++ replicate max_workers None).
  { unfold r, _producer_from_csv. simpl. now rewrite E1. }
  split; [exact Hq|].
  split; [unfold r, _producer_from_csv; simpl; now rewrite E2|].
  split; [apply first_occurrences_NoDup|].
  split; [intros k; apply first_occurrences_elem|].
  intros Hs. rewrite Hq. unfold tasks. rewrite Hs. reflexivity.
Qed.

Lemma one_task_per_distinct_key_witness :
  queued (_producer_from_csv (fun _ => false) 2 duplicated_source) =
  [Some "A"; Some "B"; Some "C"; None; None]%string.
Proof.
  exact (proj2 (proj2 (proj2 (proj2
           (one_task_per_distinct_key (fun _ => false) 2 duplicated_source
              (fun _ => eq_refl))))) eq_refl).
Defined.

Lemma fresh_seen (seen : gset string) (k : string) (l : list string) :
  k ∈ seen -> fresh seen (k :: l) = fresh seen l.
Proof.
  intros Hin. unfold fresh. simpl.
  rewrite filter_cons_False by tauto.
  rewrite list_filter_filter. apply list_filter_iff.
  intros k'. split; [tauto|]. intros H. split; [exact H|]. congruence.
Qed.

Lemma fresh_new (seen : gset string) (k : string) (l : list string) :
  k ∉ seen -> fresh seen (k :: l) = k :: fresh ({[ k ]} ∪ seen) l.
Proof.
  intros Hout. unfold fresh. simpl.
  rewrite filter_cons_True by exact Hout. f_equal.
  rewrite list_filter_filter. apply list_filter_iff.
  intros k'. rewrite elem_of_union, elem_of_singleton. tauto.
Qed.

End ProducerFacts.

(** ** The pipeline *)

Module PipelineFacts.
Import Pipeline.
Local Open Scope nat_scope.

(** *** Accounting *)

Lemma somes_app {A : Type} (l1 l2 : list (option A)) :
  somes (l1 ++ l2) = somes l1 + somes l2.
Proof. induction l1 as [|[x|] l1 IH]; simpl; lia. Qed.

Lemma total_insert (f : wpc -> nat) (ws : list wpc) (i : nat) (pc pc' : wpc) :
  ws !! i = Some pc ->
  total f (<[ i := pc' ]> ws) + f pc = total f ws + f pc'.
Proof.
  revert i. induction ws as [|w ws IH]; intros [|i] H; simpl in *;
    try discriminate.
  - injection H as ->. lia.
  - specialize (IH i H). lia.
Qed.

Lemma total_replicate (f : wpc -> nat) (n : nat) (pc : wpc) :
  total f (replicate n pc) = n * f pc.
Proof. induction n as [|n IH]; simpl; lia. Qed.

Lemma alive_insert (ws : list wpc) (i : nat) (pc' : wpc) :
  (forall j pc, ws !! j = Some pc -> crashed pc = false) ->
  crashed pc' = false ->
  forall j pc, <[ i := pc' ]> ws !! j = Some pc -> crashed pc = false.
Proof.
  intros Hall Hpc j pc H. apply list_lookup_insert_Some in H.
  destruct H as [(_ & <- & _)|(_ & H)]; [exact Hpc | eauto].
Qed.

Lemma task_done_spec (q q' : Queues) :
  task_done q = Some q' ->
  task_queue q' = task_queue q /\ result_queue q' = result_queue q /\
  unfinished_tasks q = S (unfinished_tasks q').
Proof.
  unfold task_done. destruct (unfinished_tasks q) eqn:E; [discriminate|].
  intros H. injection H as <-. simpl. auto.
Qed.

Lemma task_done_fails (q : Queues) :
  task_done q = None -> unfinished_tasks q = 0.
Proof. unfold task_done. now destruct (unfinished_tasks q). Qed.

Ltac settle_by tac :=
  constructor; simpl in *; rewrite ?somes_app, ?length_app; simpl;
  first [ lia | assumption | tac ].

Lemma worker_step_sound (s : System) (i : nat) (inp : winput)
    (pc pc' : wpc) (a' : App) (evs : list hevent) :
  sound s -> workers s !! i = Some pc ->
  worker_step i inp pc (app s) = Some (pc', a', evs) ->
  sound {| app := a'; producer := producer s;
           workers := <[ i := pc' ]> (workers s);
           history := history s ++ evs |}.
Proof.
  intros [I1 I2 I3 I4 I5] Hi Hstep.
  pose proof (total_insert holding (workers s) i pc pc' Hi) as Hh.
  pose proof (total_insert owing (workers s) i pc pc' Hi) as Ho.
  pose proof (alive_insert (workers s) i pc' I5) as Ha.
  destruct pc; simpl in Hstep.
  - (* WLoop *)
    injection Hstep as <- <- <-.
    destruct (stop_event (signals (app s))); settle_by ltac:(apply Ha; reflexivity).
  - (* WGet *)
    destruct (task_queue (queues (app s))) as [|item rest] eqn:Eq;
      [discriminate|].
    injection Hstep as <- <- <-.
    destruct item as [k|]; settle_by ltac:(apply Ha; reflexivity).
  - (* WSentinel *)
    destruct (task_done (queues (app s))) as [q|] eqn:Eq.
    + injection Hstep as <- <- <-.
      destruct (task_done_spec _ _ Eq) as (E1 & E2 & E3).
      constructor; simpl in *; rewrite ?E1, ?E2;
        first [ lia | assumption | apply Ha; reflexivity ].
    + injection Hstep as <- <- <-.
      apply task_done_fails in Eq. simpl in *. lia.
  - (* WPause *)
    destruct (pause_event (signals (app s))); [|discriminate].
    injection Hstep as <- <- <-. settle_by ltac:(apply Ha; reflexivity).
  - (* WAcquire *)
    destruct (rate_limiter (app s)) as [rl|].
    + destruct (RateLimiter.acquire_locked rl (now inp)) as [rl' [|]];
        injection Hstep as <- <- <-; settle_by ltac:(apply Ha; reflexivity).
    + injection Hstep as <- <- <-. settle_by ltac:(apply Ha; reflexivity).
  - (* WFetch *)
    destruct (LookupFacts.fetch_returns (remote inp) (now inp) key)
      as (r & E & _).
    rewrite E in Hstep. injection Hstep as <- <- <-.
    settle_by ltac:(apply Ha; reflexivity).
  - (* WPut *)
    destruct (length (result_queue (queues (app s))) <? RESULT_QUEUE_MAX);
      [|discriminate].
    injection Hstep as <- <- <-.
    settle_by ltac:(apply Ha; reflexivity).
  - (* WTaskDone *)
    destruct (task_done (queues (app s))) as [q|] eqn:Eq.
    + injection Hstep as <- <- <-.
      destruct (task_done_spec _ _ Eq) as (E1 & E2 & E3).
      constructor; simpl in *; rewrite ?E1, ?E2;
        first [ lia | assumption | apply Ha; reflexivity ].
    + injection Hstep as <- <- <-.
      apply task_done_fails in Eq. simpl in *. lia.
  - discriminate.
  - discriminate.
Qed.

Lemma producer_step_sound (s : System) (pc' : ppc) (a' : App)
    (evs : list hevent) :
  sound s ->
  producer_step (producer s) (app s) = Some (pc', a', evs) ->
  sound {| app := a'; producer := pc'; workers := workers s;
           history := history s ++ evs |}.
Proof.
  intros [I1 I2 I3 I4 I5] Hstep.
  destruct (producer s) as [src seen|skus src seen|k skus src seen
                            |skus src seen|n| |]; simpl in Hstep.
  - destruct src as [|[chunk|] rest];
      [| destruct (stop_event (signals (app s))) |];
      injection Hstep as <- <- <-; settle_by fail.
  - destruct skus as [|k rest];
      [| destruct (stop_event (signals (app s)));
         [| destruct (decide (k ∈ seen))]];
      injection Hstep as <- <- <-; settle_by fail.
  - destruct (task_queue_full (app s)); [discriminate|].
    injection Hstep as <- <- <-. settle_by fail.
  - injection Hstep as <- <- <-. settle_by fail.
  - destruct n as [|n];
      [| destruct (task_queue_full (app s)); [discriminate|]];
      injection Hstep as <- <- <-; settle_by fail.
  - injection Hstep as <- <- <-. settle_by fail.
  - discriminate.
Qed.

Lemma count_item_spec (item : Result) (c : Counters) :
  let c' := Aggregator.count_item item c in
  total_processed c' = S (total_processed c) /\
  total_enqueued c' = total_enqueued c /\
  total_to_process c' = total_to_process c /\
  (if String.eqb (status_code item) "200"
   then total_ok c' = S (total_ok c) /\ total_err c' = total_err c
   else total_ok c' = total_ok c /\ total_err c' = S (total_err c)).
Proof.
  unfold Aggregator.count_item.
  destruct (String.eqb (status_code item) "200"); simpl; auto.
Qed.

Lemma count_item_balance (item : Result) (c : Counters) :
  balance c -> balance (Aggregator.count_item item c).
Proof.
  unfold balance. intros H.
  destruct (count_item_spec item c) as (E1 & _ & _ & E2).
  destruct (String.eqb (status_code item) "200"); lia.
Qed.

Lemma drain_spec (rq : list (option Result)) :
  forall (n : nat) (c : Counters) (st : Store),
  match Aggregator.drain rq n c st with
  | (rq', c', _) =>
      somes rq' + total_processed c' = somes rq + total_processed c /\
      total_enqueued c' = total_enqueued c /\
      total_to_process c' = total_to_process c /\
      (balance c -> balance c')
  end.
Proof.
  induction rq as [|[r|] rq IH]; intros n c st; simpl; auto.
  - destruct (n <? 200); [|simpl; auto].
    specialize (IH (S n) (Aggregator.count_item r c)
                  (Aggregator.store_item r st)).
    destruct (Aggregator.drain rq _ _ _) as [[rq' c'] st'].
    destruct (count_item_spec r c) as (E1 & E2 & E3 & _).
    destruct IH as (F1 & F2 & F3 & F4).
    repeat split; try lia. auto using count_item_balance.
  - destruct (n <? 200); [|simpl; auto]. apply IH.
Qed.

Lemma check_queue_spec (a : App) :
  let a' := Aggregator._check_queue a in
  task_queue (queues a') = task_queue (queues a) /\
  unfinished_tasks (queues a') = unfinished_tasks (queues a) /\
  somes (result_queue (queues a')) + total_processed (counters a') =
  somes (result_queue (queues a)) + total_processed (counters a) /\
  total_enqueued (counters a') = total_enqueued (counters a) /\
  total_to_process (counters a') = total_to_process (counters a) /\
  (balance (counters a) -> balance (counters a')).
Proof.
  unfold Aggregator._check_queue.
  pose proof (drain_spec (result_queue (queues a)) 0 (counters a) (store a))
    as H.
  destruct (Aggregator.drain _ _ _ _) as [[rq c] st].
  destruct H as (H1 & H2 & H3 & H4).
  destruct (is_processing _); [destruct (Aggregator.finished _)|];
    simpl; auto 10.
Qed.

Lemma feed_sentinels_spec (n : nat) : forall a : App,
  let a' := feed_sentinels n a in
  exists k,
    task_queue (queues a') = task_queue (queues a) ++ replicate k None /\
    unfinished_tasks (queues a') = unfinished_tasks (queues a) + k /\
    result_queue (queues a') = result_queue (queues a) /\
    counters a' = counters a /\ signals a' = signals a /\
    store a' = store a.
Proof.
  induction n as [|n IH]; intros a; simpl.
  - exists 0. rewrite app_nil_r, Nat.add_0_r. auto 10.
  - destruct (task_queue_full a).
    + exists 0. rewrite app_nil_r, Nat.add_0_r. auto 10.
    + destruct (IH (with_queues (task_put None (queues a)) a))
        as (k & E1 & E2 & E3 & E4 & E5 & E6).
      exists (S k). simpl in *.
      rewrite E1, E2, E3, E4, E5, E6, <- app_assoc. simpl.
      repeat split; auto; lia.
Qed.

Lemma somes_replicate_None {A : Type} (k : nat) :
  somes (replicate k (@None A)) = 0.
Proof. induction k; simpl; auto. Qed.

Theorem step_sound (act : action) (s s' : System) :
  sound s -> step act s = Some s' -> sound s'.
Proof.
  intros Hs Hstep. destruct act as [|i inp| | | |]; simpl in Hstep.
  - destruct (producer_step (producer s) (app s)) as [[[pc a] evs]|] eqn:E;
      [|discriminate].
    injection Hstep as <-. now apply producer_step_sound.
  - destruct (workers s !! i) as [pc|] eqn:Ei; [|discriminate].
    destruct (worker_step i inp pc (app s)) as [[[pc' a] evs]|] eqn:E;
      [|discriminate].
    injection Hstep as <-. now apply worker_step_sound with inp pc.
  - injection Hstep as <-. destruct Hs as [I1 I2 I3 I4 I5].
    destruct (check_queue_spec (app s)) as (E1 & E2 & E3 & E4 & E5 & E6).
    constructor; simpl in *; rewrite ?E1, ?E2, ?E4, ?E5; auto; try lia.
    apply E6. exact I4.
  - injection Hstep as <-. destruct Hs. constructor; auto.
  - injection Hstep as <-. destruct Hs. constructor; auto.
  - injection Hstep as <-. destruct Hs as [I1 I2 I3 I4 I5].
    unfold _stop_processing.
    match goal with |- context [feed_sentinels ?n ?a] =>
      destruct (feed_sentinels_spec n a) as (k & E1 & E2 & E3 & E4 & E5 & E6)
    end.
    constructor; simpl in *;
      rewrite ?E1, ?E2, ?E3, ?E4, ?somes_app, ?length_app,
              ?somes_replicate_None, ?length_replicate;
      simpl; auto; lia.
Qed.

Lemma run_sound (acts : list action) : forall s : System,
  sound s -> sound (run acts s).
Proof.
  induction acts as [|act acts IH]; intros s Hs; simpl; [exact Hs|].
  destruct (step act s) as [s'|] eqn:E; eauto using step_sound.
Qed.

Lemma start_sound (cfg : Settings) (t0 : Q) (src : Producer.source)
    (a : App) :
  task_queue (queues a) = [] -> unfinished_tasks (queues a) = 0 ->
  result_queue (queues a) = [] ->
  sound (_start_processing cfg t0 src a).
Proof.
  intros E1 E2 E3.
  constructor; simpl; rewrite ?E1, ?E2, ?E3, ?total_replicate; simpl; auto;
    try lia.
  intros i pc H. apply lookup_replicate in H. destruct H as [-> _].
  reflexivity.
Qed.

Lemma reachable_sound (cfg : Settings) (t0 : Q) (src : Producer.source)
    (faults : list bool) (acts : list action) :
  sound (run acts (boot cfg t0 src faults)).
Proof. apply run_sound, start_sound; reflexivity. Qed.

(** *** One Result per dequeued Task *)








(** *** Where the pushed Results go *)

Lemma worker_step_app (j : nat) (inp : winput) (pc pc' : wpc) (a a' : App)
    (evs : list hevent) :
  worker_step j inp pc a = Some (pc', a', evs) ->
  counters a' = counters a /\ signals a' = signals a.
Proof.
  intros Hstep. destruct pc; simpl in Hstep;
    repeat match type of Hstep with
           | context [match ?x with _ => _ end] => destruct x
           | context [if ?x then _ else _] => destruct x
           end;
    try discriminate; injection Hstep as <- <- <-; auto.
Qed.

Lemma producer_step_app (pc pc' : ppc) (a a' : App) (evs : list hevent) :
  producer_step pc a = Some (pc', a', evs) ->
  total_processed (counters a') = total_processed (counters a) /\
  total_ok (counters a') = total_ok (counters a) /\
  total_err (counters a') = total_err (counters a) /\
  signals a' = signals a.
Proof.
  intros Hstep. destruct pc; simpl in Hstep;
    repeat match type of Hstep with
           | context [match ?x with _ => _ end] => destruct x
           | context [if ?x then _ else _] => destruct x
           end;
    try discriminate; injection Hstep as <- <- <-; auto.
Qed.

Lemma pushed_items_app (h1 h2 : list hevent) :
  pushed_items (h1 ++ h2) = pushed_items h1 ++ pushed_items h2.
Proof.
  induction h1 as [|[item|j item|j res] h1 IH]; simpl; auto. now rewrite IH.
Qed.

Lemma queued_results_app (l1 l2 : list (option Result)) :
  queued_results (l1 ++ l2) = queued_results l1 ++ queued_results l2.
Proof.
  induction l1 as [|[r|] l1 IH]; simpl; auto. now rewrite IH.
Qed.

Lemma worker_step_stored (j : nat) (inp : winput) (pc pc' : wpc)
    (a a' : App) (evs : list hevent) :
  worker_step j inp pc a = Some (pc', a', evs) ->
  store a' = store a /\
  queued_results (result_queue (queues a'))
  = queued_results (result_queue (queues a)) ++ pushed_items evs.
Proof.
  intros Hstep. destruct pc; simpl in Hstep;
    repeat match type of Hstep with
           | context [task_done ?q] =>
               let E := fresh "E" in
               destruct (task_done q) eqn:E;
               [apply task_done_spec in E; destruct E as (_ & E & _)|]
           | context [match ?x with _ => _ end] => destruct x
           | context [if ?x then _ else _] => destruct x
           end;
    try discriminate; injection Hstep as <- <- <-; simpl;
    rewrite ?app_nil_r, ?queued_results_app; simpl; auto.
  all: rewrite E; auto.
Qed.

Lemma producer_step_stored (pc pc' : ppc) (a a' : App)
    (evs : list hevent) :
  producer_step pc a = Some (pc', a', evs) ->
  store a' = store a /\
  result_queue (queues a') = result_queue (queues a) /\
  pushed_items evs = [].
Proof.
  intros Hstep. destruct pc; simpl in Hstep;
    repeat match type of Hstep with
           | context [match ?x with _ => _ end] => destruct x
           | context [if ?x then _ else _] => destruct x
           end;
    try discriminate; injection Hstep as <- <- <-; simpl; auto.
Qed.

Lemma drain_taken (rq : list (option Result)) :
  forall (n : nat) (c : Counters) (st : Store),
  n <= 200 ->
  match Aggregator.drain rq n c st with
  | (rq', c', _) =>
      exists taken : list (option Result),
        rq = taken ++ rq' /\ n + somes taken <= 200 /\
        total_processed c' = total_processed c + somes taken /\
        (n + somes rq < 200 -> rq' = [])
  end.
Proof.
  induction rq as [|[r|] rq IH]; intros n c st Hn; cbn [Aggregator.drain].
  - exists []. simpl. repeat split; auto; lia.
  - destruct (n <? 200) eqn:E.
    + apply Nat.ltb_lt in E.
      specialize (IH (S n) (Aggregator.count_item r c)
                    (Aggregator.store_item r st) ltac:(lia)).
      destruct (Aggregator.drain rq _ _ _) as [[rq' c'] st'].
      destruct (count_item_spec r c) as (E1 & _).
      destruct IH as (taken & F1 & F2 & F3 & F4).
      exists (Some r :: taken). simpl. rewrite F1 at 1.
      repeat split; auto; try lia. intros H. apply F4. lia.
    + apply Nat.ltb_ge in E. exists []. simpl.
      repeat split; auto; try lia.
  - destruct (n <? 200) eqn:E.
    + specialize (IH n c st Hn).
      destruct (Aggregator.drain rq _ _ _) as [[rq' c'] st'].
      destruct IH as (taken & F1 & F2 & F3 & F4).
      exists (None :: taken). simpl. rewrite F1 at 1.
      repeat split; auto.
    + apply Nat.ltb_ge in E. exists []. simpl.
      repeat split; auto; try lia.
Qed.







(** *** Counters *)

Lemma step_balance (act : action) (s s' : System) :
  balance (counters (app s)) -> step act s = Some s' ->
  balance (counters (app s')).
Proof.
  unfold balance. intros Hb Hstep.
  destruct act as [|j inp| | | |]; simpl in Hstep.
  - destruct (producer_step (producer s) (app s)) as [[[pc a] evs]|] eqn:E;
      [|discriminate].
    injection Hstep as <-. simpl.
    destruct (producer_step_app _ _ _ _ _ E) as (-> & -> & -> & _).
    exact Hb.
  - destruct (workers s !! j) as [pc|]; [|discriminate].
    destruct (worker_step j inp pc (app s)) as [[[pc' a] evs]|] eqn:E;
      [|discriminate].
    injection Hstep as <-. simpl.
    destruct (worker_step_app _ _ _ _ _ _ _ E) as (-> & _). exact Hb.
  - injection Hstep as <-. simpl.
    now apply (check_queue_spec (app s)).
  - injection Hstep as <-. exact Hb.
  - injection Hstep as <-. exact Hb.
  - injection Hstep as <-. simpl. unfold _stop_processing.
    match goal with |- context [feed_sentinels ?n ?a] =>
      destruct (feed_sentinels_spec n a) as (k & _ & _ & _ & -> & _)
    end.
    exact Hb.
Qed.

Lemma run_balance (acts : list action) : forall s : System,
  balance (counters (app s)) -> balance (counters (app (run acts s))).
Proof.
  induction acts as [|act acts IH]; intros s Hs; simpl; [exact Hs|].
  destruct (step act s) as [s'|] eqn:E; eauto using step_balance.
Qed.

Lemma drain_counts (rq : list (option Result)) :
  forall (n : nat) (c : Counters) (st : Store),
  match Aggregator.drain rq n c st with
  | (rq', c', _) =>
      exists taken : list (option Result),
        rq = taken ++ rq' /\
        total_processed c' = total_processed c + somes taken /\
        total_ok c' = total_ok c + oks taken /\
        total_err c' = total_err c + errs taken
  end.
Proof.
  induction rq as [|[r|] rq IH]; intros n c st; cbn [Aggregator.drain].
  - exists []. simpl. repeat split; lia.
  - destruct (n <? 200).
    + specialize (IH (S n) (Aggregator.count_item r c)
                    (Aggregator.store_item r st)).
      destruct (Aggregator.drain rq _ _ _) as [[rq' c'] st'].
      destruct (count_item_spec r c) as (E1 & _ & _ & E2).
      destruct IH as (taken & F1 & F2 & F3 & F4).
      exists (Some r :: taken). cbn [app somes oks errs]. rewrite F1 at 1.
      split; [reflexivity|].
      destruct (String.eqb (status_code r) "200"); destruct E2 as [E2 E3];
        repeat split; lia.
    + exists []. simpl. repeat split; lia.
  - destruct (n <? 200).
    + specialize (IH n c st).
      destruct (Aggregator.drain rq _ _ _) as [[rq' c'] st'].
      destruct IH as (taken & F1 & F2 & F3 & F4).
      exists (None :: taken). cbn [app somes oks errs]. rewrite F1 at 1.
      repeat split; auto.
    + exists []. simpl. repeat split; lia.
Qed.

(** C10.  [_start_processing] sets every counter to zero, whatever state
    the previous run left.  One counted Result raises [total_processed]
    by one and exactly one of [total_ok] (status code ["200"]) and
    [total_err] (any other).  Every drained Result is counted so: one
    timer callback takes items from the front of the result queue and
    raises [total_processed] by the number of Results among them,
    [total_ok] by the number of those with status ["200"] and
    [total_err] by the number of the others.  Hence [total_processed =
    total_ok + total_err] holds after each drained item and in every
    state the run reaches, under any schedule. *)
Theorem processed_is_ok_plus_err (cfg : Settings) (t0 : Q)
    (src : Producer.source) (a0 : App) (acts : list action) :
  let s0 := _start_processing cfg t0 src a0 in
  counters (app s0) =
    {| total_to_process := 0; total_enqueued := 0; total_processed := 0;
       total_ok := 0; total_err := 0 |} /\
  (forall (item : Result) (c : Counters),
     let c' := Aggregator.count_item item c in
     total_processed c' = S (total_processed c) /\
     (if String.eqb (status_code item) "200"
      then total_ok c' = S (total_ok c) /\ total_err c' = total_err c
      else total_ok c' = total_ok c /\ total_err c' = S (total_err c)) /\
     (total_processed c = total_ok c + total_err c ->
      total_processed c' = total_ok c' + total_err c')) /\
  (forall a : App,
     let a' := Aggregator._check_queue a in
     exists taken : list (option Result),
       result_queue (queues a) = taken ++ result_queue (queues a') /\
       total_processed (counters a')
       = total_processed (counters a) + somes taken /\
       total_ok (counters a') = total_ok (counters a) + oks taken /\
       total_err (counters a') = total_err (counters a) + errs taken /\
       somes taken = oks taken + errs taken) /\
  (let c := counters (app (run acts s0)) in
   total_processed c = total_ok c + total_err c).
Proof.
  split; [reflexivity|]. split; [|split].
  - intros item c c'.
    destruct (count_item_spec item c) as (E1 & _ & _ & E2).
    split; [exact E1|]. split; [exact E2|].
    apply count_item_balance.
  - intros a a'. unfold a', Aggregator._check_queue.
    pose proof (drain_counts (result_queue (queues a)) 0 (counters a)
                  (store a)) as H.
    destruct (Aggregator.drain _ _ _ _) as [[rq c] st].
    destruct H as (taken & H1 & H2 & H3 & H4).
    exists taken.
    assert (H5 : somes taken = oks taken + errs taken).
    { clear. induction taken as [|[r|] l IH]; simpl; auto.
      destruct (String.eqb (status_code r) "200"); lia. }
    destruct (is_processing _); [destruct (Aggregator.finished _)|];
      simpl; auto 6.
  - apply run_balance. reflexivity.
Qed.

(** *** The pause gate *)








(** *** Finalization *)





(** *** The producer thread against the producer function *)

Lemma enqueued_items_app (h1 h2 : list hevent) :
  enqueued_items (h1 ++ h2) = enqueued_items h1 ++ enqueued_items h2.
Proof.
  induction h1 as [|[item|j item|j res] h1 IH]; simpl; auto. now rewrite IH.
Qed.

Lemma producer_step_on_course (pc pc' : ppc) (a a' : App)
    (evs : list hevent) :
  stop_event (signals a) = false ->
  producer_step pc a = Some (pc', a', evs) ->
  max_workers a' = max_workers a /\
  enqueued_items evs ++ to_come (max_workers a) pc'
  = to_come (max_workers a) pc.
Proof.
  intros Hs Hstep.
  destruct pc as [src seen|skus src seen|k skus src seen
                  |skus src seen|n| |]; simpl in Hstep.
  - rewrite Hs in Hstep.
    destruct src as [|[chunk|] rest]; injection Hstep as <- <- <-;
      simpl; auto.
  - rewrite Hs in Hstep. destruct skus as [|k rest].
    + injection Hstep as <- <- <-. simpl; auto.
    + destruct (decide (k ∈ seen)) as [Hin|Hout];
        injection Hstep as <- <- <-; simpl; split; auto.
      * now rewrite ProducerFacts.fresh_seen.
      * now rewrite ProducerFacts.fresh_new.
  - destruct (task_queue_full a); [discriminate|].
    injection Hstep as <- <- <-. simpl; auto.
  - injection Hstep as <- <- <-. simpl; auto.
  - destruct n as [|n];
      [| destruct (task_queue_full a); [discriminate|]];
      injection Hstep as <- <- <-; simpl; auto.
  - injection Hstep as <- <- <-. simpl; auto.
  - discriminate.
Qed.

Lemma worker_step_on_course (j : nat) (inp : winput) (pc pc' : wpc)
    (a a' : App) (evs : list hevent) :
  worker_step j inp pc a = Some (pc', a', evs) ->
  max_workers a' = max_workers a /\ enqueued_items evs = [].
Proof.
  intros Hstep. destruct pc; simpl in Hstep;
    repeat match type of Hstep with
           | context [match ?x with _ => _ end] => destruct x
           | context [if ?x then _ else _] => destruct x
           end;
    try discriminate; injection Hstep as <- <- <-; auto.
Qed.

Lemma check_queue_on_course (a : App) :
  stop_event (signals (Aggregator._check_queue a)) = stop_event (signals a) /\
  max_workers (Aggregator._check_queue a) = max_workers a.
Proof.
  unfold Aggregator._check_queue.
  destruct (Aggregator.drain _ _ _ _) as [[rq c] st]. simpl.
  destruct (is_processing (signals a)); [|auto].
  destruct (Aggregator.finished _); auto.
Qed.

Lemma step_on_course (expected : list (option string)) (act : action)
    (s s' : System) :
  on_course expected s -> act <> Stop -> step act s = Some s' ->
  on_course expected s'.
Proof.
  intros [Hs He] Hact Hstep.
  destruct act as [|j inp| | | |]; simpl in Hstep; try congruence.
  - destruct (producer_step (producer s) (app s)) as [[[pc a] evs]|] eqn:E;
      [|discriminate].
    injection Hstep as <-.
    destruct (producer_step_app _ _ _ _ _ E) as (_ & _ & _ & Hg).
    destruct (producer_step_on_course _ _ _ _ _ Hs E) as [Hm Hc].
    split; simpl; [now rewrite Hg|].
    rewrite enqueued_items_app, <- app_assoc, Hm, Hc. exact He.
  - destruct (workers s !! j) as [pc|]; [|discriminate].
    destruct (worker_step j inp pc (app s)) as [[[pc' a] evs]|] eqn:E;
      [|discriminate].
    injection Hstep as <-.
    destruct (worker_step_app _ _ _ _ _ _ _ E) as (_ & Hg).
    destruct (worker_step_on_course _ _ _ _ _ _ _ E) as [Hm Hc].
    split; simpl; [now rewrite Hg|].
    rewrite enqueued_items_app, Hc, app_nil_r, Hm. exact He.
  - injection Hstep as <-.
    destruct (check_queue_on_course (app s)) as [E1 E2].
    split; simpl; [now rewrite E1 | now rewrite E2].
  - injection Hstep as <-. split; simpl; auto.
  - injection Hstep as <-. split; simpl; auto.
Qed.

Lemma run_on_course (expected : list (option string)) (acts : list action) :
  forall s : System,
  on_course expected s -> Forall (fun act => act <> Stop) acts ->
  on_course expected (run acts s).
Proof.
  induction acts as [|act acts IH]; intros s Hs Hacts; simpl; [exact Hs|].
  inversion Hacts as [|? ? Hact Hrest]; subst.
  destruct (step act s) as [s'|] eqn:E; eauto using step_on_course.
Qed.

(** X12.  The producer thread of the interleaved model does what
    [Producer._producer_from_csv] does: in a run without a stop request,
    once the thread has ended, the items it has put on the task queue are
    those of the function, and [total_to_process] is published. *)
Theorem producer_thread_refines (cfg : Settings) (t0 : Q)
    (src : Producer.source) (fs : list bool) (acts : list action) :
  let s := run acts (boot cfg t0 src fs) in
  Forall (fun act => act <> Stop) acts ->
  producer s = PDone ->
  enqueued_items (history s)
  = Producer.queued
      (Producer._producer_from_csv (fun _ => false)
         (Z.to_nat (Z.max 1 (cfg_max_workers cfg))) src).
Proof.
  intros s Hacts Hdone.
  destruct (ProducerFacts.chunks_loop_puts (fun _ => false) src
              (fun _ => eq_refl)
              {| Producer.seen := ∅; Producer.puts := [];
                 Producer.total_enqueued := 0; Producer.polls := 0 |})
    as (Hq & _).
  unfold Producer._producer_from_csv. cbn [Producer.queued].
  rewrite Hq. cbn [Producer.puts Producer.seen app].
  rewrite ProducerFacts.filter_all
    by (intros k _; apply not_elem_of_empty).
  assert (H0 : on_course
                 (map Some (Producer.first_occurrences (Producer.surviving src))
                  ++ replicate (Z.to_nat (Z.max 1 (cfg_max_workers cfg))) None)
                 (boot cfg t0 src fs)).
  { split; [reflexivity|]. simpl. unfold Producer.fresh.
    rewrite ProducerFacts.filter_all; [reflexivity|].
    intros k _. apply not_elem_of_empty. }
  destruct (run_on_course _ acts _ H0 Hacts) as [_ He].
  fold s in He. rewrite Hdone in He. simpl in He.
  rewrite app_nil_r in He. exact He.
Qed.

Lemma producer_thread_refines_witness :
  enqueued_items (history (run (replicate 9 Produce) booted))
  = Producer.queued
      (Producer._producer_from_csv (fun _ => false) 1 one_key).
Proof.
  assert (Hacts : Forall (fun act => act <> Stop) (replicate 9 Produce)).
  { repeat constructor; discriminate. }
  assert (Hdone : producer (run (replicate 9 Produce)
                              (boot solo 0 one_key [])) = PDone)
    by (vm_compute; reflexivity).
  exact (producer_thread_refines solo 0 one_key [] (replicate 9 Produce)
           Hacts Hdone).
Defined.

(** *** Conservation *)

(** X13.  In every state a run can reach, each Task the producer has put
    is in exactly one place: waiting in the task queue, in the hands of a
    worker, waiting in the result queue, or counted as processed; and
    [unfinished_tasks] is the length of the task queue plus the
    [task_done()] calls the workers owe.  Since the producer counts a
    Task only after putting it, [total_processed] can run ahead of
    [total_enqueued], by one at most. *)
Theorem tasks_are_conserved (cfg : Settings) (t0 : Q)
    (src : Producer.source) (fs : list bool) (acts : list action) :
  let s := run acts (boot cfg t0 src fs) in
  let a := app s in
  total_enqueued (counters a) + lag (producer s)
  = somes (task_queue (queues a)) + total holding (workers s)
    + somes (result_queue (queues a)) + total_processed (counters a) /\
  unfinished_tasks (queues a)
  = length (task_queue (queues a)) + total owing (workers s) /\
  total_processed (counters a) <= S (total_enqueued (counters a)).
Proof.
  intros s a.
  destruct (reachable_sound cfg t0 src fs acts) as [I1 I2 _ _ _].
  fold s in I1, I2. fold a in I1, I2.
  split; [exact I1|]. split; [exact I2|].
  assert (lag (producer s) <= 1) by (destruct (producer s); simpl; lia).
  lia.
Qed.

(** *** Tasks leave the queue in the order they entered it *)

Lemma dequeued_items_app (h1 h2 : list hevent) :
  dequeued_items (h1 ++ h2) = dequeued_items h1 ++ dequeued_items h2.
Proof.
  induction h1 as [|[item|j item|j res] h1 IH]; simpl; auto. now rewrite IH.
Qed.

Lemma keys_app (l1 l2 : list (option string)) :
  keys (l1 ++ l2) = keys l1 ++ keys l2.
Proof.
  induction l1 as [|[k|] l1 IH]; simpl; auto. now rewrite IH.
Qed.

Lemma keys_replicate_None (n : nat) : keys (replicate n None) = [].
Proof. induction n; simpl; auto. Qed.

Lemma worker_step_in_order (j : nat) (inp : winput) (pc pc' : wpc)
    (a a' : App) (evs : list hevent) :
  worker_step j inp pc a = Some (pc', a', evs) ->
  enqueued_items evs = [] /\
  dequeued_items evs ++ task_queue (queues a') = task_queue (queues a).
Proof.
  intros Hstep. destruct pc; simpl in Hstep;
    repeat match type of Hstep with
           | context [task_done ?q] =>
               let E := fresh "E" in
               destruct (task_done q) eqn:E;
               [apply task_done_spec in E; destruct E as (E & _)|]
           | context [match ?x with _ => _ end] => destruct x
           | context [if ?x then _ else _] => destruct x
           end;
    try discriminate; injection Hstep as <- <- <-; simpl; auto.
Qed.

Lemma producer_step_in_order (pc pc' : ppc) (a a' : App)
    (evs : list hevent) :
  producer_step pc a = Some (pc', a', evs) ->
  dequeued_items evs = [] /\
  task_queue (queues a') = task_queue (queues a) ++ enqueued_items evs.
Proof.
  intros Hstep. destruct pc; simpl in Hstep;
    repeat match type of Hstep with
           | context [match ?x with _ => _ end] => destruct x
           | context [if ?x then _ else _] => destruct x
           end;
    try discriminate; injection Hstep as <- <- <-; simpl;
    rewrite ?app_nil_r; auto.
Qed.

Lemma step_in_order (act : action) (s s' : System) :
  in_order s -> step act s = Some s' -> in_order s'.
Proof.
  unfold in_order. intros Hs Hstep.
  destruct act as [|j inp| | | |]; simpl in Hstep.
  - destruct (producer_step (producer s) (app s)) as [[[pc a] evs]|] eqn:E;
      [|discriminate].
    injection Hstep as <-. simpl.
    destruct (producer_step_in_order _ _ _ _ _ E) as [E1 E2].
    rewrite dequeued_items_app, enqueued_items_app, E1, E2, app_nil_r.
    rewrite !keys_app, app_assoc, Hs. reflexivity.
  - destruct (workers s !! j) as [pc|]; [|discriminate].
    destruct (worker_step j inp pc (app s)) as [[[pc' a] evs]|] eqn:E;
      [|discriminate].
    injection Hstep as <-. simpl.
    destruct (worker_step_in_order _ _ _ _ _ _ _ E) as [E1 E2].
    rewrite dequeued_items_app, enqueued_items_app, E1, app_nil_r.
    rewrite keys_app, <- app_assoc, <- keys_app, E2. exact Hs.
  - injection Hstep as <-. simpl.
    destruct (check_queue_spec (app s)) as (E1 & _). rewrite E1. exact Hs.
  - injection Hstep as <-. exact Hs.
  - injection Hstep as <-. exact Hs.
  - injection Hstep as <-. simpl. unfold _stop_processing.
    match goal with |- context [feed_sentinels ?n ?a] =>
      destruct (feed_sentinels_spec n a) as (k & E1 & _)
    end.
    rewrite E1. simpl. rewrite keys_app, keys_replicate_None, app_nil_r.
    exact Hs.
Qed.

(** X14.  The task queue hands Tasks out in the order the producer put
    them, none skipped and none twice: in every reachable state the Tasks
    dequeued so far (by all workers, in the order of the [get()] calls)
    followed by the Tasks still queued are the Tasks enqueued so far.
    This holds across pause, resume and stop. *)
Theorem tasks_dequeued_in_order (cfg : Settings) (t0 : Q)
    (src : Producer.source) (fs : list bool) (acts : list action) :
  let s := run acts (boot cfg t0 src fs) in
  keys (dequeued_items (history s)) ++ keys (task_queue (queues (app s)))
  = keys (enqueued_items (history s)).
Proof.
  cbv zeta. change (in_order (run acts (boot cfg t0 src fs))).
  assert (H0 : in_order (boot cfg t0 src fs)) by reflexivity.
  revert H0. generalize (boot cfg t0 src fs).
  induction acts as [|act acts IH]; intros s Hs; simpl; [exact Hs|].
  destruct (step act s) as [s'|] eqn:E; eauto using step_in_order.
Qed.


(** *** A stopped run *)

Lemma total_le (f g : wpc -> nat) (ws : list wpc) :
  (forall pc, f pc <= g pc) -> total f ws <= total g ws.
Proof.
  intros H. induction ws as [|w ws IH]; simpl; [lia|].
  specialize (H w). lia.
Qed.

Lemma total_waiting_length (ws : list wpc) : total waiting ws <= length ws.
Proof.
  induction ws as [|w ws IH]; simpl; [lia|]. destruct w; simpl; lia.
Qed.

Lemma nones_le_length {A : Type} (l : list (option A)) : nones l <= length l.
Proof. induction l as [|[x|] l IH]; simpl; lia. Qed.

Lemma nones_app {A : Type} (l1 l2 : list (option A)) :
  nones (l1 ++ l2) = nones l1 + nones l2.
Proof. induction l1 as [|[x|] l1 IH]; simpl; lia. Qed.

Lemma worker_step_surplus (j : nat) (inp : winput) (pc pc' : wpc)
    (a a' : App) (evs : list hevent) :
  worker_step j inp pc a = Some (pc', a', evs) ->
  signals a' = signals a /\ max_workers a' = max_workers a /\
  (if stop_event (signals a)
   then waiting pc' + length (task_queue (queues a))
        <= waiting pc + length (task_queue (queues a'))
   else seeking pc' + nones (task_queue (queues a))
        <= seeking pc + nones (task_queue (queues a'))).
Proof.
  intros Hstep. destruct pc; simpl in Hstep.
  - injection Hstep as <- <- <-.
    destruct (stop_event (signals a)); simpl; auto; try lia.
  - destruct (task_queue (queues a)) as [|[k|] rest] eqn:Eq; [discriminate| |];
      injection Hstep as <- <- <-; simpl; rewrite ?Eq;
      destruct (stop_event (signals a)); simpl; auto; try lia.
  - destruct (task_done (queues a)) as [q|] eqn:E;
      [apply task_done_spec in E; destruct E as (E & _)|];
      injection Hstep as <- <- <-; simpl; rewrite ?E;
      destruct (stop_event (signals a)); simpl; auto; try lia.
  - destruct (pause_event (signals a)); [|discriminate].
    injection Hstep as <- <- <-.
    destruct (stop_event (signals a)); simpl; auto; try lia.
  - destruct (rate_limiter a) as [rl|];
      [destruct (RateLimiter.acquire_locked rl (now inp)) as [rl' [|]]|];
      injection Hstep as <- <- <-; simpl;
      destruct (stop_event (signals a)); simpl; auto; try lia.
  - destruct (Lookup._fetch_order_details (remote inp) (now inp) key);
      injection Hstep as <- <- <-;
      destruct (stop_event (signals a)); simpl; auto; try lia.
  - destruct (length (result_queue (queues a)) <? RESULT_QUEUE_MAX);
      [|discriminate].
    injection Hstep as <- <- <-. simpl.
    destruct (stop_event (signals a)); simpl; auto; try lia.
  - destruct (task_done (queues a)) as [q|] eqn:E;
      [apply task_done_spec in E; destruct E as (E & _)|];
      injection Hstep as <- <- <-; simpl; rewrite ?E;
      destruct (stop_event (signals a)); simpl; auto; try lia.
  - discriminate.
  - discriminate.
Qed.

Lemma producer_step_surplus (pc pc' : ppc) (a a' : App)
    (evs : list hevent) :
  producer_step pc a = Some (pc', a', evs) ->
  signals a' = signals a /\ max_workers a' = max_workers a /\
  length (task_queue (queues a)) + sentinels_to_come (max_workers a) pc
  <= length (task_queue (queues a'))
     + sentinels_to_come (max_workers a) pc' /\
  nones (task_queue (queues a)) + sentinels_to_come (max_workers a) pc
  <= nones (task_queue (queues a'))
     + sentinels_to_come (max_workers a) pc'.
Proof.
  intros Hstep. destruct pc; simpl in Hstep;
    repeat match type of Hstep with
           | context [match ?x with _ => _ end] => destruct x
           | context [if ?x then _ else _] => destruct x
           end;
    try discriminate; injection Hstep as <- <- <-; simpl;
    rewrite ?length_app, ?nones_app; simpl; repeat split; lia.
Qed.

Lemma feed_sentinels_fed (n : nat) : forall a : App,
  signals (feed_sentinels n a) = signals a /\
  max_workers (feed_sentinels n a) = max_workers a /\
  length (task_queue (queues a))
  <= length (task_queue (queues (feed_sentinels n a))) /\
  (0 < n ->
   TASK_QUEUE_MAX <= length (task_queue (queues a)) \/
   length (task_queue (queues a))
   < length (task_queue (queues (feed_sentinels n a)))).
Proof.
  induction n as [|n IH]; intros a; cbn [feed_sentinels].
  - repeat split; auto; lia.
  - unfold task_queue_full.
    destruct (TASK_QUEUE_MAX <=? length (task_queue (queues a))) eqn:E.
    + apply Nat.leb_le in E. repeat split; auto.
    + destruct (IH (with_queues (task_put None (queues a)) a))
        as (E1 & E2 & E3 & _).
      simpl in *. rewrite length_app in E3. simpl in E3.
      repeat split; auto; lia.
Qed.

Lemma step_surplus (act : action) (s s' : System) :
  surplus s -> step act s = Some s' -> surplus s'.
Proof.
  intros [I1 I2 I3] Hstep. destruct act as [|j inp| | | |]; simpl in Hstep.
  - destruct (producer_step (producer s) (app s)) as [[[pc a] evs]|] eqn:E;
      [|discriminate].
    injection Hstep as <-.
    destruct (producer_step_surplus _ _ _ _ _ E) as (E1 & E2 & E3 & E4).
    constructor; simpl; rewrite ?E1, ?E2; auto.
    destruct (stop_event (signals (app s))); lia.
  - destruct (workers s !! j) as [pc|] eqn:Ej; [|discriminate].
    destruct (worker_step j inp pc (app s)) as [[[pc' a] evs]|] eqn:E;
      [|discriminate].
    injection Hstep as <-.
    destruct (worker_step_surplus _ _ _ _ _ _ _ E) as (E1 & E2 & E3).
    constructor; simpl; rewrite ?E1, ?E2, ?length_insert; auto.
    pose proof (total_insert waiting (workers s) j pc pc' Ej).
    pose proof (total_insert seeking (workers s) j pc pc' Ej).
    destruct (stop_event (signals (app s))); lia.
  - injection Hstep as <-.
    destruct (check_queue_spec (app s)) as (E1 & _).
    destruct (check_queue_on_course (app s)) as [E2 E3].
    constructor; simpl; rewrite ?E1, ?E2, ?E3; auto.
  - injection Hstep as <-. constructor; simpl; auto.
  - injection Hstep as <-. constructor; simpl; auto.
  - injection Hstep as <-. unfold _stop_processing.
    match goal with |- context [feed_sentinels ?n ?a] =>
      destruct (feed_sentinels_fed n a) as (E1 & E2 & E3 & E4)
    end.
    constructor; simpl in *; rewrite ?E1, ?E2; simpl; auto.
    specialize (E4 ltac:(lia)).
    pose proof (total_waiting_length (workers s)).
    pose proof (total_le waiting seeking (workers s)
                  ltac:(intros []; simpl; lia)).
    pose proof (nones_le_length (task_queue (queues (app s)))).
    destruct (stop_event (signals (app s))); lia.
Qed.

Lemma start_surplus (cfg : Settings) (t0 : Q) (src : Producer.source)
    (fs : list bool) :
  (cfg_max_workers cfg < 5000)%Z -> surplus (boot cfg t0 src fs).
Proof.
  intros Hn. constructor; simpl.
  - now rewrite length_replicate.
  - rewrite length_replicate. unfold TASK_QUEUE_MAX. lia.
  - rewrite total_replicate. simpl. lia.
Qed.

(** With the stop event set, the guard of [_finalize_processing] is
    false. *)
Lemma stopped_not_finished (s : System) (a1 : App) :
  sound s -> surplus s -> stop_event (signals (app s)) = true ->
  total_to_process (counters a1) = total_to_process (counters (app s)) ->
  unfinished_tasks (queues a1) = unfinished_tasks (queues (app s)) ->
  Aggregator.finished a1 = false.
Proof.
  intros [_ I2 I3 _ _] [_ _ J] Hs E1 E2. rewrite Hs in J.
  unfold Aggregator.finished. rewrite E1, E2.
  destruct (producer s) eqn:Ep;
    try (rewrite I3; cbn [Nat.ltb Nat.leb];
         rewrite Bool.andb_false_r; reflexivity).
  simpl in J.
  assert (E : (unfinished_tasks (queues (app s)) =? 0) = false)
    by (apply Nat.eqb_neq; lia).
  rewrite E, Bool.andb_false_r. reflexivity.
Qed.

Lemma check_queue_stopped (s : System) :
  sound s -> surplus s -> stop_event (signals (app s)) = true ->
  is_processing (signals (Aggregator._check_queue (app s)))
  = is_processing (signals (app s)).
Proof.
  intros Hsound Hsur Hs. unfold Aggregator._check_queue.
  pose proof (drain_spec (result_queue (queues (app s))) 0
                (counters (app s)) (store (app s))) as H.
  destruct (Aggregator.drain _ _ _ _) as [[rq c] st].
  destruct H as (_ & _ & H3 & _).
  cbn [with_store with_counters with_queues signals].
  destruct (is_processing (signals (app s))) eqn:Ep; [|exact Ep].
  rewrite (stopped_not_finished s _ Hsound Hsur Hs); [exact Ep| |];
    simpl; auto.
Qed.

Lemma step_stopped (act : action) (s s' : System) :
  sound s -> surplus s -> stop_event (signals (app s)) = true ->
  step act s = Some s' ->
  stop_event (signals (app s')) = true /\
  is_processing (signals (app s')) = is_processing (signals (app s)).
Proof.
  intros Hsound Hsur Hs Hstep.
  destruct act as [|j inp| | | |]; simpl in Hstep.
  - destruct (producer_step (producer s) (app s)) as [[[pc a] evs]|] eqn:E;
      [|discriminate].
    injection Hstep as <-.
    destruct (producer_step_surplus _ _ _ _ _ E) as (E1 & _).
    simpl. rewrite E1. auto.
  - destruct (workers s !! j) as [pc|] eqn:Ej; [|discriminate].
    destruct (worker_step j inp pc (app s)) as [[[pc' a] evs]|] eqn:E;
      [|discriminate].
    injection Hstep as <-.
    destruct (worker_step_surplus _ _ _ _ _ _ _ E) as (E1 & _).
    simpl. rewrite E1. auto.
  - injection Hstep as <-. simpl.
    destruct (check_queue_on_course (app s)) as [E1 _].
    rewrite E1. split; [exact Hs|]. now apply check_queue_stopped.
  - injection Hstep as <-. simpl. auto.
  - injection Hstep as <-. simpl. auto.
  - injection Hstep as <-. simpl. unfold _stop_processing.
    match goal with |- context [feed_sentinels ?n ?a] =>
      destruct (feed_sentinels_fed n a) as (E1 & _)
    end.
    rewrite E1. simpl. auto.
Qed.

Lemma run_surplus (acts : list action) : forall s : System,
  surplus s -> surplus (run acts s).
Proof.
  induction acts as [|act acts IH]; intros s Hs; simpl; [exact Hs|].
  destruct (step act s) as [s'|] eqn:E; eauto using step_surplus.
Qed.

Lemma run_stopped (acts : list action) : forall s : System,
  sound s -> surplus s -> stop_event (signals (app s)) = true ->
  stop_event (signals (app (run acts s))) = true /\
  is_processing (signals (app (run acts s)))
  = is_processing (signals (app s)).
Proof.
  induction acts as [|act acts IH]; intros s Hsound Hsur Hs; simpl; [auto|].
  destruct (step act s) as [s'|] eqn:E; [|now apply IH].
  destruct (step_stopped act s s' Hsound Hsur Hs E) as [E1 E2].
  destruct (IH s' (step_sound _ _ _ Hsound E) (step_surplus _ _ _ Hsur E) E1)
    as [F1 F2].
  split; [exact F1 | now rewrite F2].
Qed.

(** X15.  A stopped run is never finalized.  With fewer than 5000 workers,
    once the stop event is set [is_processing] keeps the value it has,
    under every schedule: the producer's sentinels and those of
    [_stop_processing] outnumber the workers left to take them, so either
    the producer has not published [total_to_process] or
    [unfinished_tasks] is not zero, and the guard of
    [_finalize_processing] stays false. *)
Theorem stopped_run_never_finalizes (cfg : Settings) (t0 : Q)
    (src : Producer.source) (fs : list bool) (acts1 acts2 : list action) :
  (cfg_max_workers cfg < 5000)%Z ->
  let s1 := run acts1 (boot cfg t0 src fs) in
  stop_event (signals (app s1)) = true ->
  is_processing (signals (app (run acts2 s1)))
  = is_processing (signals (app s1)) /\
  stop_event (signals (app (run acts2 s1))) = true.
Proof.
  intros Hn s1 Hs.
  destruct (run_stopped acts2 s1) as [E1 E2]; auto.
  - apply reachable_sound.
  - apply run_surplus, start_surplus, Hn.
Qed.

Lemma stopped_run_never_finalizes_witness :
  is_processing (signals (app (run (drained ++ [Poll]) stopped_early)))
  = true.
Proof.
  assert (Hn : (cfg_max_workers solo < 5000)%Z) by reflexivity.
  assert (Hs : stop_event
                 (signals (app (run [Stop] (boot solo 0 one_key [])))) = true)
    by reflexivity.
  assert (Hp : is_processing
                 (signals (app (run [Stop] (boot solo 0 one_key [])))) = true)
    by reflexivity.
  exact (eq_trans
           (proj1 (stopped_run_never_finalizes solo 0 one_key [] [Stop]
                     (drained ++ [Poll]) Hn Hs)) Hp).
Defined.


(** *** The store *)

Lemma store_item_reliable (r : Result) (st : Store) :
  faults (db st) = [] ->
  _pending_db_count st = length (staged (db st)) ->
  _pending_db_count st < DB_COMMIT_BATCH_SIZE ->
  let st' := Aggregator.store_item r st in
  faults (db st') = [] /\
  all_rows (db st') = all_rows (db st) ++ [r] /\
  _pending_db_count st' = length (staged (db st')) /\
  _pending_db_count st' < DB_COMMIT_BATCH_SIZE.
Proof.
  intros Hf Hp Hb. unfold Aggregator.store_item.
  destruct (DB_COMMIT_BATCH_SIZE <=? S (_pending_db_count st)) eqn:E.
  - unfold db_commit, db_add. cbn [faults staged committed]. rewrite Hf.
    cbn [db _pending_db_count faults staged committed tl length].
    unfold all_rows. cbn [staged committed].
    rewrite concat_app. cbn [concat]. rewrite !app_nil_r, app_assoc.
    unfold DB_COMMIT_BATCH_SIZE. repeat split; auto; lia.
  - apply Nat.leb_gt in E. unfold db_add, all_rows.
    cbn [db _pending_db_count faults staged committed].
    rewrite length_app, app_assoc. cbn [length].
    repeat split; auto; lia.
Qed.

Lemma drain_reliable (rq : list (option Result)) :
  forall (n : nat) (c : Counters) (st : Store),
  faults (db st) = [] ->
  _pending_db_count st = length (staged (db st)) ->
  _pending_db_count st < DB_COMMIT_BATCH_SIZE ->
  match Aggregator.drain rq n c st with
  | (rq', c', st') =>
      faults (db st') = [] /\
      all_rows (db st') ++ queued_results rq' = all_rows (db st) ++ queued_results rq /\
      length (all_rows (db st')) + total_processed c
      = length (all_rows (db st)) + total_processed c' /\
      _pending_db_count st' = length (staged (db st')) /\
      _pending_db_count st' < DB_COMMIT_BATCH_SIZE
  end.
Proof.
  induction rq as [|[r|] rq IH]; intros n c st Hf Hp Hb;
    cbn [Aggregator.drain].
  - auto.
  - destruct (n <? 200); [|auto].
    destruct (store_item_reliable r st Hf Hp Hb) as (F1 & F2 & F3 & F4).
    specialize (IH (S n) (Aggregator.count_item r c)
                  (Aggregator.store_item r st) F1 F3 F4).
    destruct (Aggregator.drain rq _ _ _) as [[rq' c'] st'].
    destruct (count_item_spec r c) as (E1 & _).
    destruct IH as (G1 & G2 & G3 & G4 & G5).
    rewrite F2 in G2, G3. rewrite length_app in G3. cbn [length] in G3.
    rewrite <- app_assoc in G2. cbn [queued_results].
    repeat split; auto. lia.
  - destruct (n <? 200); [|auto]. cbn [queued_results]. now apply IH.
Qed.

Lemma finalize_reliable (a : App) :
  faults (db (store a)) = [] ->
  _pending_db_count (store a) = length (staged (db (store a))) ->
  let a' := Aggregator._finalize_processing a in
  faults (db (store a')) = [] /\
  all_rows (db (store a')) = all_rows (db (store a)) /\
  _pending_db_count (store a') = length (staged (db (store a'))) /\
  (_pending_db_count (store a) < DB_COMMIT_BATCH_SIZE ->
   _pending_db_count (store a') < DB_COMMIT_BATCH_SIZE) /\
  queues a' = queues a /\ counters a' = counters a.
Proof.
  intros Hf Hp. unfold Aggregator._finalize_processing.
  cbn [with_signals with_store store queues counters].
  destruct (_pending_db_count (store a)) eqn:E; [repeat split; auto; lia|].
  unfold db_commit. rewrite Hf.
  cbn [db _pending_db_count faults staged committed tl length].
  unfold all_rows. cbn [staged committed].
  rewrite concat_app. cbn [concat]. rewrite !app_nil_r.
  unfold DB_COMMIT_BATCH_SIZE. repeat split; auto; lia.
Qed.

Lemma check_queue_reliable (h : list hevent) (a : App) (pc : ppc)
    (ws : list wpc) :
  stored {| app := a; producer := pc; workers := ws; history := h |} ->
  stored {| app := Aggregator._check_queue a; producer := pc;
            workers := ws; history := h |}.
Proof.
  intros [I1 I2 I3 I4 I5]. cbn [app history] in *.
  unfold Aggregator._check_queue.
  pose proof (drain_reliable (result_queue (queues a)) 0 (counters a)
                (store a) I1 I4 I5) as H.
  destruct (Aggregator.drain _ _ _ _) as [[rq c] st].
  destruct H as (H1 & H2 & H3 & H4 & H5).
  set (a1 := with_store st
               (with_counters c
                  (with_queues (with_result_queue rq (queues a)) a))).
  assert (S1 : stored {| app := a1; producer := pc; workers := ws;
                         history := h |}).
  { constructor; cbn [app history a1 with_store with_counters with_queues
                      with_result_queue store queues counters result_queue];
      auto; [congruence | lia]. }
  destruct (is_processing (signals a1)); [|exact S1].
  destruct (Aggregator.finished a1); [|exact S1].
  destruct S1 as [J1 J2 J3 J4 J5]. cbn [app history] in *.
  destruct (finalize_reliable a1 J1 J4) as (F1 & F2 & F3 & F4 & F5 & F6).
  constructor; cbn [app history]; rewrite ?F2, ?F5, ?F6; auto.
Qed.

Lemma step_stored (act : action) (s s' : System) :
  stored s -> step act s = Some s' -> stored s'.
Proof.
  intros Hs Hstep. destruct act as [|j inp| | | |]; simpl in Hstep.
  - destruct (producer_step (producer s) (app s)) as [[[pc a] evs]|] eqn:E;
      [|discriminate].
    injection Hstep as <-. destruct Hs as [I1 I2 I3 I4 I5].
    destruct (producer_step_stored _ _ _ _ _ E) as (E1 & E2 & E3).
    destruct (producer_step_app _ _ _ _ _ E) as (E4 & _).
    constructor; cbn [app history];
      rewrite ?E1, ?E2, ?E4, ?pushed_items_app, ?E3, ?app_nil_r; auto.
  - destruct (workers s !! j) as [pc|] eqn:Ej; [|discriminate].
    destruct (worker_step j inp pc (app s)) as [[[pc' a] evs]|] eqn:E;
      [|discriminate].
    injection Hstep as <-. destruct Hs as [I1 I2 I3 I4 I5].
    destruct (worker_step_stored _ _ _ _ _ _ _ E) as (E1 & E2).
    destruct (worker_step_app _ _ _ _ _ _ _ E) as (E4 & _).
    constructor; cbn [app history];
      rewrite ?E1, ?E2, ?E4, ?pushed_items_app, ?app_assoc, ?I2; auto.
  - injection Hstep as <-. destruct s as [a pc ws h].
    now apply check_queue_reliable.
  - injection Hstep as <-. destruct Hs. constructor; auto.
  - injection Hstep as <-. destruct Hs. constructor; auto.
  - injection Hstep as <-. destruct Hs as [I1 I2 I3 I4 I5].
    unfold _stop_processing.
    match goal with |- context [feed_sentinels ?n ?a] =>
      destruct (feed_sentinels_spec n a) as (k & _ & _ & E3 & E4 & _ & E6)
    end.
    constructor; cbn [app history] in *; rewrite ?E3, ?E4, ?E6; auto.
Qed.

(** X16.  With a store whose commits never fail nothing is lost between
    the workers and the store: in every reachable state the rows of the
    store, committed or staged, followed by the Results still in the
    result queue are exactly the Results the workers have pushed, in
    push order; [total_processed] is the number of rows; and the pending
    counter is the number of staged rows, below the batch size of 500. *)
Theorem reliable_store_keeps_every_result (cfg : Settings) (t0 : Q)
    (src : Producer.source) (acts : list action) :
  let s := run acts (boot cfg t0 src []) in
  let d := db (store (app s)) in
  all_rows d ++ queued_results (result_queue (queues (app s)))
  = pushed_items (history s) /\
  length (all_rows d) = total_processed (counters (app s)) /\
  _pending_db_count (store (app s)) = length (staged d) /\
  _pending_db_count (store (app s)) < DB_COMMIT_BATCH_SIZE.
Proof.
  cbv zeta.
  assert (H : stored (run acts (boot cfg t0 src []))).
  { assert (H0 : stored (boot cfg t0 src [])).
    { constructor; simpl; auto. unfold DB_COMMIT_BATCH_SIZE. lia. }
    revert H0. generalize (boot cfg t0 src []).
    induction acts as [|act acts IH]; intros s Hs; simpl; [exact Hs|].
    destruct (step act s) as [s'|] eqn:E; eauto using step_stored. }
  destruct H as [_ I2 I3 I4 I5]. auto.
Qed.


(** *** The store when commits may fail *)

Lemma store_item_rows (r : Result) (st : Store) :
  all_rows (db (Aggregator.store_item r st))
  `sublist_of` all_rows (db st) ++ [r].
Proof.
  unfold Aggregator.store_item.
  destruct (DB_COMMIT_BATCH_SIZE <=? S (_pending_db_count st)).
  - unfold db_commit, db_add. cbn [faults staged committed].
    destruct (faults (db st)) as [|[|] rest];
      unfold all_rows; cbn [db db_rollback staged committed];
      rewrite ?concat_app; cbn [concat]; rewrite ?app_nil_r, ?app_assoc;
      try reflexivity.
    rewrite <- app_assoc. apply sublist_inserts_r. reflexivity.
  - unfold db_add, all_rows. cbn [db staged committed].
    now rewrite app_assoc.
Qed.

Lemma drain_rows (rq : list (option Result)) :
  forall (n : nat) (c : Counters) (st : Store),
  match Aggregator.drain rq n c st with
  | (rq', c', st') =>
      all_rows (db st') ++ queued_results rq'
      `sublist_of` all_rows (db st) ++ queued_results rq /\
      length (all_rows (db st')) + total_processed c
      <= length (all_rows (db st)) + total_processed c'
  end.
Proof.
  induction rq as [|[r|] rq IH]; intros n c st; cbn [Aggregator.drain].
  - split; [reflexivity | lia].
  - destruct (n <? 200); [|split; [reflexivity | lia]].
    specialize (IH (S n) (Aggregator.count_item r c)
                  (Aggregator.store_item r st)).
    destruct (Aggregator.drain rq _ _ _) as [[rq' c'] st'].
    destruct (count_item_spec r c) as (E1 & _).
    destruct IH as (G1 & G2).
    pose proof (store_item_rows r st) as F.
    pose proof (sublist_length _ _ F) as FL.
    rewrite length_app in FL. cbn [length] in FL.
    split; [|lia]. cbn [queued_results].
    etransitivity; [exact G1|].
    change (r :: queued_results rq) with ([r] ++ queued_results rq). rewrite app_assoc.
    apply sublist_app; [exact F | reflexivity].
  - destruct (n <? 200); [|split; [reflexivity | lia]].
    cbn [queued_results]. apply IH.
Qed.

Lemma finalize_rows (a : App) :
  let a' := Aggregator._finalize_processing a in
  all_rows (db (store a')) `sublist_of` all_rows (db (store a)) /\
  queues a' = queues a /\ counters a' = counters a.
Proof.
  unfold Aggregator._finalize_processing.
  cbn [with_signals with_store store queues counters].
  destruct (_pending_db_count (store a)); [repeat split; reflexivity|].
  unfold db_commit.
  destruct (faults (db (store a))) as [|[|] rest];
    unfold all_rows; cbn [db db_rollback staged committed];
    rewrite ?concat_app; cbn [concat]; rewrite ?app_nil_r;
    repeat split; try reflexivity.
  apply sublist_inserts_r. reflexivity.
Qed.

Lemma check_queue_rows (a : App) :
  let a' := Aggregator._check_queue a in
  all_rows (db (store a')) ++ queued_results (result_queue (queues a'))
  `sublist_of` all_rows (db (store a)) ++ queued_results (result_queue (queues a)) /\
  length (all_rows (db (store a'))) + total_processed (counters a)
  <= length (all_rows (db (store a))) + total_processed (counters a').
Proof.
  unfold Aggregator._check_queue.
  pose proof (drain_rows (result_queue (queues a)) 0 (counters a) (store a))
    as H.
  destruct (Aggregator.drain _ _ _ _) as [[rq c] st].
  destruct H as (H1 & H2).
  set (a1 := with_store st
               (with_counters c
                  (with_queues (with_result_queue rq (queues a)) a))).
  assert (S1 : all_rows (db (store a1)) ++ queued_results (result_queue (queues a1))
               `sublist_of`
               all_rows (db (store a)) ++ queued_results (result_queue (queues a)) /\
               length (all_rows (db (store a1))) + total_processed (counters a)
               <= length (all_rows (db (store a)))
                  + total_processed (counters a1)) by (split; assumption).
  destruct (is_processing (signals a1)); [|exact S1].
  destruct (Aggregator.finished a1); [|exact S1].
  destruct S1 as [J1 J2].
  destruct (finalize_rows a1) as (F1 & F2 & F3).
  rewrite F2, F3. pose proof (sublist_length _ _ F1) as FL.
  split; [|lia].
  etransitivity; [|exact J1]. apply sublist_app; [exact F1 | reflexivity].
Qed.

Lemma step_traced (act : action) (s s' : System) :
  traced s -> step act s = Some s' -> traced s'.
Proof.
  unfold traced. intros [I1 I2] Hstep.
  destruct act as [|j inp| | | |]; simpl in Hstep.
  - destruct (producer_step (producer s) (app s)) as [[[pc a] evs]|] eqn:E;
      [|discriminate].
    injection Hstep as <-.
    destruct (producer_step_stored _ _ _ _ _ E) as (E1 & E2 & E3).
    destruct (producer_step_app _ _ _ _ _ E) as (E4 & _).
    cbn [app history].
    rewrite E1, E2, E4, pushed_items_app, E3, app_nil_r. auto.
  - destruct (workers s !! j) as [pc|] eqn:Ej; [|discriminate].
    destruct (worker_step j inp pc (app s)) as [[[pc' a] evs]|] eqn:E;
      [|discriminate].
    injection Hstep as <-.
    destruct (worker_step_stored _ _ _ _ _ _ _ E) as (E1 & E2).
    destruct (worker_step_app _ _ _ _ _ _ _ E) as (E4 & _).
    cbn [app history].
    rewrite E1, E2, E4, pushed_items_app, app_assoc.
    split; [|exact I2]. apply sublist_app; [exact I1 | reflexivity].
  - injection Hstep as <-. cbn [app history].
    destruct (check_queue_rows (app s)) as [E1 E2].
    split; [etransitivity; [exact E1 | exact I1] | lia].
  - injection Hstep as <-. auto.
  - injection Hstep as <-. auto.
  - injection Hstep as <-. unfold _stop_processing.
    match goal with |- context [feed_sentinels ?n ?a] =>
      destruct (feed_sentinels_spec n a) as (k & _ & _ & E3 & E4 & _ & E6)
    end.
    cbn [app history] in *. rewrite E3, E4, E6. auto.
Qed.

(** X17.  Whatever commits fail, the store never holds a row that was not
    pushed by a worker, and never in another order: the rows, committed
    or staged, followed by the Results still queued are a subsequence of
    the Results pushed.  A failed commit only loses rows (the rollback
    drops the staged batch while the counters keep counting it), so the
    number of rows is at most [total_processed]. *)
Theorem store_never_invents_rows (cfg : Settings) (t0 : Q)
    (src : Producer.source) (fs : list bool) (acts : list action) :
  let s := run acts (boot cfg t0 src fs) in
  let d := db (store (app s)) in
  all_rows d ++ queued_results (result_queue (queues (app s)))
  `sublist_of` pushed_items (history s) /\
  length (all_rows d) <= total_processed (counters (app s)).
Proof.
  cbv zeta. change (traced (run acts (boot cfg t0 src fs))).
  assert (H0 : traced (boot cfg t0 src fs)).
  { split; simpl; [reflexivity | lia]. }
  revert H0. generalize (boot cfg t0 src fs).
  induction acts as [|act acts IH]; intros s Hs; simpl; [exact Hs|].
  destruct (step act s) as [s'|] eqn:E; eauto using step_traced.
Qed.

(** *** Work after a stop request *)

Lemma worker_step_after_stop (j : nat) (inp : winput) (pc pc' : wpc)
    (a a' : App) (evs : list hevent) :
  stop_event (signals a) = true ->
  worker_step j inp pc a = Some (pc', a', evs) ->
  length (dequeued_items evs) + waiting pc' <= waiting pc.
Proof.
  intros Hs Hstep. destruct pc; simpl in Hstep; rewrite ?Hs in Hstep;
    repeat match type of Hstep with
           | context [match ?x with _ => _ end] => destruct x
           | context [if ?x then _ else _] => destruct x
           end;
    try discriminate; injection Hstep as <- <- <-; simpl; lia.
Qed.

Lemma step_after_stop (act : action) (s s' : System) :
  stop_event (signals (app s)) = true -> step act s = Some s' ->
  stop_event (signals (app s')) = true /\
  length (dequeued_items (history s')) + total waiting (workers s')
  <= length (dequeued_items (history s)) + total waiting (workers s).
Proof.
  intros Hs Hstep. destruct act as [|j inp| | | |]; simpl in Hstep.
  - destruct (producer_step (producer s) (app s)) as [[[pc a] evs]|] eqn:E;
      [|discriminate].
    injection Hstep as <-.
    destruct (producer_step_surplus _ _ _ _ _ E) as (E1 & _).
    destruct (producer_step_in_order _ _ _ _ _ E) as (E2 & _).
    cbn [app history workers].
    rewrite E1, dequeued_items_app, E2, app_nil_r. auto.
  - destruct (workers s !! j) as [pc|] eqn:Ej; [|discriminate].
    destruct (worker_step j inp pc (app s)) as [[[pc' a] evs]|] eqn:E;
      [|discriminate].
    injection Hstep as <-.
    destruct (worker_step_surplus _ _ _ _ _ _ _ E) as (E1 & _).
    pose proof (worker_step_after_stop _ _ _ _ _ _ _ Hs E) as E2.
    pose proof (total_insert waiting (workers s) j pc pc' Ej).
    cbn [app history workers].
    rewrite E1, dequeued_items_app, length_app. split; [exact Hs | lia].
  - injection Hstep as <-. cbn [app history workers].
    destruct (check_queue_on_course (app s)) as [E1 _].
    rewrite E1. auto.
  - injection Hstep as <-. simpl. auto.
  - injection Hstep as <-. simpl. auto.
  - injection Hstep as <-. cbn [app history workers].
    unfold _stop_processing.
    match goal with |- context [feed_sentinels ?n ?a] =>
      destruct (feed_sentinels_fed n a) as (E1 & _)
    end.
    rewrite E1. simpl. auto.
Qed.

(** X18.  A stop request ends the dequeuing: from then on only a worker
    already blocked in [task_queue.get()] takes one more item, so the
    number of items dequeued after the stop is at most the number of
    workers that were waiting in [get()] when it came. *)
Theorem stop_ends_dequeuing (s : System) (acts : list action) :
  stop_event (signals (app s)) = true ->
  length (dequeued_items (history (run acts s)))
  <= length (dequeued_items (history s)) + total waiting (workers s).
Proof.
  intros Hs.
  assert (H : stop_event (signals (app (run acts s))) = true /\
              length (dequeued_items (history (run acts s)))
              + total waiting (workers (run acts s))
              <= length (dequeued_items (history s))
                 + total waiting (workers s)).
  { revert s Hs. induction acts as [|act acts IH]; intros s Hs; simpl;
      [split; [exact Hs | lia]|].
    destruct (step act s) as [s'|] eqn:E; [|now apply IH].
    destruct (step_after_stop act s s' Hs E) as [E1 E2].
    destruct (IH s' E1) as [F1 F2]. split; [exact F1 | lia]. }
  lia.
Qed.

Lemma stop_ends_dequeuing_witness :
  length (dequeued_items (history (run drained stopped_early))) <= 0.
Proof.
  assert (Hs : stop_event (signals (app stopped_early)) = true)
    by reflexivity.
  exact (stop_ends_dequeuing stopped_early drained Hs).
Defined.

(** *** One timer callback *)

(** X19.  One timer callback takes Results from the front of the result
    queue, in order, and counts at most 200 of them; what it leaves is
    the rest of the queue.  With fewer than 200 Results waiting it
    empties the queue. *)
Theorem check_queue_takes_at_most_200 (a : App) :
  let a' := Aggregator._check_queue a in
  exists taken : list (option Result),
    result_queue (queues a) = taken ++ result_queue (queues a') /\
    somes taken <= 200 /\
    total_processed (counters a')
    = total_processed (counters a) + somes taken /\
    (somes (result_queue (queues a)) < 200 -> result_queue (queues a') = []).
Proof.
  unfold Aggregator._check_queue.
  pose proof (drain_taken (result_queue (queues a)) 0 (counters a) (store a)
                ltac:(lia)) as H.
  destruct (Aggregator.drain _ _ _ _) as [[rq c] st].
  destruct H as (taken & H1 & H2 & H3 & H4).
  exists taken.
  destruct (is_processing _); [destruct (Aggregator.finished _)|];
    simpl; auto.
Qed.

Lemma check_queue_takes_at_most_200_witness :
  result_queue
    (queues (Aggregator._check_queue (app (run pushed_once booted)))) = [].
Proof.
  destruct (check_queue_takes_at_most_200 (app (run pushed_once booted)))
    as (taken & _ & _ & _ & H).
  apply H. vm_compute. lia.
Defined.

(** *** What the producer thread puts, stop requests included *)

Lemma keys_map_Some (l : list string) : keys (map Some l) = l.
Proof. induction l as [|k l IH]; simpl; auto. now rewrite IH. Qed.

Lemma prefix_sublist (l1 l2 : list string) :
  l1 `prefix_of` l2 -> l1 `sublist_of` l2.
Proof. intros [k ->]. now apply sublist_inserts_r. Qed.

Lemma first_occurrences_sublist (l : list string) :
  Producer.first_occurrences l `sublist_of` l.
Proof.
  induction l as [|k l IH]; simpl; [reflexivity|].
  apply sublist_skip. etransitivity; [apply sublist_filter | exact IH].
Qed.

(** What one step of the producer thread puts. *)
Lemma producer_step_puts (n : nat) (pc pc' : ppc) (a a' : App)
    (evs : list hevent) :
  max_workers a = n -> producer_step pc a = Some (pc', a', evs) ->
  (enqueued_items evs = [] /\
   sentinels_to_come n pc' = sentinels_to_come n pc /\
   total_enqueued (counters a') + lag pc'
   = total_enqueued (counters a) + lag pc /\
   (streaming pc' = true -> streaming pc = true)) \/
  (exists key, enqueued_items evs = [Some key] /\
   streaming pc = true /\ streaming pc' = true /\
   lag pc = 0 /\ lag pc' = 1 /\
   total_enqueued (counters a') = total_enqueued (counters a)) \/
  (enqueued_items evs = [None] /\
   streaming pc = false /\ streaming pc' = false /\
   sentinels_to_come n pc = S (sentinels_to_come n pc') /\
   lag pc = 0 /\ lag pc' = 0 /\
   total_enqueued (counters a') = total_enqueued (counters a)).
Proof.
  intros Hn Hstep.
  destruct pc as [src seen|skus src seen|k skus src seen
                  |skus src seen|m| |]; simpl in Hstep.
  - destruct src as [|[chunk|] rest];
      [| destruct (stop_event (signals a)) |];
      injection Hstep as <- <- <-; left; simpl; rewrite ?Hn; auto.
  - destruct skus as [|k rest];
      [| destruct (stop_event (signals a));
         [| destruct (decide (k ∈ seen))]];
      injection Hstep as <- <- <-; left; simpl; auto.
  - destruct (task_queue_full a); [discriminate|].
    injection Hstep as <- <- <-. right; left. exists k. simpl. auto 10.
  - injection Hstep as <- <- <-. left. simpl. repeat split; auto; lia.
  - destruct m as [|m];
      [| destruct (task_queue_full a); [discriminate|]];
      injection Hstep as <- <- <-; [left | right; right]; simpl; auto 10.
  - injection Hstep as <- <- <-. left. simpl. auto.
  - discriminate.
Qed.

(** After a stop request the producer puts no key but the one it had
    already found new. *)
Lemma producer_step_stopped (pc pc' : ppc) (a a' : App)
    (evs : list hevent) :
  stop_event (signals a) = true ->
  producer_step pc a = Some (pc', a', evs) ->
  keys (enqueued_items evs) ++ pending_put pc' = pending_put pc.
Proof.
  intros Hs Hstep.
  destruct pc as [src seen|skus src seen|k skus src seen
                  |skus src seen|m| |]; simpl in Hstep;
    rewrite ?Hs in Hstep.
  - destruct src as [|[chunk|] rest]; injection Hstep as <- <- <-; auto.
  - destruct skus as [|k rest]; injection Hstep as <- <- <-; auto.
  - destruct (task_queue_full a); [discriminate|].
    injection Hstep as <- <- <-. auto.
  - injection Hstep as <- <- <-. auto.
  - destruct m as [|m];
      [| destruct (task_queue_full a); [discriminate|]];
      injection Hstep as <- <- <-; auto.
  - injection Hstep as <- <- <-. auto.
  - discriminate.
Qed.

Lemma pending_put_to_come (n : nat) (pc : ppc) :
  pending_put pc `prefix_of` keys (to_come n pc).
Proof.
  destruct pc; simpl; try apply prefix_nil.
  apply prefix_cons, prefix_nil.
Qed.

Lemma step_streamed (expected : list string) (n : nat) (act : action)
    (s s' : System) :
  streamed expected n s -> step act s = Some s' -> streamed expected n s'.
Proof.
  intros [I1 (k & I2 & I3 & I4) I5 I6] Hstep.
  destruct act as [|j inp| | | |]; simpl in Hstep.
  - destruct (producer_step (producer s) (app s)) as [[[pc a] evs]|] eqn:E;
      [|discriminate].
    injection Hstep as <-.
    destruct (producer_step_surplus _ _ _ _ _ E) as (E1 & E2 & _).
    pose proof (producer_step_puts n _ _ _ _ _ I1 E) as Hputs.
    constructor; cbn [app producer history].
    + now rewrite E2.
    + rewrite enqueued_items_app, keys_app.
      destruct Hputs as [(P1 & P2 & _ & P4)
                        |[(key & P1 & P2 & P3 & _)|(P1 & P2 & P3 & P4 & _)]].
      * exists k. rewrite P1, !app_nil_r, P2. auto.
      * exists 0. rewrite P1. cbn [keys]. specialize (I3 P2). subst k.
        cbn [replicate] in *. rewrite app_nil_r in I2. rewrite !app_nil_r.
        rewrite map_app. cbn [map]. rewrite <- I2.
        repeat split; auto.
        destruct (producer s); try discriminate; destruct pc;
          try discriminate; simpl in *; lia.
      * exists (S k). rewrite P1. cbn [keys]. rewrite app_nil_r.
        rewrite I2 at 1. rewrite <- app_assoc.
        change [@None string] with (replicate 1 (@None string)).
        rewrite <- replicate_add.
        replace (k + 1) with (S k) by lia.
        repeat split; auto; [rewrite P3; discriminate | lia].
    + rewrite enqueued_items_app, keys_app, length_app.
      destruct Hputs as [(P1 & _ & P3 & _)
                        |[(key & P1 & _ & _ & P4 & P5 & P6)
                         |(P1 & _ & _ & _ & P5 & P6 & P7)]];
        rewrite P1; simpl; lia.
    + rewrite E1. destruct (stop_event (signals (app s))) eqn:Hs.
      * rewrite enqueued_items_app, keys_app, <- app_assoc.
        now rewrite (producer_step_stopped _ _ _ _ _ Hs E).
      * destruct (producer_step_on_course _ _ _ _ _ Hs E) as [_ Hc].
        rewrite I1 in Hc.
        rewrite enqueued_items_app, keys_app, <- app_assoc, <- keys_app, Hc.
        exact I6.
  - destruct (workers s !! j) as [pc|] eqn:Ej; [|discriminate].
    destruct (worker_step j inp pc (app s)) as [[[pc' a] evs]|] eqn:E;
      [|discriminate].
    injection Hstep as <-.
    destruct (worker_step_app _ _ _ _ _ _ _ E) as (E1 & E2).
    destruct (worker_step_on_course _ _ _ _ _ _ _ E) as [E3 E4].
    constructor; cbn [app producer history];
      rewrite ?E1, ?E2, ?E3, ?enqueued_items_app, ?E4, ?app_nil_r; auto.
    exists k. auto.
  - injection Hstep as <-.
    destruct (check_queue_spec (app s)) as (_ & _ & _ & E1 & _).
    destruct (check_queue_on_course (app s)) as [E2 E3].
    constructor; cbn [app producer history]; rewrite ?E1, ?E2, ?E3; auto.
    exists k. auto.
  - injection Hstep as <-. constructor; simpl; auto. exists k. auto.
  - injection Hstep as <-. constructor; simpl; auto. exists k. auto.
  - injection Hstep as <-. unfold _stop_processing.
    match goal with |- context [feed_sentinels ?m ?a] =>
      destruct (feed_sentinels_fed m a) as (E1 & E2 & _);
      destruct (feed_sentinels_spec m a) as (k' & _ & _ & _ & E4 & _)
    end.
    constructor; cbn [app producer history] in *;
      rewrite ?E1, ?E2, ?E4; simpl; auto.
    + exists k. auto.
    + destruct (stop_event (signals (app s))); [exact I6|].
      rewrite <- I6. apply prefix_app, pending_put_to_come.
Qed.

Lemma reachable_streamed (cfg : Settings) (t0 : Q) (src : Producer.source)
    (fs : list bool) (acts : list action) :
  streamed (Producer.first_occurrences (Producer.surviving src))
    (Z.to_nat (Z.max 1 (cfg_max_workers cfg)))
    (run acts (boot cfg t0 src fs)).
Proof.
  assert (H0 : streamed (Producer.first_occurrences (Producer.surviving src))
                 (Z.to_nat (Z.max 1 (cfg_max_workers cfg)))
                 (boot cfg t0 src fs)).
  { constructor; simpl; auto.
    - exists 0. simpl. auto.
    - rewrite keys_app, keys_map_Some, keys_replicate_None, app_nil_r.
      unfold Producer.fresh. apply ProducerFacts.filter_all.
      intros k _. apply not_elem_of_empty. }
  revert H0. generalize (boot cfg t0 src fs).
  induction acts as [|act acts IH]; intros s Hs; simpl; [exact Hs|].
  destruct (step act s) as [s'|] eqn:E; eauto using step_streamed.
Qed.

Lemma streamed_prefix (expected : list string) (n : nat) (s : System) :
  streamed expected n s ->
  keys (enqueued_items (history s)) `prefix_of` expected.
Proof.
  intros [_ _ _ I6]. destruct (stop_event (signals (app s))).
  - etransitivity; [|exact I6]. now apply prefix_app_r.
  - rewrite <- I6. now apply prefix_app_r.
Qed.

(** X10.  Under every schedule, stop requests included, what the producer
    thread has put on the bounded task queue is at any moment a list of
    pairwise distinct zero-stock keys of the file, in file order, followed
    by at most one sentinel per worker; [total_enqueued] is the number of
    those keys, less the one just put and not yet counted.  If the thread
    gets to its end (a [put] on the full queue may block for ever once
    the workers have left), there is exactly one sentinel per worker and
    [total_to_process] and [total_enqueued] are the number of keys. *)
Theorem producer_puts_keys_then_sentinels (cfg : Settings) (t0 : Q)
    (src : Producer.source) (fs : list bool) (acts : list action) :
  let s := run acts (boot cfg t0 src fs) in
  let n := Z.to_nat (Z.max 1 (cfg_max_workers cfg)) in
  exists (tasks : list string) (k : nat),
    enqueued_items (history s) = map Some tasks ++ replicate k None /\
    NoDup tasks /\ tasks `sublist_of` Producer.surviving src /\
    k <= n /\
    total_enqueued (counters (app s)) + lag (producer s) = length tasks /\
    (producer s = PDone ->
     k = n /\
     total_to_process (counters (app s)) = length tasks /\
     total_enqueued (counters (app s)) = length tasks).
Proof.
  intros s n.
  pose proof (reachable_streamed cfg t0 src fs acts) as H.
  fold s n in H.
  pose proof (streamed_prefix _ _ _ H) as Hpre.
  destruct H as [I1 (k & I2 & I3 & I4) I5 _].
  destruct (reachable_sound cfg t0 src fs acts) as [_ _ J3 _ _].
  fold s in J3.
  exists (keys (enqueued_items (history s))), k.
  split; [exact I2|]. split.
  { eapply sublist_NoDup; [apply ProducerFacts.first_occurrences_NoDup|].
    apply prefix_sublist, Hpre. }
  split.
  { etransitivity; [apply prefix_sublist, Hpre|].
    apply first_occurrences_sublist. }
  split; [lia|]. split; [exact I5|].
  intros Hd. rewrite Hd in *. simpl in *. repeat split; lia.
Qed.

(** X11.  A stop request only cuts the stream of keys short: under every
    schedule the keys the producer thread has put are an initial segment
    of the keys an undisturbed run puts, the first occurrences of the
    zero-stock keys of the file. *)
Theorem stop_cuts_the_key_stream_short (cfg : Settings) (t0 : Q)
    (src : Producer.source) (fs : list bool) (acts : list action) :
  let s := run acts (boot cfg t0 src fs) in
  keys (enqueued_items (history s))
  `prefix_of` Producer.first_occurrences (Producer.surviving src).
Proof.
  intros s. eapply streamed_prefix, reachable_streamed.
Qed.

(** *** A stop request that leaves the producer waiting *)

Lemma run_app (acts1 acts2 : list action) : forall s : System,
  run (acts1 ++ acts2) s = run acts2 (run acts1 s).
Proof.
  induction acts1 as [|act acts1 IH]; intros s; simpl; [reflexivity|].
  destruct (step act s); apply IH.
Qed.

Lemma in_put_waits (pc : ppc) (a : App) :
  in_put pc = true -> task_queue_full a = true -> producer_step pc a = None.
Proof.
  intros Hp Hf. destruct pc as [| | | |[|m]| |]; try discriminate Hp;
    simpl; now rewrite Hf.
Qed.

Lemma gone_rests (i : nat) (inp : winput) (pc : wpc) (a : App) :
  gone pc = true -> worker_step i inp pc a = None.
Proof. intros H. destruct pc; try discriminate H; reflexivity. Qed.

Lemma feed_sentinels_full (n : nat) (a : App) :
  task_queue_full a = true -> feed_sentinels n a = a.
Proof. intros H. destruct n; simpl; [reflexivity | now rewrite H]. Qed.

Lemma blocked_step (act : action) (s s' : System) :
  blocked s = true -> step act s = Some s' ->
  blocked s' = true /\ producer s' = producer s /\
  workers s' = workers s /\ history s' = history s /\
  task_queue (queues (app s')) = task_queue (queues (app s)) /\
  total_to_process (counters (app s'))
  = total_to_process (counters (app s)).
Proof.
  unfold blocked. intros Hb Hstep.
  apply andb_prop in Hb as [Hb Hw]. apply andb_prop in Hb as [Hp Hf].
  assert (Hkeep : forall a' : App,
            task_queue (queues a') = task_queue (queues (app s)) ->
            task_queue_full a' = true).
  { intros a' E. unfold task_queue_full in *. now rewrite E. }
  destruct act as [|j inp| | | |]; simpl in Hstep.
  - rewrite (in_put_waits _ _ Hp Hf) in Hstep. discriminate.
  - destruct (workers s !! j) as [pc|] eqn:Ej; [|discriminate].
    assert (Hg : gone pc = true).
    { apply Is_true_true. apply Is_true_true, forallb_True in Hw.
      rewrite Forall_lookup in Hw. exact (Hw j pc Ej). }
    rewrite (gone_rests j inp pc (app s) Hg) in Hstep. discriminate.
  - injection Hstep as <-. cbn [app producer workers history].
    destruct (check_queue_spec (app s)) as (E1 & _ & _ & _ & E5 & _).
    rewrite Hp, Hw, (Hkeep _ E1). repeat split; auto.
  - injection Hstep as <-. cbn [app producer workers history].
    rewrite Hp, Hw, (Hkeep (set_pause false (app s)) eq_refl).
    repeat split; auto.
  - injection Hstep as <-. cbn [app producer workers history].
    rewrite Hp, Hw, (Hkeep (set_pause true (app s)) eq_refl).
    repeat split; auto.
  - injection Hstep as <-. cbn [app producer workers history].
    unfold _stop_processing.
    rewrite feed_sentinels_full by (now apply Hkeep).
    rewrite Hp, Hw. rewrite Hkeep by reflexivity. repeat split; auto.
Qed.

Lemma blocked_run (acts : list action) : forall s : System,
  blocked s = true ->
  blocked (run acts s) = true /\ producer (run acts s) = producer s /\
  workers (run acts s) = workers s /\ history (run acts s) = history s /\
  task_queue (queues (app (run acts s))) = task_queue (queues (app s)) /\
  total_to_process (counters (app (run acts s)))
  = total_to_process (counters (app s)).
Proof.
  induction acts as [|act acts IH]; intros s Hb; simpl.
  - repeat split; auto.
  - destruct (step act s) as [s1|] eqn:E; [|now apply IH].
    destruct (blocked_step _ _ _ Hb E) as (B & E1 & E2 & E3 & E4 & E5).
    destruct (IH s1 B) as (B' & F1 & F2 & F3 & F4 & F5).
    repeat split; congruence.
Qed.

(** The producer puts one new key when there is room: three steps. *)
Lemma fill_one (s : System) (k : string) (rest : list string)
    (src : Producer.source) (seen : gset string) :
  producer s = PSkus (k :: rest) src seen -> k ∉ seen ->
  stop_event (signals (app s)) = false ->
  length (task_queue (queues (app s))) < TASK_QUEUE_MAX ->
  let s' := run [Produce; Produce; Produce] s in
  producer s' = PSkus rest src ({[ k ]} ∪ seen) /\
  length (task_queue (queues (app s')))
  = S (length (task_queue (queues (app s)))) /\
  workers s' = workers s /\ signals (app s') = signals (app s) /\
  total_to_process (counters (app s'))
  = total_to_process (counters (app s)).
Proof.
  intros Hp Hk Hs Hl. destruct s as [a pc ws h]. cbn [producer app] in *.
  subst pc. cbn [run step producer app producer_step workers history].
  rewrite Hs. destruct (decide (k ∈ seen)) as [Hin|_]; [contradiction|].
  cbn [run step producer app producer_step workers history].
  unfold task_queue_full. apply Nat.leb_gt in Hl. rewrite Hl.
  cbn [run step producer app producer_step workers history].
  cbn [with_counters with_queues queues task_put task_queue signals
       counters bump_enqueued total_to_process].
  rewrite length_app. cbn [length]. repeat split; auto. lia.
Qed.

Lemma fill_many (rest : list string) (src : Producer.source)
    (ks : list string) : forall (s : System) (seen : gset string),
  producer s = PSkus (ks ++ rest) src seen -> NoDup ks ->
  Forall (fun k => k ∉ seen) ks ->
  stop_event (signals (app s)) = false ->
  length (task_queue (queues (app s))) + length ks <= TASK_QUEUE_MAX ->
  let s' := run (replicate (3 * length ks) Produce) s in
  exists seen' : gset string,
    producer s' = PSkus rest src seen' /\
    (forall k, k ∈ seen' <-> k ∈ ks \/ k ∈ seen) /\
    length (task_queue (queues (app s')))
    = length (task_queue (queues (app s))) + length ks /\
    workers s' = workers s /\ signals (app s') = signals (app s) /\
    total_to_process (counters (app s'))
    = total_to_process (counters (app s)).
Proof.
  induction ks as [|k ks IH]; intros s seen Hp Hnd Hout Hs Hl.
  - exists seen. cbn [length]. rewrite Nat.mul_0_r.
    cbn [replicate run]. split; [exact Hp|].
    split; [intros k; rewrite elem_of_nil; tauto|].
    repeat split; auto.
  - apply NoDup_cons in Hnd as [Hk Hnd].
    apply Forall_cons in Hout as [Hk' Hout].
    cbn [length] in *.
    replace (3 * S (length ks)) with (3 + 3 * length ks) by lia.
    rewrite replicate_add, run_app.
    change (replicate 3 Produce) with [Produce; Produce; Produce].
    destruct (fill_one s k (ks ++ rest) src seen Hp Hk' Hs)
      as (F1 & F2 & F3 & F4 & F5); [lia|].
    set (s1 := run [Produce; Produce; Produce] s) in *.
    destruct (IH s1 ({[ k ]} ∪ seen) F1 Hnd)
      as (seen' & G1 & G2 & G3 & G4 & G5 & G6).
    + rewrite Forall_forall in *. intros k' Hin.
      rewrite elem_of_union, elem_of_singleton.
      intros [->|H]; [contradiction | exact (Hout k' Hin H)].
    + now rewrite F4.
    + lia.
    + exists seen'. split; [exact G1|]. split.
      * intros k'. rewrite G2, elem_of_union, elem_of_singleton, elem_of_cons.
        tauto.
      * repeat split; try congruence. lia.
Qed.

Lemma last_key_waits (s : System) (k : string) (src : Producer.source)
    (seen : gset string) :
  producer s = PSkus [k] src seen -> k ∉ seen ->
  stop_event (signals (app s)) = false ->
  let s' := run [Produce] s in
  in_put (producer s') = true /\ app s' = app s /\ workers s' = workers s.
Proof.
  intros Hp Hk Hs. destruct s as [a pc ws h]. cbn [producer app] in *.
  subst pc. cbn [run step producer app producer_step workers history].
  rewrite Hs. destruct (decide (k ∈ seen)) as [Hin|_]; [contradiction|].
  cbn [producer app workers in_put]. auto.
Qed.

Lemma stop_then_leave (s : System) (inp : winput) :
  in_put (producer s) = true -> task_queue_full (app s) = true ->
  workers s = [WLoop] ->
  let s' := run [Stop; Work 0 inp] s in
  blocked s' = true /\ stop_event (signals (app s')) = true /\
  total_to_process (counters (app s'))
  = total_to_process (counters (app s)) /\
  is_processing (signals (app s')) = is_processing (signals (app s)).
Proof.
  intros Hp Hf Hw. destruct s as [a pc ws h]. cbn [producer app workers] in *.
  subst ws. unfold blocked.
  cbn [run step producer app workers history]. unfold _stop_processing.
  rewrite feed_sentinels_full by exact Hf.
  cbn [lookup list_lookup worker_step signals with_signals stop_event
       app producer workers history insert list_insert forallb gone
       counters is_processing].
  rewrite Hp. unfold task_queue_full in *. cbn [queues with_signals].
  rewrite Hf. auto.
Qed.

Lemma zero_stock_many (l : list nat) :
  Producer.zero_stock
    (map (fun i => Producer.mkRow (Some (pretty i)) (Some 0%Z)) l)
  = map pretty l.
Proof. induction l as [|i l IH]; simpl; [reflexivity | now rewrite IH]. Qed.

Lemma fill_then_stop_blocks :
  let s := run fill_then_stop
             (boot solo 0 (many_keys (S TASK_QUEUE_MAX)) []) in
  blocked s = true /\ stop_event (signals (app s)) = true /\
  total_to_process (counters (app s)) = 0 /\
  is_processing (signals (app s)) = true.
Proof.
  unfold fill_then_stop.
  rewrite !replicate_add, <- !app_assoc, !run_app.
  set (n := TASK_QUEUE_MAX).
  set (s1 := run (replicate 1 Produce) (boot solo 0 (many_keys (S n)) [])).
  assert (H1 : producer s1
               = PSkus (map pretty (seq 0 n) ++ [pretty n]) [] ∅ /\
               task_queue (queues (app s1)) = [] /\
               workers s1 = [WLoop] /\
               signals (app s1)
               = {| is_processing := true; pause_event := true;
                    stop_event := false |} /\
               total_to_process (counters (app s1)) = 0).
  { unfold s1, boot, _start_processing, many_keys.
    cbn [replicate run step producer app producer_step signals stop_event
         workers queues counters total_to_process fresh task_queue].
    rewrite zero_stock_many, seq_S, map_app. auto. }
  clearbody s1. destruct H1 as (P1 & Q1 & W1 & S1 & T1).
  destruct (fill_many [pretty n] [] (map pretty (seq 0 n)) s1 ∅ P1)
    as (seen & P2 & M2 & Q2 & W2 & S2 & T2).
  { apply (NoDup_fmap_2 _), NoDup_seq. }
  { apply Forall_forall. intros k _. apply not_elem_of_empty. }
  { now rewrite S1. }
  { rewrite Q1, length_map, length_seq. simpl. reflexivity. }
  rewrite length_map, length_seq in *.
  set (s2 := run (replicate (3 * n) Produce) s1) in *. clearbody s2.
  destruct (last_key_waits s2 (pretty n) [] seen P2)
    as (P3 & A3 & W3).
  { rewrite M2. intros [Hi|H].
    - change (map pretty (seq 0 n)) with (pretty <$> seq 0 n) in Hi.
      apply (list_elem_of_fmap_inj_2 pretty) in Hi.
      apply elem_of_seq in Hi. lia.
    - now apply not_elem_of_empty in H. }
  { now rewrite S2, S1. }
  change (replicate 1 Produce) with [Produce].
  set (s3 := run [Produce] s2) in *. clearbody s3.
  destruct (stop_then_leave s3 calm P3) as (B & E1 & E2 & E3).
  { unfold task_queue_full. rewrite A3, Q2, Q1. apply Nat.leb_le.
    cbn [length]. fold n. lia. }
  { now rewrite W3, W2. }
  split; [exact B|]. split; [exact E1|].
  rewrite E2, E3, A3, T2, S2, S1. auto.
Qed.

(** X22.  A stop request can leave the producer thread blocked for ever.
    Once the producer is inside a [put] on the full task queue and every
    worker has left its loop, no step of any thread is possible but the
    timer callback and the buttons, and none of them moves the producer:
    under every later schedule it stays in that [put], nothing enters or
    leaves the task queue, nothing is put or taken by a thread, and
    [total_to_process] keeps its value.  Such a state is reached when
    the producer has filled the queue of 5000 and the user stops the run
    before a worker takes an item: the worker finds the flag set and
    leaves, and [_stop_processing] finds the queue full. *)
Theorem stop_can_block_the_producer (acts : list action) :
  (forall s : System, blocked s = true ->
     let s' := run acts s in
     blocked s' = true /\ producer s' = producer s /\
     workers s' = workers s /\ history s' = history s /\
     task_queue (queues (app s')) = task_queue (queues (app s)) /\
     total_to_process (counters (app s'))
     = total_to_process (counters (app s))) /\
  (let s := run fill_then_stop
              (boot solo 0 (many_keys (S TASK_QUEUE_MAX)) []) in
   blocked s = true /\ stop_event (signals (app s)) = true /\
   total_to_process (counters (app s)) = 0 /\
   is_processing (signals (app s)) = true).
Proof.
  split.
  - intros s Hb. apply blocked_run, Hb.
  - apply fill_then_stop_blocks.
Qed.

Lemma stop_can_block_the_producer_witness :
  let s := run fill_then_stop
             (boot solo 0 (many_keys (S TASK_QUEUE_MAX)) []) in
  let s' := run [Produce; Poll; Work 0 calm; Stop; Produce] s in
  producer s' = producer s /\ history s' = history s.
Proof.
  intros s s'.
  assert (H : blocked s = true)
    by exact (proj1 (proj2 (stop_can_block_the_producer []))).
  destruct (proj1 (stop_can_block_the_producer
                     [Produce; Poll; Work 0 calm; Stop; Produce]) s H)
    as (_ & H1 & _ & H2 & _).
  split; [exact H1 | exact H2].
Defined.

End PipelineFacts.

(** ** The tree view and the key dropdown *)

Module DisplayFacts.
Import Display.

Local Open Scope nat_scope.

Section Treeview.

Context {datetime : Type}.
Variable fmt_date : pydate -> string.
Variable fmt_datetime : datetime -> string.

Lemma flush_window (batch : list (SkuResult datetime)) :
  forall tree : list (list cell),
  length tree <= TREEVIEW_MAX_ROWS_DISPLAY ->
  _flush_treeview_batch fmt_date fmt_datetime batch tree
  = drop (length tree + length batch - TREEVIEW_MAX_ROWS_DISPLAY)
      (tree ++ map (values fmt_date fmt_datetime) batch).
Proof.
  unfold TREEVIEW_MAX_ROWS_DISPLAY.
  induction batch as [|r rest IH]; intros tree Hlen; cbn [_flush_treeview_batch].
  - cbn [map length]. rewrite app_nil_r.
    replace (length tree + 0 - 5000) with 0 by lia. reflexivity.
  - unfold _insert_result_into_treeview, TREEVIEW_MAX_ROWS_DISPLAY.
    destruct (5000 <=? length tree) eqn:E.
    + apply Nat.leb_le in E.
      destruct tree as [|row tree]; [simpl in E; lia|].
      cbn [tl length] in *.
      rewrite IH by (rewrite length_app; simpl; lia).
      rewrite length_app. cbn [length map].
      replace (S (length tree) + S (length rest) - 5000)
        with (S (length tree + 1 + length rest - 5000)) by lia.
      cbn [app drop]. rewrite <- app_assoc. reflexivity.
    + apply Nat.leb_gt in E.
      rewrite IH by (rewrite length_app; simpl; lia).
      rewrite length_app. cbn [length map].
      rewrite <- app_assoc. cbn [app].
      replace (length tree + 1 + length rest - 5000)
        with (length tree + S (length rest) - 5000) by lia.
      reflexivity.
Qed.

(** X20.  The tree view is a sliding window: flushing a batch into a tree
    of at most 5000 rows leaves the last 5000 of the old rows followed by
    the new ones, the oldest rows dropped from the top, and never more
    than 5000 rows. *)
Theorem treeview_shows_the_latest_rows (batch : list (SkuResult datetime))
    (tree : list (list cell)) :
  length tree <= TREEVIEW_MAX_ROWS_DISPLAY ->
  let tree' := _flush_treeview_batch fmt_date fmt_datetime batch tree in
  tree' = drop (length tree + length batch - TREEVIEW_MAX_ROWS_DISPLAY)
            (tree ++ map (values fmt_date fmt_datetime) batch) /\
  length tree' <= TREEVIEW_MAX_ROWS_DISPLAY.
Proof.
  intros Hlen tree'. unfold tree'. rewrite flush_window by exact Hlen.
  split; [reflexivity|].
  rewrite length_drop, length_app, length_map. lia.
Qed.

End Treeview.

Lemma treeview_shows_the_latest_rows_witness :
  _flush_treeview_batch (fun _ => ""%string) (fun _ : unit => ""%string)
    [unflushed] []
  = [[CText "A"; CText "N/A"; CText "N/A"; CJson (JStr "N/A");
      CJson (JInt 0); CText "N/A"; CText "N/A"]].
Proof.
  assert (H : length (@nil (list cell)) <= TREEVIEW_MAX_ROWS_DISPLAY)
    by (unfold TREEVIEW_MAX_ROWS_DISPLAY; simpl; lia).
  exact (proj1 (treeview_shows_the_latest_rows (fun _ => ""%string)
                  (fun _ : unit => ""%string) [unflushed] [] H)).
Defined.

(** *** The key dropdown *)

Lemma zero_stock_app (l1 l2 : list Producer.Row) :
  Producer.zero_stock (l1 ++ l2)
  = Producer.zero_stock l1 ++ Producer.zero_stock l2.
Proof.
  induction l1 as [|row l1 IH]; simpl; [reflexivity|].
  destruct (_ =? 0)%Z; [destruct (Producer.row_sku row)|]; simpl;
    now rewrite IH.
Qed.

Lemma surviving_chunks (chunks : list (list Producer.Row)) :
  Producer.surviving (map Some chunks) = Producer.zero_stock (concat chunks).
Proof.
  induction chunks as [|c chunks IH]; simpl; [reflexivity|].
  now rewrite zero_stock_app, IH.
Qed.

(** X21.  The dropdown previews the run: its values are distinct and at
    most 500.  When the producer then reads the same rows to the end of
    the file, no read raising, no stop requested and every [put]
    returning, they are the first keys it puts on the task queue, in the
    same order, however the file is cut into chunks. *)
Theorem dropdown_previews_the_run (chunks : list (list Producer.Row))
    (max_workers : nat) :
  let shown := dropdown_values (Some (concat chunks)) in
  length shown <= 500 /\ NoDup shown /\
  exists more : list string,
    Producer.queued
      (Producer._producer_from_csv (fun _ => false) max_workers
         (map Some chunks))
    = map Some (shown ++ more) ++ replicate max_workers None.
Proof.
  intros shown. unfold shown, dropdown_values.
  set (rows := concat chunks).
  set (head := Producer.first_occurrences
                 (Producer.zero_stock (take SAMPLE_ROWS rows))).
  split; [rewrite length_take; lia|].
  split.
  { eapply sublist_NoDup;
      [apply ProducerFacts.first_occurrences_NoDup | apply sublist_take]. }
  destruct (ProducerFacts.chunks_loop_puts (fun _ => false) (map Some chunks)
              (fun _ => eq_refl)
              {| Producer.seen := ∅; Producer.puts := [];
                 Producer.total_enqueued := 0; Producer.polls := 0 |})
    as (Hq & _).
  unfold Producer._producer_from_csv. cbn [Producer.queued].
  rewrite Hq. cbn [Producer.puts Producer.seen app].
  rewrite ProducerFacts.filter_all
    by (intros k _; apply not_elem_of_empty).
  rewrite surviving_chunks. fold rows.
  replace (Producer.zero_stock rows)
    with (Producer.zero_stock (take SAMPLE_ROWS rows)
          ++ Producer.zero_stock (drop SAMPLE_ROWS rows))
    by (now rewrite <- zero_stock_app, take_drop).
  rewrite ProducerFacts.first_occurrences_app. fold head.
  replace (head ++ filter (fun k => k ∉ Producer.zero_stock (take SAMPLE_ROWS rows))
             (Producer.first_occurrences
                (Producer.zero_stock (drop SAMPLE_ROWS rows))))
    with (take 500 head
          ++ (drop 500 head
              ++ filter (fun k => k ∉ Producer.zero_stock (take SAMPLE_ROWS rows))
                   (Producer.first_occurrences
                      (Producer.zero_stock (drop SAMPLE_ROWS rows)))))
    by (now rewrite app_assoc, take_drop).
  eexists. reflexivity.
Qed.

End DisplayFacts.
